(** * The double round-robin partition assignor of librdkafka

    A shallow embedding of [rd_kafka_doubleroundrobin_assignor_assign_cb]
    (src/rdkafka_doubleroundrobin_assignor.c) and the properties of its
    replica grouper and of its two-level distribution loop.

    C [int] values are integers of [Z]: every value the function computes
    lies between -1 and the larger of the member count plus one and the
    partition count, so no signed overflow arises for inputs that fit an
    [int].  Arrays are lists indexed from 0; every load and store is
    bounds-checked, and what C leaves undefined (an access outside an
    array, a load from a cell that was never stored, a null dereference,
    a zero modulus) is an explicit [Fault]. *)

From Stdlib Require Import ZArith Lia String Sorted.
From stdpp Require Import base tactics option list numbers strings sorting.

Local Open Scope Z_scope.

(** ** Outcomes of C code *)

Inductive fault : Type :=
| OutOfBounds
| Uninitialised
| NullDeref
| DivByZero.

Inductive outcome (A : Type) : Type :=
| Ok (a : A)
| Fault (f : fault).

Arguments Ok {A} a.
Arguments Fault {A} f.

Definition obind {A B : Type} (m : outcome A) (k : A -> outcome B) : outcome B :=
  match m with
  | Ok a => k a
  | Fault f => Fault f
  end.

Notation "'let*' x := m 'in' k" := (obind m (fun x => k))
  (at level 10, x pattern, m at level 100, k at level 200).

(** [for (i = a; i < a + count; i++) body], the state threaded through. *)
Fixpoint for_loop {S : Type} (body : Z -> S -> outcome S)
    (count : nat) (i : Z) (s : S) : outcome S :=
  match count with
  | O => Ok s
  | Datatypes.S c => let* s' := body i s in for_loop body c (i + 1) s'
  end.

(** The C remainder [a % b]; a zero divisor is undefined. *)
Definition c_rem (a b : Z) : outcome Z :=
  if b =? 0 then Fault DivByZero else Ok (Z.rem a b).

(** ** Arrays *)

(** [a[i]] on an array whose cells are all defined. *)
Definition arr_get {A : Type} (a : list A) (i : Z) : outcome A :=
  if i <? 0 then Fault OutOfBounds
  else match a !! Z.to_nat i with
       | Some x => Ok x
       | None => Fault OutOfBounds
       end.

(** [a[i] = x]. *)
Definition arr_set {A : Type} (a : list A) (i : Z) (x : A) : outcome (list A) :=
  if (i <? 0) || (Z.of_nat (length a) <=? i) then Fault OutOfBounds
  else Ok (<[Z.to_nat i := x]> a).

(** A variable-length array of [int]: a cell holds [None] until it is
    first stored to. *)
Definition vla : Type := list (option Z).

(** [int a[n];] *)
Definition vla_new (n : Z) : vla := replicate (Z.to_nat n) None.

Definition vla_read (a : vla) (i : Z) : outcome Z :=
  let* c := arr_get a i in
  match c with
  | Some v => Ok v
  | None => Fault Uninitialised
  end.

Definition vla_write (a : vla) (i : Z) (v : Z) : outcome vla :=
  arr_set a i (Some v).

(** [memset(a, -1, sizeof(a))]: every byte 0xFF, so every [int] is -1. *)
Definition vla_memset_minus1 (a : vla) : vla :=
  replicate (length a) (Some (-1)).

(** ** Data model

    The structures are declared in rdkafka_assignor.h and rdkafka.h; the
    records keep the fields the assignor touches, under their C names. *)

(** An entry of a [rd_kafka_topic_partition_list_t]. *)
Definition rd_kafka_topic_partition_t : Type := (string * Z)%type.

Record rd_kafka_group_member_t : Type := {
  rkgm_member_id : string;
  rkgm_subscription : list string;
  rkgm_assignment : list rd_kafka_topic_partition_t
}.

Record rd_kafka_metadata_topic_t : Type := {
  topic : string;
  partition_cnt : Z
}.

(** [metadata] is a pointer and so may be null; [members] is the
    [rd_list_t] of the topic's eligible members, each a pointer to a slot
    of the caller's member array (here the slot's index). *)
Record rd_kafka_assignor_topic_t : Type := {
  metadata : option rd_kafka_metadata_topic_t;
  members : list nat
}.

Definition rd_list_cnt {A : Type} (l : list A) : Z := Z.of_nat (length l).

(** [rd_kafka_topic_partition_list_add(list, topic, partition)] appends
    one entry at the end of the list. *)
Definition rd_kafka_topic_partition_list_add
    (l : list rd_kafka_topic_partition_t) (t : string) (partition : Z)
    : list rd_kafka_topic_partition_t :=
  l ++ [(t, partition)].

(** [rd_kafka_topic_partition_list_add(rkgm->rkgm_assignment, ...)] seen
    from the member that owns the list. *)
Definition member_add (m : rd_kafka_group_member_t) (t : string) (partition : Z)
    : rd_kafka_group_member_t :=
  {| rkgm_member_id := rkgm_member_id m;
     rkgm_subscription := rkgm_subscription m;
     rkgm_assignment := rd_kafka_topic_partition_list_add (rkgm_assignment m) t partition |}.

(** The locals of the grouping phase (lines 78-84). *)
Record grouping : Type := {
  different_consumers : vla;
  recount_member : Z;
  resorted_member_lists : vla;
  resorted_member_lists_pos : Z
}.

(** The locals of the distribution loop (lines 105, 122) and the member
    array it appends to. *)
Record distribution : Type := {
  next : Z;
  next_in_member_group : vla;
  dist_members : list rd_kafka_group_member_t
}.

(** What the entry point leaves behind when it returns: the result code,
    the caller's member array and the caller's error buffer. *)
Record assign_result : Type := {
  res_err : Z;
  res_members : list rd_kafka_group_member_t;
  res_errstr : string
}.

Section Assignor.

(** Modelled from the spec: the identifier comparison behind
    [rd_kafka_group_member_cmp] (rdkafka_assignor.c is not part of the
    sources); "a single total order over all group members (by
    identifier)", negative, zero or positive as in C. *)
Variable member_id_cmp : string -> string -> Z.

(** Modelled from the spec: [rd_kafka_str_member_is_replicate] is not part
    of the sources; "Classify(a, b)" on two adjacent member ids, 0 for
    Distinct, 1 for SameGroup, 2 for Duplicate. *)
Variable rd_kafka_str_member_is_replicate : string -> string -> Z.

Definition rd_kafka_group_member_cmp (a b : rd_kafka_group_member_t) : Z :=
  member_id_cmp (rkgm_member_id a) (rkgm_member_id b).

(** [qsort] over the whole member array with [cmp] sorts the array in
    place into a permutation ordered by [cmp]; the order of elements that
    compare equal is unspecified in C.  The model inserts stably, which is
    what every conforming [qsort] computes when identifiers are unique. *)
Fixpoint qsort_insert (cmp : rd_kafka_group_member_t -> rd_kafka_group_member_t -> Z)
    (x : rd_kafka_group_member_t) (l : list rd_kafka_group_member_t)
    : list rd_kafka_group_member_t :=
  match l with
  | [] => [x]
  | y :: l' => if cmp x y <=? 0 then x :: y :: l' else y :: qsort_insert cmp x l'
  end.

Fixpoint qsort (cmp : rd_kafka_group_member_t -> rd_kafka_group_member_t -> Z)
    (l : list rd_kafka_group_member_t) : list rd_kafka_group_member_t :=
  match l with
  | [] => []
  | x :: l' => qsort_insert cmp x (qsort cmp l')
  end.

(** *** Replica grouper (lines 78-103) *)

(** The body of the loop of line 86, at index [i]. *)
Definition group_step (ms : list rd_kafka_group_member_t) (i : Z) (g : grouping)
    : outcome grouping :=
  let* a := arr_get ms i in
  let* b := arr_get ms (i + 1) in
  let status := rd_kafka_str_member_is_replicate (rkgm_member_id a) (rkgm_member_id b) in
  match status with
  | 0 =>
      let* dc := vla_write (different_consumers g) (recount_member g)
                   (resorted_member_lists_pos g) in
      let* rml := vla_write (resorted_member_lists g) (resorted_member_lists_pos g) i in
      Ok {| different_consumers := dc;
            recount_member := recount_member g + 1;
            resorted_member_lists := rml;
            resorted_member_lists_pos := resorted_member_lists_pos g + 1 |}
  | 1 =>
      let* rml := vla_write (resorted_member_lists g) (resorted_member_lists_pos g) i in
      Ok {| different_consumers := different_consumers g;
            recount_member := recount_member g;
            resorted_member_lists := rml;
            resorted_member_lists_pos := resorted_member_lists_pos g + 1 |}
  | _ => Ok g
  end.

(** Lines 78-103: the declarations, the loop over adjacent pairs and the
    two stores that close the last group. *)
Definition group_members (ms : list rd_kafka_group_member_t) (member_cnt : Z)
    : outcome grouping :=
  let* dc0 := vla_write (vla_new (member_cnt + 1)) 0 (-1) in
  let g0 := {| different_consumers := dc0;
               recount_member := 1;
               resorted_member_lists := vla_new (member_cnt + 1);
               resorted_member_lists_pos := 0 |} in
  let* g := for_loop (group_step ms) (Z.to_nat (member_cnt - 1)) 0 g0 in
  let* dc := vla_write (different_consumers g) (recount_member g)
               (resorted_member_lists_pos g) in
  let* rml := vla_write (resorted_member_lists g) (resorted_member_lists_pos g)
                (member_cnt - 1) in
  Ok {| different_consumers := dc;
        recount_member := recount_member g;
        resorted_member_lists := rml;
        resorted_member_lists_pos := resorted_member_lists_pos g + 1 |}.

(** The body of the loop of line 113. *)
Definition size_step (g : grouping) (group_id : Z) (sizes : vla) : outcome vla :=
  let* hi := vla_read (different_consumers g) (group_id + 1) in
  let* lo := vla_read (different_consumers g) group_id in
  vla_write sizes group_id (hi - lo).

(** Lines 112-116: [sizeof_member_group]. *)
Definition group_sizes (g : grouping) : outcome vla :=
  for_loop (size_step g) (Z.to_nat (recount_member g)) 0 (vla_new (recount_member g)).

(** *** Double round-robin distributor (lines 125-146) *)

(** The body of the loop of line 125, for one [partition]. *)
Definition assign_step (g : grouping) (sizeof_member_group : vla)
    (t : rd_kafka_assignor_topic_t) (partition : Z) (d : distribution)
    : outcome distribution :=
  let* nxt := c_rem (next d + 1) (recount_member g) in
  let* cur := vla_read (next_in_member_group d) nxt in
  let* sz := vla_read sizeof_member_group nxt in
  let* cur' := c_rem (cur + 1) sz in
  let* nimg := vla_write (next_in_member_group d) nxt cur' in
  let* lo := vla_read (different_consumers g) nxt in
  let* k := vla_read nimg nxt in
  let* slot := vla_read (resorted_member_lists g) (lo + 1 + k) in
  let* rkgm := arr_get (dist_members d) slot in
  let* md := match metadata t with Some md => Ok md | None => Fault NullDeref end in
  let* ms' := arr_set (dist_members d) slot (member_add rkgm (topic md) partition) in
  Ok {| next := nxt; next_in_member_group := nimg; dist_members := ms' |}.

(** The body of the loop over the eligible topics (lines 68-146). *)
Definition assign_topic (ms : list rd_kafka_group_member_t)
    (t : rd_kafka_assignor_topic_t) : outcome (list rd_kafka_group_member_t) :=
  let ms := qsort rd_kafka_group_member_cmp ms in
  let member_cnt := rd_list_cnt (members t) in
  let* g := group_members ms member_cnt in
  let* sizeof_member_group := group_sizes g in
  let d0 := {| next := -1;
               next_in_member_group := vla_memset_minus1 (vla_new (recount_member g));
               dist_members := ms |} in
  let* md := match metadata t with Some md => Ok md | None => Fault NullDeref end in
  let* d := for_loop (assign_step g sizeof_member_group t)
              (Z.to_nat (partition_cnt md)) 0 d0 in
  Ok (dist_members d).

(** The loop of line 66 over [eligible_topics]. *)
Fixpoint assign_topics (ms : list rd_kafka_group_member_t)
    (eligible_topics : list rd_kafka_assignor_topic_t)
    : outcome (list rd_kafka_group_member_t) :=
  match eligible_topics with
  | [] => Ok ms
  | t :: rest => let* ms' := assign_topic ms t in assign_topics ms' rest
  end.

(** The entry point.  [errstr] is never stored to and line 148 returns 0. *)
Definition rd_kafka_doubleroundrobin_assignor_assign_cb
    (ms : list rd_kafka_group_member_t)
    (eligible_topics : list rd_kafka_assignor_topic_t)
    (errstr : string) : outcome assign_result :=
  let* ms' := assign_topics ms eligible_topics in
  Ok {| res_err := 0; res_members := ms'; res_errstr := errstr |}.

End Assignor.

(** ** Concrete capabilities for the scenarios *)

(** Byte-wise lexicographic comparison of identifiers. *)
Definition str_cmp (a b : string) : Z :=
  match String.compare a b with
  | Lt => -1
  | Eq => 0
  | Gt => 1
  end.

(** The classification of Scenario B: A-1 and A-2 are replicas of one
    consumer, every other pair is distinct. *)
Definition scenario_b_classify (a b : string) : Z :=
  if bool_decide (a = "A-1"%string /\ b = "A-2"%string) then 1 else 0.

Definition mk_member (id : string) (subs : list string) : rd_kafka_group_member_t :=
  {| rkgm_member_id := id; rkgm_subscription := subs; rkgm_assignment := [] |}.

Definition mk_topic (name : string) (cnt : Z) (elig : list nat) : rd_kafka_assignor_topic_t :=
  {| metadata := Some {| topic := name; partition_cnt := cnt |}; members := elig |}.


(** The members and the topic of Scenario B. *)
Definition scenario_b_members : list rd_kafka_group_member_t :=
  [mk_member "A-1" ["t"]; mk_member "A-2" ["t"]; mk_member "B-1" ["t"]]%string.

Definition scenario_b_metadata : rd_kafka_metadata_topic_t :=
  {| topic := "t"; partition_cnt := 4 |}.

Definition scenario_b_topic : rd_kafka_assignor_topic_t :=
  {| metadata := Some scenario_b_metadata; members := [0; 1; 2]%nat |}.

(** A classification under which no two members are replicas. *)
Definition classify_distinct (a b : string) : Z := 0.

(** Two members with different subscriptions: only B subscribes to "t",
    so B (slot 1) is the one eligible member of "t". *)
Definition two_subscriptions_members : list rd_kafka_group_member_t :=
  [mk_member "A" ["u"]; mk_member "B" ["t"]]%string.

Definition two_subscriptions_topics : list rd_kafka_assignor_topic_t :=
  [mk_topic "t" 1 [1%nat]].

(** One member; a topic with one partition that nobody is eligible for. *)
Definition nobody_eligible_members : list rd_kafka_group_member_t :=
  [mk_member "C0" []].

Definition nobody_eligible_topics : list rd_kafka_assignor_topic_t :=
  [mk_topic "t" 1 []].

(** One member and two topics, the second without metadata, or with a
    partition count that no topic can have. *)
Definition one_member : list rd_kafka_group_member_t :=
  [mk_member "C0" ["t0"; "t1"]]%string.

Definition topics_missing_metadata : list rd_kafka_assignor_topic_t :=
  [mk_topic "t0" 1 [0%nat]; {| metadata := None; members := [0%nat] |}].

Definition topics_malformed_metadata : list rd_kafka_assignor_topic_t :=
  [mk_topic "t0" 1 [0%nat]; mk_topic "t1" (-1) [0%nat]].

(** A member array that the caller passes out of order, and a topic
    without partitions. *)
Definition unsorted_members : list rd_kafka_group_member_t :=
  [mk_member "B" ["t"]; mk_member "A" ["t"]]%string.

Definition empty_topic : list rd_kafka_assignor_topic_t :=
  [mk_topic "t" 0 [0; 1]%nat].

Definition three_partition_topic : list rd_kafka_assignor_topic_t :=
  [mk_topic "t" 3 [0; 1]%nat].

(** Two consumers without replicas and two topics of three partitions. *)
Definition scenario_a_members : list rd_kafka_group_member_t :=
  [mk_member "C0" ["t0"; "t1"]; mk_member "C1" ["t0"; "t1"]]%string.

Definition scenario_a_topics : list rd_kafka_assignor_topic_t :=
  [mk_topic "t0" 3 [0; 1]%nat; mk_topic "t1" 3 [0; 1]%nat].

(** ** Reading the grouper's result

    The decoding of lines 107-111 and 130-133: group [group_id] owns the
    cells [different_consumers[group_id] + 1 .. different_consumers[group_id + 1]]
    of [resorted_member_lists]. *)

(** The value of a cell, 0 where the load would fault. *)
Definition vla_val (a : vla) (i : Z) : Z :=
  match vla_read a i with
  | Ok v => v
  | Fault _ => 0
  end.

Definition group_size (g : grouping) (group_id : Z) : Z :=
  vla_val (different_consumers g) (group_id + 1) - vla_val (different_consumers g) group_id.

(** The member slot at position [k] of group [group_id] (the index
    expression of line 134). *)
Definition group_slot (g : grouping) (group_id k : Z) : Z :=
  vla_val (resorted_member_lists g) (vla_val (different_consumers g) group_id + 1 + k).

Definition group_slots (g : grouping) (group_id : Z) : list Z :=
  group_slot g group_id <$> seqZ 0 (group_size g group_id).

Definition groups_of (g : grouping) : list (list Z) :=
  group_slots g <$> seqZ 0 (recount_member g).

(** The member slot that receives partition [p]: group [p mod G], and
    inside it the position given by the number of earlier visits. *)
Definition owner (g : grouping) (p : Z) : Z :=
  let group_id := p mod recount_member g in
  group_slot g group_id ((p / recount_member g) mod group_size g group_id).

(** The entries a slot receives when partitions [0 .. P-1] of topic
    [name] are handed out by [own], in increasing partition order. *)
Definition new_entries (name : string) (own : Z -> Z) (P : Z) (slot : Z)
    : list rd_kafka_topic_partition_t :=
  (fun p => (name, p)) <$> filter (fun p => own p = slot) (seqZ 0 P).

Definition member_extend (m : rd_kafka_group_member_t)
    (l : list rd_kafka_topic_partition_t) : rd_kafka_group_member_t :=
  {| rkgm_member_id := rkgm_member_id m;
     rkgm_subscription := rkgm_subscription m;
     rkgm_assignment := rkgm_assignment m ++ l |}.

(** The member array after every slot has received its entries. *)
Definition deal (ms : list rd_kafka_group_member_t) (name : string)
    (own : Z -> Z) (P : Z) : list rd_kafka_group_member_t :=
  imap (fun j m => member_extend m (new_entries name own P (Z.of_nat j))) ms.

(** How many entries the slot gained between two states of the array. *)
Definition assigned_cnt (before after : list rd_kafka_group_member_t) (slot : Z) : Z :=
  match arr_get before slot, arr_get after slot with
  | Ok m, Ok m' =>
      Z.of_nat (length (rkgm_assignment m')) - Z.of_nat (length (rkgm_assignment m))
  | _, _ => 0
  end.

Definition sumZ (l : list Z) : Z := foldr Z.add 0 l.

(** How many entries the members of a group gained together. *)
Definition group_assigned (before after : list rd_kafka_group_member_t)
    (g : grouping) (group_id : Z) : Z :=
  sumZ (assigned_cnt before after <$> group_slots g group_id).

(** The number of [p] in [0 .. P-1] that satisfy [pred]. *)
Fixpoint count_below (pred : Z -> bool) (P : nat) : Z :=
  match P with
  | O => 0
  | S P' => count_below pred P' + (if pred (Z.of_nat P') then 1 else 0)
  end.

(** Round robin over [S] places: how often place [k] is served by [c]
    consecutive turns that start at place 0. *)
Definition rr_share (S c k : Z) : Z :=
  c / S + (if k <? c mod S then 1 else 0).

(** The written prefix [l] of a variable-length array of capacity [cap]. *)
Definition vla_of (cap : Z) (l : list Z) : vla :=
  (Some <$> l) ++ replicate (Z.to_nat cap - length l)%nat None.

(** Differences of neighbours: the group sizes of a boundary list. *)
Fixpoint diffs (l : list Z) : list Z :=
  match l with
  | a :: l' => match l' with
               | b :: _ => (b - a) :: diffs l'
               | [] => []
               end
  | [] => []
  end.

(** A list of integers that grows strictly from left to right. *)
Definition increasing (l : list Z) : Prop :=
  forall (i j : nat) (a b : Z),
    (i < j)%nat -> l !! i = Some a -> l !! j = Some b -> a < b.

(** The state of the grouper before the iteration at index [i], over the
    written prefixes [dcl] of [different_consumers] and [rl] of
    [resorted_member_lists]. *)
Record group_inv (n i : Z) (g : grouping) (dcl rl : list Z) : Prop := {
  gi_dc : different_consumers g = vla_of (n + 1) dcl;
  gi_recount : recount_member g = Z.of_nat (length dcl);
  gi_rml : resorted_member_lists g = vla_of (n + 1) rl;
  gi_pos : resorted_member_lists_pos g = Z.of_nat (length rl);
  gi_dcl_len : 1 <= Z.of_nat (length dcl) <= i + 1;
  gi_rl_len : Z.of_nat (length rl) <= i;
  gi_dcl_head : dcl !! 0%nat = Some (-1);
  gi_dcl_incr : increasing dcl;
  gi_dcl_bound : forall x, x ∈ dcl -> x < Z.of_nat (length rl);
  gi_rl_incr : increasing rl;
  gi_rl_bound : forall x, x ∈ rl -> 0 <= x < i
}.

(** The grouper's result for [n] members: boundaries [dcl] and retained
    slots [rl]. *)
Record grouping_ok (n : Z) (g : grouping) (dcl rl : list Z) : Prop := {
  go_dc : different_consumers g = vla_of (n + 1) dcl;
  go_rml : resorted_member_lists g = vla_of (n + 1) rl;
  go_recount : recount_member g = Z.of_nat (length dcl) - 1;
  go_pos : resorted_member_lists_pos g = Z.of_nat (length rl);
  go_groups : 1 <= recount_member g <= n;
  go_rl_len : 1 <= Z.of_nat (length rl) <= n;
  go_dcl_head : dcl !! 0%nat = Some (-1);
  go_dcl_last : dcl !! Z.to_nat (recount_member g) = Some (Z.of_nat (length rl) - 1);
  go_dcl_incr : increasing dcl;
  go_rl_incr : increasing rl;
  go_rl_bound : forall x, x ∈ rl -> 0 <= x < n;
  go_rl_last : rl !! (length rl - 1)%nat = Some (n - 1)
}.

(** The state of the distribution loop before the iteration for
    partition [p] of topic [name], [ms] being the array it started from. *)
Record dist_inv (g : grouping) (ms : list rd_kafka_group_member_t) (name : string)
    (p : Z) (d : distribution) (cur : list Z) : Prop := {
  di_next : -1 <= next d < recount_member g;
  di_next_mod : (next d + 1) mod recount_member g = p mod recount_member g;
  di_cursors : next_in_member_group d = Some <$> cur;
  di_cursors_len : Z.of_nat (length cur) = recount_member g;
  di_cursor : forall group_id c,
    0 <= group_id < recount_member g ->
    cur !! Z.to_nat group_id = Some c ->
    -1 <= c < group_size g group_id /\
    (c + 1) mod group_size g group_id
      = rr_share (recount_member g) p group_id mod group_size g group_id;
  di_members : dist_members d = deal ms name (owner g) p
}.

(** The array is ordered by member id. *)
Definition ids_sorted (id_cmp : string -> string -> Z)
    (ms : list rd_kafka_group_member_t) : Prop :=
  Sorted (fun a b => id_cmp a b <= 0) (rkgm_member_id <$> ms).

(** What a caller guarantees about a processed topic: its metadata is
    there, and its eligible members are at least one and no more than the
    member array holds. *)
Definition topic_ok (member_cnt : nat) (t : rd_kafka_assignor_topic_t) : Prop :=
  is_Some (metadata t) /\ (1 <= length (members t) <= member_cnt)%nat.

(** The second array holds the members of the first, slot by slot, each
    with entries appended to its assignment list and nothing else changed. *)
Definition extends (before after : list rd_kafka_group_member_t) : Prop :=
  Forall2 (fun m m' =>
             rkgm_member_id m' = rkgm_member_id m /\
             rkgm_subscription m' = rkgm_subscription m /\
             exists ext, rkgm_assignment m' = rkgm_assignment m ++ ext)
          before after.

(** Every two neighbours of the list of ids are classified Distinct. *)
Definition all_distinct (classify : string -> string -> Z) (ids : list string) : Prop :=
  forall (i : nat) (a b : string),
    ids !! i = Some a -> ids !! S i = Some b -> classify a b = 0.

(** *** Round robin over the first slots of an array

    Partition p is appended to the member in slot p mod n of the array,
    n being the topic's eligible count.  The slots are the first n of
    the array whoever is eligible; round robin over the topic's eligible
    members is [plain_round_robin_entries]. *)
Fixpoint plain_round_robin_partitions (name : string) (n : Z) (count : nat) (p : Z)
    (sorted : list rd_kafka_group_member_t) : list rd_kafka_group_member_t :=
  match count with
  | O => sorted
  | S c =>
      plain_round_robin_partitions name n c (p + 1)
        (alter (fun m => member_add m name p) (Z.to_nat (p mod n)) sorted)
  end.

Definition plain_round_robin_topic (sorted : list rd_kafka_group_member_t)
    (t : rd_kafka_assignor_topic_t) : list rd_kafka_group_member_t :=
  match metadata t with
  | Some md =>
      plain_round_robin_partitions (topic md) (rd_list_cnt (members t))
        (Z.to_nat (partition_cnt md)) 0 sorted
  | None => sorted
  end.

(** *** Plain round robin, as the specification words it

    "Plain lexicographic round robin over members": for each topic, its
    eligible members are laid out in the order of their ids, and
    "partition p of a topic with n members goes to the member at sorted
    position p mod n".  Nothing here is taken from the code: the order is
    a merge sort of the ids, and a member's entries are written out as a
    list. *)

(** The ids of the topic's eligible members; its list holds pointers to
    slots of the caller's array. *)
Definition eligible_ids (ms : list rd_kafka_group_member_t)
    (t : rd_kafka_assignor_topic_t) : list string :=
  (fun i => match ms !! i with
            | Some m => rkgm_member_id m
            | None => ""
            end) <$> members t.

Definition sorted_eligible_ids (id_cmp : string -> string -> Z)
    (ms : list rd_kafka_group_member_t) (t : rd_kafka_assignor_topic_t) : list string :=
  merge_sort (fun a b => id_cmp a b <= 0) (H := fun a b => Z.le_dec (id_cmp a b) 0)
    (eligible_ids ms t).

(** The entries of topic [t] that plain round robin gives to the member
    [id], in increasing partition order. *)
Definition plain_round_robin_entries (id_cmp : string -> string -> Z)
    (ms : list rd_kafka_group_member_t) (t : rd_kafka_assignor_topic_t) (id : string)
    : list rd_kafka_topic_partition_t :=
  match metadata t with
  | Some md =>
      (fun p => (topic md, p)) <$>
        filter (fun p =>
                  sorted_eligible_ids id_cmp ms t
                    !! Z.to_nat (p mod Z.of_nat (length (eligible_ids ms t)))
                  = Some id)
          (seqZ 0 (partition_cnt md))
  | None => []
  end.

(** The entries of all the topics, topic after topic. *)
Definition plain_round_robin_assignment (id_cmp : string -> string -> Z)
    (ms : list rd_kafka_group_member_t) (topics : list rd_kafka_assignor_topic_t)
    (id : string) : list rd_kafka_topic_partition_t :=
  flat_map (fun t => plain_round_robin_entries id_cmp ms t id) topics.

(** The array that came back holds the caller's members, in some order,
    each with its plain round-robin entries appended to its list. *)
Definition is_plain_round_robin (id_cmp : string -> string -> Z)
    (ms : list rd_kafka_group_member_t) (topics : list rd_kafka_assignor_topic_t)
    (r : assign_result) : Prop :=
  res_members r
  ≡ₚ (fun m =>
        {| rkgm_member_id := rkgm_member_id m;
           rkgm_subscription := rkgm_subscription m;
           rkgm_assignment :=
             rkgm_assignment m
               ++ plain_round_robin_assignment id_cmp ms topics (rkgm_member_id m) |})
       <$> ms.

(** The call came back with an error code and a message in the caller's
    buffer, and left the member array as it was. *)
Definition error_reported (o : outcome assign_result)
    (ms : list rd_kafka_group_member_t) (errstr : string) : Prop :=
  exists r, o = Ok r /\ res_err r <> 0 /\ res_errstr r <> errstr /\ res_members r = ms.

(** The grouping of [n] members that are pairwise distinct: group
    [i] is the member in slot [i] alone. *)
Definition singleton_grouping (n : Z) : grouping :=
  {| different_consumers := vla_of (n + 1) (seqZ (-1) (n + 1));
     recount_member := n;
     resorted_member_lists := vla_of (n + 1) (seqZ 0 n);
     resorted_member_lists_pos := n |}.

(** ** The grouper as a function of the classifications *)

(** The classification of slot [i] against its successor (line 88); 2
    where the array has no such pair. *)
Definition pair_status (classify : string -> string -> Z)
    (ms : list rd_kafka_group_member_t) (i : nat) : Z :=
  match ms !! i, ms !! S i with
  | Some a, Some b => classify (rkgm_member_id a) (rkgm_member_id b)
  | _, _ => 2
  end.

(** The switch of line 89 stores slot [i] under the cases 0 and 1 only. *)
Definition status_retains (status : Z) : bool :=
  (status =? 0) || (status =? 1).

(** The slots that the loop of line 86 has retained before index [i]. *)
Fixpoint retained_before (classify : string -> string -> Z)
    (ms : list rd_kafka_group_member_t) (i : nat) : list Z :=
  match i with
  | O => []
  | S j =>
      retained_before classify ms j
        ++ (if status_retains (pair_status classify ms j) then [Z.of_nat j] else [])
  end.

(** The boundaries that the loop of line 86 has stored before index [i]. *)
Fixpoint boundaries_before (classify : string -> string -> Z)
    (ms : list rd_kafka_group_member_t) (i : nat) : list Z :=
  match i with
  | O => [-1]
  | S j =>
      boundaries_before classify ms j
        ++ (if pair_status classify ms j =? 0
            then [Z.of_nat (length (retained_before classify ms j))] else [])
  end.

(** The locals of the grouper before the iteration at index [i]. *)
Definition grouping_before (classify : string -> string -> Z)
    (ms : list rd_kafka_group_member_t) (n : Z) (i : nat) : grouping :=
  {| different_consumers := vla_of (n + 1) (boundaries_before classify ms i);
     recount_member := Z.of_nat (length (boundaries_before classify ms i));
     resorted_member_lists := vla_of (n + 1) (retained_before classify ms i);
     resorted_member_lists_pos := Z.of_nat (length (retained_before classify ms i)) |}.

(** The locals of the grouper after line 103. *)
Definition grouping_of (classify : string -> string -> Z)
    (ms : list rd_kafka_group_member_t) (n : Z) : grouping :=
  {| different_consumers :=
       vla_of (n + 1)
         (boundaries_before classify ms (Z.to_nat (n - 1))
            ++ [Z.of_nat (length (retained_before classify ms (Z.to_nat (n - 1))))]);
     recount_member := Z.of_nat (length (boundaries_before classify ms (Z.to_nat (n - 1))));
     resorted_member_lists :=
       vla_of (n + 1) (retained_before classify ms (Z.to_nat (n - 1)) ++ [n - 1]);
     resorted_member_lists_pos :=
       Z.of_nat (length (retained_before classify ms (Z.to_nat (n - 1)))) + 1 |}.

(** ** The pass as a function of its topics *)

(** The name and the partition count of a topic (of no use without
    metadata). *)
Definition topic_name (t : rd_kafka_assignor_topic_t) : string :=
  match metadata t with
  | Some md => topic md
  | None => ""
  end.

Definition topic_partitions (t : rd_kafka_assignor_topic_t) : Z :=
  match metadata t with
  | Some md => partition_cnt md
  | None => 0
  end.

(** The slot that gets partition [p] of topic [t] when the grouper runs
    on the array [ms]. *)
Definition topic_owner (classify : string -> string -> Z)
    (ms : list rd_kafka_group_member_t) (t : rd_kafka_assignor_topic_t) (p : Z) : Z :=
  match group_members classify ms (rd_list_cnt (members t)) with
  | Ok g => owner g p
  | Fault _ => 0
  end.

(** The entries of topic [t] for a slot, and those of a list of topics,
    topic after topic. *)
Definition topic_entries (classify : string -> string -> Z)
    (ms : list rd_kafka_group_member_t) (t : rd_kafka_assignor_topic_t) (slot : Z)
    : list rd_kafka_topic_partition_t :=
  new_entries (topic_name t) (topic_owner classify ms t) (topic_partitions t) slot.

Definition pass_entries (classify : string -> string -> Z)
    (ms : list rd_kafka_group_member_t) (topics : list rd_kafka_assignor_topic_t)
    (slot : Z) : list rd_kafka_topic_partition_t :=
  flat_map (fun t => topic_entries classify ms t slot) topics.

(** The array [base] after every slot has received its entries of all
    the topics, the groups being those of the array [grouped]. *)
Definition deal_pass (classify : string -> string -> Z)
    (grouped base : list rd_kafka_group_member_t)
    (topics : list rd_kafka_assignor_topic_t) : list rd_kafka_group_member_t :=
  imap (fun j m => member_extend m (pass_entries classify grouped topics (Z.of_nat j))) base.

(** Every two neighbours of the list of ids are classified SameGroup. *)
Definition all_same_group (classify : string -> string -> Z) (ids : list string) : Prop :=
  forall (i : nat) (a b : string),
    ids !! i = Some a -> ids !! S i = Some b -> classify a b = 1.

(** A classification under which all members are replicas of one consumer. *)
Definition classify_same_group (a b : string) : Z := 1.

(** The grouping of [n] members that are all replicas of one consumer:
    one group that holds the slots 0 .. n-1. *)
Definition single_group_grouping (n : Z) : grouping :=
  {| different_consumers := vla_of (n + 1) [-1; n - 1];
     recount_member := 1;
     resorted_member_lists := vla_of (n + 1) (seqZ 0 n);
     resorted_member_lists_pos := n |}.

(** What slot [slot] gets of a topic under plain round robin over the
    topic's [n] first slots. *)
Definition plain_share (t : rd_kafka_assignor_topic_t) (slot : Z) : Z :=
  if slot <? rd_list_cnt (members t)
  then rr_share (rd_list_cnt (members t)) (Z.max 0 (topic_partitions t)) slot
  else 0.

(** Every member of the array is eligible for the topic: its list points
    to every slot once. *)
Definition all_eligible (ms : list rd_kafka_group_member_t)
    (t : rd_kafka_assignor_topic_t) : Prop :=
  is_Some (metadata t) /\ members t ≡ₚ seq 0 (length ms).

(** ** Loops and arrays *)

(** The invariant rule of [for_loop]. *)
Lemma for_loop_inv {S : Type} (I : Z -> S -> Prop) (body : Z -> S -> outcome S) :
  forall (count : nat) (a : Z) (s : S),
    I a s ->
    (forall i s0, a <= i < a + Z.of_nat count -> I i s0 ->
       exists s1, body i s0 = Ok s1 /\ I (i + 1) s1) ->
    exists s', for_loop body count a s = Ok s' /\ I (a + Z.of_nat count) s'.
Proof.
  induction count as [|c IH]; intros a s Ha Hstep; simpl.
  - exists s. split; [reflexivity|]. replace (a + Z.of_nat 0) with a by lia. exact Ha.
  - destruct (Hstep a s) as (s1 & Hb & H1); [lia|exact Ha|].
    rewrite Hb. simpl.
    destruct (IH (a + 1) s1 H1) as (s' & Hl & H').
    { intros i s0 Hi. apply Hstep. lia. }
    exists s'. split; [exact Hl|].
    replace (a + Z.of_nat (Datatypes.S c)) with (a + 1 + Z.of_nat c) by lia. exact H'.
Qed.

Lemma arr_get_ok {A : Type} (a : list A) (i : Z) (x : A) :
  0 <= i -> a !! Z.to_nat i = Some x -> arr_get a i = Ok x.
Proof.
  intros Hi Hx. unfold arr_get.
  destruct (Z.ltb_spec i 0); [lia|]. rewrite Hx. reflexivity.
Qed.

Lemma arr_set_ok {A : Type} (a : list A) (i : Z) (x : A) :
  0 <= i < Z.of_nat (length a) -> arr_set a i x = Ok (<[Z.to_nat i := x]> a).
Proof.
  intros Hi. unfold arr_set.
  destruct (Z.ltb_spec i 0); [lia|].
  destruct (Z.leb_spec (Z.of_nat (length a)) i); [lia|]. reflexivity.
Qed.

Lemma c_rem_ok (a b : Z) :
  0 <= a -> 0 < b -> c_rem a b = Ok (a mod b).
Proof.
  intros Ha Hb. unfold c_rem.
  destruct (Z.eqb_spec b 0); [lia|].
  rewrite Z.rem_mod_nonneg by lia. reflexivity.
Qed.

Lemma vla_of_length (cap : Z) (l : list Z) :
  Z.of_nat (length l) <= cap -> length (vla_of cap l) = Z.to_nat cap.
Proof.
  intros H. unfold vla_of. rewrite length_app, length_fmap, length_replicate. lia.
Qed.

Lemma vla_new_of (cap : Z) : vla_new cap = vla_of cap [].
Proof. unfold vla_new, vla_of. simpl. f_equal. lia. Qed.

Lemma vla_of_full (l : list Z) : vla_of (Z.of_nat (length l)) l = Some <$> l.
Proof.
  unfold vla_of. replace (Z.to_nat (Z.of_nat (length l)) - length l)%nat with 0%nat by lia.
  simpl. apply app_nil_r.
Qed.

(** A store at the fill position extends the written prefix. *)
Lemma vla_write_push (cap : Z) (l : list Z) (v : Z) :
  Z.of_nat (length l) < cap ->
  vla_write (vla_of cap l) (Z.of_nat (length l)) v = Ok (vla_of cap (l ++ [v])).
Proof.
  intros H. unfold vla_write. rewrite arr_set_ok.
  2:{ rewrite vla_of_length by lia. lia. }
  f_equal. unfold vla_of. rewrite Nat2Z.id.
  rewrite insert_app_r_alt by (rewrite length_fmap; lia).
  rewrite length_fmap, Nat.sub_diag.
  destruct (Z.to_nat cap - length l)%nat as [|r] eqn:E; [lia|].
  simpl. rewrite fmap_app, <- app_assoc. simpl.
  do 3 f_equal. rewrite length_app. simpl. lia.
Qed.

Lemma vla_write_at_fill (cap : Z) (l : list Z) (i v : Z) :
  i = Z.of_nat (length l) -> i < cap ->
  vla_write (vla_of cap l) i v = Ok (vla_of cap (l ++ [v])).
Proof. intros -> H. apply vla_write_push. assumption. Qed.

Lemma vla_read_of (cap : Z) (l : list Z) (i v : Z) :
  0 <= i -> l !! Z.to_nat i = Some v -> vla_read (vla_of cap l) i = Ok v.
Proof.
  intros Hi Hl. unfold vla_read.
  rewrite (arr_get_ok _ _ (Some v)); [reflexivity|exact Hi|].
  unfold vla_of. rewrite lookup_app_l.
  - rewrite list_lookup_fmap, Hl. reflexivity.
  - rewrite length_fmap. eapply lookup_lt_Some. exact Hl.
Qed.

Lemma vla_val_of (cap : Z) (l : list Z) (i v : Z) :
  0 <= i -> l !! Z.to_nat i = Some v -> vla_val (vla_of cap l) i = v.
Proof. intros Hi Hl. unfold vla_val. rewrite (vla_read_of _ _ _ v); done. Qed.

Lemma vla_read_full (l : list Z) (i v : Z) :
  0 <= i -> l !! Z.to_nat i = Some v -> vla_read (Some <$> l) i = Ok v.
Proof. intros Hi Hl. rewrite <- vla_of_full. apply vla_read_of; assumption. Qed.

Lemma vla_write_full (l : list Z) (i v : Z) :
  0 <= i < Z.of_nat (length l) ->
  vla_write (Some <$> l) i v = Ok (Some <$> <[Z.to_nat i := v]> l).
Proof.
  intros Hi. unfold vla_write. rewrite arr_set_ok by (rewrite length_fmap; lia).
  f_equal. rewrite list_fmap_insert. reflexivity.
Qed.

(** ** The replica grouper *)

Lemma increasing_snoc (l : list Z) (v : Z) :
  increasing l -> (forall x, x ∈ l -> x < v) -> increasing (l ++ [v]).
Proof.
  intros Hl Hv i j a b Hij Ha Hb.
  destruct (decide (j < length l)%nat) as [Hj|Hj].
  - rewrite lookup_app_l in Ha by lia. rewrite lookup_app_l in Hb by lia.
    exact (Hl i j a b Hij Ha Hb).
  - assert (j = length l) as ->.
    { apply lookup_lt_Some in Hb. rewrite length_app in Hb. simpl in Hb. lia. }
    rewrite lookup_app_l in Ha by lia.
    rewrite lookup_app_r in Hb by lia. rewrite Nat.sub_diag in Hb.
    injection Hb as <-. apply Hv. eapply list_elem_of_lookup_2. exact Ha.
Qed.

Lemma increasing_bounded_last (l : list Z) (j : nat) (x top : Z) :
  increasing l -> l !! (length l - 1)%nat = Some top -> l !! j = Some x -> x <= top.
Proof.
  intros Hl Htop Hx.
  assert (j < length l)%nat by (eapply lookup_lt_Some; exact Hx).
  destruct (decide (j = length l - 1)%nat) as [->|Hne].
  - rewrite Htop in Hx. injection Hx as ->. lia.
  - assert (x < top); [|lia]. eapply (Hl j (length l - 1)%nat); [lia|exact Hx|exact Htop].
Qed.

Section Grouper.

Variable classify : string -> string -> Z.

Lemma group_inv_init (n : Z) :
  1 <= n ->
  exists dc0, vla_write (vla_new (n + 1)) 0 (-1) = Ok dc0 /\
    group_inv n 0 {| different_consumers := dc0; recount_member := 1;
                     resorted_member_lists := vla_new (n + 1);
                     resorted_member_lists_pos := 0 |} [-1] [].
Proof.
  intros Hn. exists (vla_of (n + 1) [-1]). split.
  - rewrite vla_new_of. apply (vla_write_push (n + 1) [] (-1)). simpl. lia.
  - constructor; simpl; try reflexivity; try lia.
    + apply vla_new_of.
    + intros i j a b Hij Ha Hb. destruct j; [lia|]. discriminate.
    + intros x Hx. apply list_elem_of_singleton in Hx. lia.
    + intros i j a b _ Ha. discriminate.
    + intros x Hx. inversion Hx.
Qed.

Lemma group_inv_retain (n i : Z) (g : grouping) (dcl rl : list Z) :
  0 <= i < n - 1 ->
  group_inv n i g dcl rl ->
  exists rml, vla_write (resorted_member_lists g) (resorted_member_lists_pos g) i = Ok rml /\
    rml = vla_of (n + 1) (rl ++ [i]) /\
    increasing (rl ++ [i]) /\ (forall x, x ∈ rl ++ [i] -> 0 <= x < i + 1).
Proof.
  intros Hi [].
  exists (vla_of (n + 1) (rl ++ [i])). repeat split.
  - rewrite gi_rml0, gi_pos0. apply vla_write_push. lia.
  - apply increasing_snoc; [assumption|]. intros x Hx. apply gi_rl_bound0 in Hx. lia.
  - apply elem_of_app in H as [H|H]; [apply gi_rl_bound0 in H; lia|].
    apply list_elem_of_singleton in H. lia.
  - apply elem_of_app in H as [H|H]; [apply gi_rl_bound0 in H; lia|].
    apply list_elem_of_singleton in H. lia.
Qed.

Lemma group_step_inv (n : Z) (ms : list rd_kafka_group_member_t) (i : Z)
    (g : grouping) (dcl rl : list Z) :
  n <= Z.of_nat (length ms) ->
  0 <= i < n - 1 ->
  group_inv n i g dcl rl ->
  exists g' dcl' rl', group_step classify ms i g = Ok g' /\ group_inv n (i + 1) g' dcl' rl'.
Proof.
  intros Hn Hi Hinv.
  destruct (lookup_lt_is_Some_2 ms (Z.to_nat i)) as [a Ha]; [lia|].
  destruct (lookup_lt_is_Some_2 ms (Z.to_nat (i + 1))) as [b Hb]; [lia|].
  destruct (group_inv_retain n i g dcl rl Hi Hinv) as (rml & Hw & -> & Hincr & Hbound).
  unfold group_step.
  rewrite (arr_get_ok ms i a) by (lia || assumption). simpl.
  rewrite (arr_get_ok ms (i + 1) b) by (lia || assumption). simpl.
  destruct Hinv.
  destruct (classify (rkgm_member_id a) (rkgm_member_id b)) as [|[q|q|]|q].
  - (* Distinct *)
    rewrite Hw, gi_dc0, gi_recount0, gi_pos0.
    rewrite vla_write_push by lia. simpl.
    eexists _, (dcl ++ [Z.of_nat (length rl)]), (rl ++ [i]). split; [reflexivity|].
    constructor; simpl; try reflexivity; rewrite ?length_app; simpl; try lia.
    + destruct dcl; [discriminate|assumption].
    + apply increasing_snoc; assumption.
    + intros x Hx. apply elem_of_app in Hx as [Hx|Hx].
      * apply gi_dcl_bound0 in Hx. lia.
      * apply list_elem_of_singleton in Hx. lia.
    + assumption.
    + assumption.
  - (* a status the switch has no case for *)
    eexists g, dcl, rl. split; [reflexivity|].
    constructor; try assumption; try lia.
    intros x Hx. apply gi_rl_bound0 in Hx. lia.
  - eexists g, dcl, rl. split; [reflexivity|].
    constructor; try assumption; try lia.
    intros x Hx. apply gi_rl_bound0 in Hx. lia.
  - (* SameGroup *)
    rewrite Hw. simpl.
    eexists _, dcl, (rl ++ [i]). split; [reflexivity|].
    constructor; simpl; try reflexivity; try assumption; rewrite ?length_app; simpl; try lia.
    intros x Hx. apply gi_dcl_bound0 in Hx. lia.
  - eexists g, dcl, rl. split; [reflexivity|].
    constructor; try assumption; try lia.
    intros x Hx. apply gi_rl_bound0 in Hx. lia.
Qed.

Lemma group_loop_inv (n : Z) (ms : list rd_kafka_group_member_t) (g0 : grouping)
    (dcl0 rl0 : list Z) :
  n <= Z.of_nat (length ms) -> 1 <= n ->
  group_inv n 0 g0 dcl0 rl0 ->
  exists g dcl rl,
    for_loop (group_step classify ms) (Z.to_nat (n - 1)) 0 g0 = Ok g /\
    group_inv n (n - 1) g dcl rl.
Proof.
  intros Hlen Hn H0.
  destruct (for_loop_inv (fun i g => exists dcl rl, group_inv n i g dcl rl)
              (group_step classify ms) (Z.to_nat (n - 1)) 0 g0) as (g & Hg & dcl & rl & Hinv).
  - eauto.
  - intros i s0 Hi (dcl & rl & Hinv).
    destruct (group_step_inv n ms i s0 dcl rl) as (g' & dcl' & rl' & Hs & Hinv'); [lia|lia|assumption|].
    eauto.
  - exists g, dcl, rl. split; [assumption|].
    replace (0 + Z.of_nat (Z.to_nat (n - 1))) with (n - 1) in Hinv by lia. assumption.
Qed.

(** The grouper never faults on [n >= 1] members that the array holds,
    and its result is a well-formed grouping. *)
Lemma group_members_ok (n : Z) (ms : list rd_kafka_group_member_t) :
  1 <= n <= Z.of_nat (length ms) ->
  exists g dcl rl, group_members classify ms n = Ok g /\ grouping_ok n g dcl rl.
Proof.
  intros Hn. unfold group_members.
  destruct (group_inv_init n) as (dc0 & -> & H0); [lia|]. simpl.
  destruct (group_loop_inv n ms _ _ _ ltac:(lia) ltac:(lia) H0) as (g & dcl & rl & -> & Hinv).
  simpl. destruct Hinv.
  rewrite gi_dc0, gi_recount0, gi_pos0, gi_rml0.
  rewrite vla_write_push by lia. simpl.
  rewrite vla_write_push by lia. simpl.
  eexists _, (dcl ++ [Z.of_nat (length rl)]), (rl ++ [n - 1]). split; [reflexivity|].
  constructor; simpl; try reflexivity; rewrite ?length_app; simpl; try lia.
  - destruct dcl; [discriminate|assumption].
  - rewrite Nat2Z.id. rewrite lookup_app_r by lia.
    rewrite Nat.sub_diag. simpl. f_equal. lia.
  - apply increasing_snoc; assumption.
  - apply increasing_snoc; [assumption|]. intros x Hx. apply gi_rl_bound0 in Hx. lia.
  - intros x Hx. apply elem_of_app in Hx as [Hx|Hx].
    + apply gi_rl_bound0 in Hx. lia.
    + apply list_elem_of_singleton in Hx. lia.
  - rewrite lookup_app_r by lia.
    replace (length rl + 1 - 1 - length rl)%nat with 0%nat by lia. reflexivity.
Qed.

End Grouper.

(** ** Group boundaries, sizes and slots *)

Lemma diffs_length (l : list Z) : length (diffs l) = (length l - 1)%nat.
Proof.
  induction l as [|a [|b l] IH]; [reflexivity|reflexivity|].
  change (diffs (a :: b :: l)) with ((b - a) :: diffs (b :: l)).
  simpl length in *. rewrite IH. lia.
Qed.

Lemma diffs_lookup (l : list Z) (j : nat) (a b : Z) :
  l !! j = Some a -> l !! S j = Some b -> diffs l !! j = Some (b - a).
Proof.
  revert j. induction l as [|x [|y l] IH]; intros j Ha Hb; [discriminate|destruct j; discriminate|].
  change (diffs (x :: y :: l)) with ((y - x) :: diffs (y :: l)).
  destruct j as [|j].
  - simpl in Ha, Hb. injection Ha as ->. injection Hb as ->. reflexivity.
  - simpl. apply IH; assumption.
Qed.

Section GroupingFacts.

Variables (n : Z) (g : grouping) (dcl rl : list Z).
Hypothesis Hok : grouping_ok n g dcl rl.

Lemma grouping_ok_boundary (group_id : Z) :
  0 <= group_id <= recount_member g ->
  exists lo, dcl !! Z.to_nat group_id = Some lo /\
    -1 <= lo <= Z.of_nat (length rl) - 1 /\
    vla_read (different_consumers g) group_id = Ok lo /\
    vla_val (different_consumers g) group_id = lo.
Proof.
  intros Hg. destruct Hok.
  destruct (lookup_lt_is_Some_2 dcl (Z.to_nat group_id)) as [lo Hlo]; [lia|].
  exists lo. split; [assumption|]. split; [split|split].
  - destruct (decide (Z.to_nat group_id = 0%nat)) as [E|E].
    + rewrite E in Hlo. rewrite go_dcl_head0 in Hlo. injection Hlo as <-. lia.
    + assert (-1 < lo); [|lia].
      apply (go_dcl_incr0 0%nat (Z.to_nat group_id)); [lia|assumption|assumption].
  - destruct (decide (group_id = recount_member g)) as [E|E].
    + rewrite E in Hlo. rewrite go_dcl_last0 in Hlo. injection Hlo as <-. lia.
    + assert (lo < Z.of_nat (length rl) - 1); [|lia].
      apply (go_dcl_incr0 (Z.to_nat group_id) (Z.to_nat (recount_member g)));
        [lia|assumption|assumption].
  - rewrite go_dc0. apply vla_read_of; [lia|assumption].
  - rewrite go_dc0. apply vla_val_of; [lia|assumption].
Qed.

Lemma grouping_ok_size (group_id : Z) :
  0 <= group_id < recount_member g ->
  exists lo hi, dcl !! Z.to_nat group_id = Some lo /\
    dcl !! Z.to_nat (group_id + 1) = Some hi /\
    -1 <= lo < hi /\ hi <= Z.of_nat (length rl) - 1 /\
    group_size g group_id = hi - lo /\
    diffs dcl !! Z.to_nat group_id = Some (hi - lo).
Proof.
  intros Hg.
  destruct (grouping_ok_boundary group_id) as (lo & Hlo & Hlob & _ & Hlov); [lia|].
  destruct (grouping_ok_boundary (group_id + 1)) as (hi & Hhi & Hhib & _ & Hhiv); [lia|].
  exists lo, hi. repeat split; try assumption; try lia.
  - apply (go_dcl_incr _ _ _ _ Hok (Z.to_nat group_id) (Z.to_nat (group_id + 1)));
      [lia|assumption|assumption].
  - unfold group_size. rewrite Hlov, Hhiv. reflexivity.
  - apply diffs_lookup; [assumption|].
    replace (S (Z.to_nat group_id)) with (Z.to_nat (group_id + 1)) by lia. assumption.
Qed.

Lemma grouping_ok_size_pos (group_id : Z) :
  0 <= group_id < recount_member g -> 1 <= group_size g group_id.
Proof.
  intros Hg. destruct (grouping_ok_size group_id Hg) as (lo & hi & _ & _ & ? & _ & -> & _). lia.
Qed.

Lemma grouping_ok_slot (group_id k : Z) :
  0 <= group_id < recount_member g ->
  0 <= k < group_size g group_id ->
  exists slot,
    rl !! Z.to_nat (vla_val (different_consumers g) group_id + 1 + k) = Some slot /\
    0 <= vla_val (different_consumers g) group_id + 1 + k < Z.of_nat (length rl) /\
    0 <= slot < n /\
    vla_read (resorted_member_lists g)
      (vla_val (different_consumers g) group_id + 1 + k) = Ok slot /\
    group_slot g group_id k = slot.
Proof.
  intros Hg Hk.
  destruct (grouping_ok_size group_id Hg) as (lo & hi & Hlo & Hhi & Hlt & Hhib & Hsz & _).
  destruct (grouping_ok_boundary group_id) as (lo' & Hlo' & _ & _ & Hlov); [lia|].
  assert (lo' = lo) as -> by congruence.
  rewrite Hlov. rewrite Hsz in Hk.
  destruct (lookup_lt_is_Some_2 rl (Z.to_nat (lo + 1 + k))) as [slot Hslot]; [lia|].
  exists slot. split; [assumption|]. split; [lia|]. split; [|split].
  - eapply (go_rl_bound _ _ _ _ Hok). eapply list_elem_of_lookup_2. eassumption.
  - rewrite (go_rml _ _ _ _ Hok). apply vla_read_of; [lia|assumption].
  - unfold group_slot. rewrite Hlov, (go_rml _ _ _ _ Hok). apply vla_val_of; [lia|assumption].
Qed.

(** Two positions of the grouping hold the same slot only if they are the
    same position of the same group. *)
Lemma group_slot_inj (g1 k1 g2 k2 : Z) :
  0 <= g1 < recount_member g -> 0 <= k1 < group_size g g1 ->
  0 <= g2 < recount_member g -> 0 <= k2 < group_size g g2 ->
  group_slot g g1 k1 = group_slot g g2 k2 -> g1 = g2 /\ k1 = k2.
Proof.
  intros Hg1 Hk1 Hg2 Hk2 Heq.
  destruct (grouping_ok_slot g1 k1 Hg1 Hk1) as (s1 & Hs1 & Hb1 & _ & _ & E1).
  destruct (grouping_ok_slot g2 k2 Hg2 Hk2) as (s2 & Hs2 & Hb2 & _ & _ & E2).
  rewrite E1, E2 in Heq. subst s2.
  set (x1 := vla_val (different_consumers g) g1 + 1 + k1) in *.
  set (x2 := vla_val (different_consumers g) g2 + 1 + k2) in *.
  assert (x1 = x2) as Hx.
  { destruct (Z.lt_trichotomy x1 x2) as [H|[H|H]]; [|assumption|].
    - pose proof (go_rl_incr _ _ _ _ Hok (Z.to_nat x1) (Z.to_nat x2) s1 s1 ltac:(lia) Hs1 Hs2). lia.
    - pose proof (go_rl_incr _ _ _ _ Hok (Z.to_nat x2) (Z.to_nat x1) s1 s1 ltac:(lia) Hs2 Hs1). lia. }
  subst x1 x2.
  destruct (grouping_ok_size g1 Hg1) as (lo1 & hi1 & Hlo1 & Hhi1 & Hlt1 & _ & Hsz1 & _).
  destruct (grouping_ok_size g2 Hg2) as (lo2 & hi2 & Hlo2 & Hhi2 & Hlt2 & _ & Hsz2 & _).
  destruct (grouping_ok_boundary g1) as (l1 & Hl1 & _ & _ & Hv1); [lia|].
  destruct (grouping_ok_boundary g2) as (l2 & Hl2 & _ & _ & Hv2); [lia|].
  assert (l1 = lo1) as -> by congruence. assert (l2 = lo2) as -> by congruence.
  rewrite Hv1, Hv2 in Hx. rewrite Hsz1 in Hk1. rewrite Hsz2 in Hk2.
  assert (g1 = g2) as Hg.
  { destruct (Z.lt_trichotomy g1 g2) as [H|[H|H]]; [|assumption|].
    - assert (hi1 <= lo2); [|lia].
      destruct (decide (g1 + 1 = g2)) as [E|E].
      + rewrite E in Hhi1. assert (hi1 = lo2) by congruence. lia.
      + pose proof (go_dcl_incr _ _ _ _ Hok (Z.to_nat (g1 + 1)) (Z.to_nat g2)
                      hi1 lo2 ltac:(lia) Hhi1 Hlo2). lia.
    - assert (hi2 <= lo1); [|lia].
      destruct (decide (g2 + 1 = g1)) as [E|E].
      + rewrite E in Hhi2. assert (hi2 = lo1) by congruence. lia.
      + pose proof (go_dcl_incr _ _ _ _ Hok (Z.to_nat (g2 + 1)) (Z.to_nat g1)
                      hi2 lo1 ltac:(lia) Hhi2 Hlo1). lia. }
  subst g2. split; [reflexivity|].
  assert (lo1 = lo2) by congruence. lia.
Qed.

(** Lines 112-116 fill every cell of [sizeof_member_group]. *)
Lemma group_sizes_ok :
  group_sizes g = Ok (Some <$> diffs dcl) /\
  Z.of_nat (length (diffs dcl)) = recount_member g.
Proof.
  assert (Z.of_nat (length (diffs dcl)) = recount_member g) as Hlen.
  { rewrite diffs_length, (go_recount _ _ _ _ Hok).
    pose proof (go_groups _ _ _ _ Hok). pose proof (go_recount _ _ _ _ Hok). lia. }
  split; [|assumption].
  unfold group_sizes.
  destruct (for_loop_inv
              (fun i sizes => sizes = vla_of (recount_member g) (take (Z.to_nat i) (diffs dcl)))
              (size_step g) (Z.to_nat (recount_member g)) 0 (vla_new (recount_member g)))
    as (sizes & -> & Hs).
  - rewrite vla_new_of. reflexivity.
  - intros i s0 Hi ->.
    destruct (grouping_ok_size i ltac:(lia)) as (lo & hi & Hlo & Hhi & _ & _ & _ & Hd).
    destruct (grouping_ok_boundary i) as (lo' & Hlo' & _ & Hr & _); [lia|].
    destruct (grouping_ok_boundary (i + 1)) as (hi' & Hhi' & _ & Hr' & _); [lia|].
    assert (lo' = lo) as -> by congruence. assert (hi' = hi) as -> by congruence.
    eexists. unfold size_step. rewrite Hr'. simpl. rewrite Hr. simpl.
    assert (Z.of_nat (length (take (Z.to_nat i) (diffs dcl))) = i) as Hti
      by (rewrite length_take; lia).
    rewrite <- Hti at 2. rewrite vla_write_push by lia.
    split; [reflexivity|].
    replace (Z.to_nat (i + 1)) with (S (Z.to_nat i)) by lia.
    rewrite (take_S_r _ _ _ Hd). reflexivity.
  - rewrite Hs. f_equal.
    replace (Z.to_nat (0 + Z.of_nat (Z.to_nat (recount_member g))))
      with (length (diffs dcl)) by lia.
    rewrite firstn_all, <- Hlen. apply vla_of_full.
Qed.

Lemma owner_range (p : Z) : 0 <= p -> 0 <= owner g p < n.
Proof.
  intros Hp. pose proof (go_groups _ _ _ _ Hok) as HG.
  assert (0 <= p mod recount_member g < recount_member g) as Hgid
    by (apply Z.mod_pos_bound; lia).
  pose proof (grouping_ok_size_pos _ Hgid) as HS.
  destruct (grouping_ok_slot (p mod recount_member g)
              ((p / recount_member g) mod group_size g (p mod recount_member g)))
    as (slot & _ & _ & Hslot & _ & E); [assumption|apply Z.mod_pos_bound; lia|].
  unfold owner. simpl. rewrite E. assumption.
Qed.

End GroupingFacts.

(** ** Round-robin arithmetic *)

Lemma rr_share_0 (S k : Z) : 0 < S -> 0 <= k -> rr_share S 0 k = 0.
Proof.
  intros HS Hk. unfold rr_share. rewrite Z.div_0_l, Z.mod_0_l by lia.
  destruct (Z.ltb_spec k 0); lia.
Qed.

(** One more turn serves exactly the place whose turn it is. *)
Lemma rr_share_step (S c k : Z) :
  0 < S -> 0 <= c -> 0 <= k < S ->
  rr_share S (c + 1) k = rr_share S c k + (if k =? c mod S then 1 else 0).
Proof.
  intros HS Hc Hk. unfold rr_share.
  destruct (Z.ltb_spec k ((c + 1) mod S)), (Z.ltb_spec k (c mod S)),
    (Z.eqb_spec k (c mod S)); Z.div_mod_to_equations; nia.
Qed.

Lemma rr_share_turn (S c : Z) : 0 < S -> rr_share S c (c mod S) = c / S.
Proof.
  intros HS. unfold rr_share. destruct (Z.ltb_spec (c mod S) (c mod S)); lia.
Qed.

Lemma rr_share_nonneg (S c k : Z) : 0 < S -> 0 <= c -> 0 <= rr_share S c k.
Proof.
  intros HS Hc. unfold rr_share.
  pose proof (Z.div_pos c S Hc HS). destruct (k <? c mod S); lia.
Qed.

(** The shares of two places differ by at most one. *)
Lemma rr_share_fair (S c k1 k2 : Z) : rr_share S c k1 <= rr_share S c k2 + 1.
Proof.
  unfold rr_share. destruct (k1 <? c mod S), (k2 <? c mod S); lia.
Qed.

Lemma mod_succ_cursor (S c K : Z) :
  0 < S -> -1 <= c -> (c + 1) mod S = K mod S ->
  ((c + 1) mod S + 1) mod S = (K + 1) mod S.
Proof.
  intros HS Hc H. rewrite H. rewrite Z.add_mod_idemp_l by lia. reflexivity.
Qed.

(** ** Handing out entries *)

Lemma new_entries_0 (name : string) (own : Z -> Z) (slot : Z) :
  new_entries name own 0 slot = [].
Proof. reflexivity. Qed.

Lemma new_entries_neg (name : string) (own : Z -> Z) (P slot : Z) :
  P <= 0 -> new_entries name own P slot = [].
Proof.
  intros HP. unfold new_entries, seqZ.
  replace (Z.to_nat P) with 0%nat by lia. reflexivity.
Qed.

Lemma new_entries_step (name : string) (own : Z -> Z) (p slot : Z) :
  0 <= p ->
  new_entries name own (p + 1) slot
    = new_entries name own p slot ++ (if decide (own p = slot) then [(name, p)] else []).
Proof.
  intros Hp. unfold new_entries.
  rewrite seqZ_app by lia. rewrite filter_app, fmap_app. f_equal.
  replace (0 + p) with p by lia.
  rewrite (seqZ_cons p 1) by lia. simpl.
  rewrite filter_cons.
  destruct (decide (own p = slot)); reflexivity.
Qed.

Lemma member_extend_nil (m : rd_kafka_group_member_t) : member_extend m [] = m.
Proof. destruct m. unfold member_extend. simpl. rewrite app_nil_r. reflexivity. Qed.

Lemma member_extend_add (m : rd_kafka_group_member_t)
    (l : list rd_kafka_topic_partition_t) (name : string) (p : Z) :
  member_add (member_extend m l) name p = member_extend m (l ++ [(name, p)]).
Proof.
  unfold member_add, member_extend, rd_kafka_topic_partition_list_add. simpl.
  rewrite app_assoc. reflexivity.
Qed.

Lemma deal_length (ms : list rd_kafka_group_member_t) (name : string) (own : Z -> Z) (P : Z) :
  length (deal ms name own P) = length ms.
Proof. unfold deal. apply length_imap. Qed.

Lemma deal_lookup (ms : list rd_kafka_group_member_t) (name : string) (own : Z -> Z)
    (P : Z) (j : nat) :
  deal ms name own P !! j
    = (fun m => member_extend m (new_entries name own P (Z.of_nat j))) <$> ms !! j.
Proof. unfold deal. apply list_lookup_imap. Qed.

Lemma deal_none (ms : list rd_kafka_group_member_t) (name : string) (own : Z -> Z) (P : Z) :
  P <= 0 -> deal ms name own P = ms.
Proof.
  intros HP. apply list_eq. intros j. rewrite deal_lookup.
  destruct (ms !! j) as [m|]; [|reflexivity]. simpl.
  rewrite new_entries_neg by assumption. rewrite member_extend_nil. reflexivity.
Qed.

(** Appending partition [p] to the member in slot [own p] is the deal of
    one more partition. *)
Lemma deal_step (ms : list rd_kafka_group_member_t) (name : string) (own : Z -> Z)
    (p : Z) (rkgm : rd_kafka_group_member_t) :
  0 <= p -> 0 <= own p ->
  deal ms name own p !! Z.to_nat (own p) = Some rkgm ->
  <[Z.to_nat (own p) := member_add rkgm name p]> (deal ms name own p)
    = deal ms name own (p + 1).
Proof.
  intros Hp Hown Hr. apply list_eq. intros j.
  rewrite deal_lookup in Hr.
  destruct (decide (j = Z.to_nat (own p))) as [->|Hne].
  - rewrite list_lookup_insert_eq.
    2:{ rewrite deal_length. destruct (ms !! Z.to_nat (own p)) eqn:E; [|discriminate].
        eapply lookup_lt_Some. exact E. }
    rewrite deal_lookup.
    destruct (ms !! Z.to_nat (own p)) as [m|]; [|discriminate].
    simpl in *. injection Hr as <-. f_equal.
    rewrite member_extend_add. f_equal.
    rewrite new_entries_step by assumption.
    rewrite Z2Nat.id by assumption.
    destruct (decide (own p = own p)); [reflexivity|congruence].
  - rewrite list_lookup_insert_ne by congruence.
    rewrite !deal_lookup. destruct (ms !! j) as [m|]; [|reflexivity]. simpl.
    do 2 f_equal. rewrite new_entries_step by assumption.
    destruct (decide (own p = Z.of_nat j)) as [E|E]; [|symmetry; apply app_nil_r].
    exfalso. apply Hne. rewrite E. lia.
Qed.

(** ** The distribution loop *)

Section Distributor.

Variables (n : Z) (g : grouping) (dcl rl : list Z).
Variables (ms : list rd_kafka_group_member_t).
Variables (t : rd_kafka_assignor_topic_t) (md : rd_kafka_metadata_topic_t).
Hypothesis Hok : grouping_ok n g dcl rl.
Hypothesis Hms : n <= Z.of_nat (length ms).
Hypothesis Hmd : metadata t = Some md.

Lemma dist_inv_init :
  dist_inv g ms (topic md) 0
    {| next := -1;
       next_in_member_group := vla_memset_minus1 (vla_new (recount_member g));
       dist_members := ms |}
    (replicate (Z.to_nat (recount_member g)) (-1)).
Proof.
  pose proof (go_groups _ _ _ _ Hok) as HG.
  constructor; simpl.
  - lia.
  - reflexivity.
  - unfold vla_memset_minus1, vla_new. rewrite length_replicate, fmap_replicate. reflexivity.
  - rewrite length_replicate. lia.
  - intros group_id c Hg Hc. apply lookup_replicate in Hc as [-> _].
    pose proof (grouping_ok_size_pos n g dcl rl Hok _ Hg) as HS.
    split; [lia|]. rewrite rr_share_0 by lia. reflexivity.
  - symmetry. apply deal_none. lia.
Qed.

Lemma assign_step_inv (p : Z) (d : distribution) (cur : list Z) :
  0 <= p ->
  dist_inv g ms (topic md) p d cur ->
  exists d' cur',
    assign_step g (Some <$> diffs dcl) t p d = Ok d' /\
    dist_inv g ms (topic md) (p + 1) d' cur'.
Proof.
  intros Hp [Hnext Hnmod Hcur Hlen Hcursor Hmem].
  pose proof (go_groups _ _ _ _ Hok) as HG.
  set (G := recount_member g) in *.
  set (gid := p mod G).
  assert (0 <= gid < G) as Hgid by (apply Z.mod_pos_bound; lia).
  destruct (lookup_lt_is_Some_2 cur (Z.to_nat gid)) as [c Hc]; [lia|].
  destruct (Hcursor gid c Hgid Hc) as [Hcb Hcm].
  destruct (grouping_ok_size n g dcl rl Hok gid Hgid)
    as (lo & hi & Hlo & Hhi & Hlt & Hhib & Hsz & Hd).
  set (S := group_size g gid) in *.
  assert (1 <= S) as HS by lia.
  set (k := (c + 1) mod S).
  assert (0 <= k < S) as Hk by (apply Z.mod_pos_bound; lia).
  assert (k = (p / G) mod S) as Hkp.
  { unfold k. rewrite Hcm. unfold gid. rewrite rr_share_turn by lia. reflexivity. }
  destruct (grouping_ok_boundary n g dcl rl Hok gid) as (lo' & Hlo' & _ & Hrlo & Hvlo); [lia|].
  assert (lo' = lo) as -> by congruence.
  destruct (grouping_ok_slot n g dcl rl Hok gid k Hgid Hk) as (slot & _ & _ & Hslot & Hrs & Hgs).
  rewrite Hvlo in Hrs.
  assert (owner g p = slot) as Hown.
  { unfold owner. simpl. fold G. fold gid. fold S. rewrite <- Hkp. exact Hgs. }
  destruct (lookup_lt_is_Some_2 (deal ms (topic md) (owner g) p) (Z.to_nat slot))
    as [rkgm Hrkgm]; [rewrite deal_length; lia|].
  unfold assign_step. fold G.
  rewrite c_rem_ok by lia. rewrite Hnmod. fold gid. simpl.
  rewrite Hcur. rewrite (vla_read_full cur gid c) by (lia || assumption). simpl.
  rewrite (vla_read_full (diffs dcl) gid (hi - lo)) by (lia || assumption). simpl.
  rewrite <- Hsz. rewrite c_rem_ok by lia. fold k. simpl.
  rewrite vla_write_full by lia. simpl.
  rewrite Hrlo. simpl.
  rewrite (vla_read_full _ gid k).
  2: lia.
  2:{ apply list_lookup_insert_eq. lia. }
  simpl. rewrite Hrs. simpl.
  rewrite Hmem. rewrite (arr_get_ok _ slot rkgm) by (lia || assumption). simpl.
  rewrite Hmd. simpl.
  rewrite arr_set_ok by (rewrite deal_length; lia). simpl.
  eexists _, (<[Z.to_nat gid := k]> cur). split; [reflexivity|].
  constructor; simpl.
  - lia.
  - unfold gid. rewrite Z.add_mod_idemp_l by lia. reflexivity.
  - reflexivity.
  - rewrite length_insert. assumption.
  - intros gid' c' Hgid' Hc'.
    destruct (decide (gid' = gid)) as [->|Hne].
    + rewrite list_lookup_insert_eq in Hc' by lia. injection Hc' as <-.
      fold S. split; [lia|].
      rewrite rr_share_step by lia. fold gid.
      rewrite Z.eqb_refl. unfold k.
      apply mod_succ_cursor; [lia|lia|assumption].
    + rewrite list_lookup_insert_ne in Hc' by lia.
      destruct (Hcursor gid' c' Hgid' Hc') as [Hb Hm]. split; [assumption|].
      rewrite rr_share_step by lia.
      change (p mod recount_member g) with gid.
      destruct (Z.eqb_spec gid' gid); [contradiction|].
      rewrite Z.add_0_r. assumption.
  - rewrite <- Hown. rewrite <- Hown in Hrkgm.
    apply deal_step; [assumption| |assumption].
    rewrite Hown. lia.
Qed.

(** The loop of line 125 never faults, and hands partition [p] to the
    slot [owner g p], for every [p] below the partition count. *)
Lemma assign_loop_ok :
  exists d cur,
    for_loop (assign_step g (Some <$> diffs dcl) t) (Z.to_nat (partition_cnt md)) 0
      {| next := -1;
         next_in_member_group := vla_memset_minus1 (vla_new (recount_member g));
         dist_members := ms |} = Ok d /\
    dist_inv g ms (topic md) (Z.of_nat (Z.to_nat (partition_cnt md))) d cur.
Proof.
  destruct (for_loop_inv (fun p d => exists cur, dist_inv g ms (topic md) p d cur)
              (assign_step g (Some <$> diffs dcl) t) (Z.to_nat (partition_cnt md)) 0
              {| next := -1;
                 next_in_member_group := vla_memset_minus1 (vla_new (recount_member g));
                 dist_members := ms |}) as (d & Hd & cur & Hinv).
  - eexists. apply dist_inv_init.
  - intros p d0 Hp (cur & Hinv).
    destruct (assign_step_inv p d0 cur) as (d' & cur' & Hs & Hinv'); [lia|assumption|].
    eauto.
  - exists d, cur. split; [assumption|].
    rewrite Z.add_0_l in Hinv. assumption.
Qed.

End Distributor.

(** ** Sorting the member array *)

Section Sorting.

Variable id_cmp : string -> string -> Z.

Hypothesis id_cmp_total : forall a b, 0 < id_cmp a b -> id_cmp b a <= 0.

Lemma qsort_insert_perm (x : rd_kafka_group_member_t) (l : list rd_kafka_group_member_t) :
  qsort_insert (rd_kafka_group_member_cmp id_cmp) x l ≡ₚ x :: l.
Proof.
  induction l as [|y l IH]; simpl; [reflexivity|].
  destruct (rd_kafka_group_member_cmp id_cmp x y <=? 0); [reflexivity|].
  rewrite IH. apply Permutation_swap.
Qed.

Lemma qsort_perm (l : list rd_kafka_group_member_t) :
  qsort (rd_kafka_group_member_cmp id_cmp) l ≡ₚ l.
Proof.
  induction l as [|x l IH]; simpl; [reflexivity|].
  rewrite qsort_insert_perm, IH. reflexivity.
Qed.

Lemma qsort_length (l : list rd_kafka_group_member_t) :
  length (qsort (rd_kafka_group_member_cmp id_cmp) l) = length l.
Proof. apply Permutation_length, qsort_perm. Qed.

Lemma qsort_insert_sorted (x : rd_kafka_group_member_t) (l : list rd_kafka_group_member_t) :
  ids_sorted id_cmp l -> ids_sorted id_cmp (qsort_insert (rd_kafka_group_member_cmp id_cmp) x l).
Proof.
  unfold ids_sorted. induction l as [|y l IH]; simpl; intros Hs.
  - repeat constructor.
  - unfold rd_kafka_group_member_cmp at 1.
    destruct (Z.leb_spec (id_cmp (rkgm_member_id x) (rkgm_member_id y)) 0) as [Hle|Hgt]; simpl.
    + constructor; [assumption|]. constructor. assumption.
    + apply Sorted_inv in Hs as [Hs Hhd]. constructor; [apply IH; assumption|].
      destruct l as [|z l]; simpl.
      * constructor. apply id_cmp_total. assumption.
      * unfold rd_kafka_group_member_cmp at 1.
        destruct (Z.leb_spec (id_cmp (rkgm_member_id x) (rkgm_member_id z)) 0); simpl.
        -- constructor. apply id_cmp_total. assumption.
        -- constructor. apply HdRel_inv in Hhd. assumption.
Qed.

Lemma qsort_sorted (l : list rd_kafka_group_member_t) :
  ids_sorted id_cmp (qsort (rd_kafka_group_member_cmp id_cmp) l).
Proof.
  induction l as [|x l IH]; simpl; [constructor|].
  apply qsort_insert_sorted. assumption.
Qed.

End Sorting.

(** Sorting an array that is already in order leaves it as it is. *)
Lemma qsort_sorted_id (id_cmp : string -> string -> Z) (l : list rd_kafka_group_member_t) :
  ids_sorted id_cmp l -> qsort (rd_kafka_group_member_cmp id_cmp) l = l.
Proof.
  unfold ids_sorted. induction l as [|x l IH]; simpl; intros Hs; [reflexivity|].
  apply Sorted_inv in Hs as [Hs Hhd]. rewrite IH by assumption.
  destruct l as [|y l]; simpl; [reflexivity|].
  apply HdRel_inv in Hhd. unfold rd_kafka_group_member_cmp.
  destruct (Z.leb_spec (id_cmp (rkgm_member_id x) (rkgm_member_id y)) 0); [reflexivity|lia].
Qed.

(** ** Frames *)

Lemma extends_refl (ms : list rd_kafka_group_member_t) : extends ms ms.
Proof.
  unfold extends. apply Forall2_same_length_lookup. split; [reflexivity|].
  intros i m m' H1 H2. assert (m' = m) as -> by congruence.
  repeat split. exists []. symmetry. apply app_nil_r.
Qed.

Lemma extends_trans (a b c : list rd_kafka_group_member_t) :
  extends a b -> extends b c -> extends a c.
Proof.
  unfold extends. intros Hab. revert c.
  induction Hab as [|x y a b (Hi & Hs & e1 & He1) Hab IH]; intros c Hbc.
  - inversion Hbc. constructor.
  - inversion Hbc as [|? z ? c' (Hi' & Hs' & e2 & He2) Hbc']; subst.
    constructor; [|apply IH; assumption].
    repeat split; [congruence|congruence|].
    exists (e1 ++ e2). rewrite He2, He1, app_assoc. reflexivity.
Qed.

Lemma extends_ids (a b : list rd_kafka_group_member_t) :
  extends a b -> rkgm_member_id <$> b = rkgm_member_id <$> a.
Proof.
  unfold extends. induction 1 as [|x y a b (Hi & _) _ IH]; [reflexivity|].
  rewrite !fmap_cons, Hi, IH. reflexivity.
Qed.

Lemma extends_length (a b : list rd_kafka_group_member_t) :
  extends a b -> length b = length a.
Proof. intros H. symmetry. eapply Forall2_length. exact H. Qed.

Lemma extends_deal (ms : list rd_kafka_group_member_t) (name : string) (own : Z -> Z) (P : Z) :
  extends ms (deal ms name own P).
Proof.
  unfold extends. apply Forall2_same_length_lookup. split; [symmetry; apply deal_length|].
  intros i m m' H1 H2. rewrite deal_lookup, H1 in H2. simpl in H2. injection H2 as <-.
  simpl. repeat split. eexists. reflexivity.
Qed.

Lemma extends_sorted (id_cmp : string -> string -> Z) (a b : list rd_kafka_group_member_t) :
  extends a b -> ids_sorted id_cmp a -> ids_sorted id_cmp b.
Proof.
  intros H Ha. unfold ids_sorted in *. rewrite (extends_ids a b H). exact Ha.
Qed.

Lemma deal_clamp (ms : list rd_kafka_group_member_t) (name : string) (own : Z -> Z) (P : Z) :
  deal ms name own (Z.of_nat (Z.to_nat P)) = deal ms name own P.
Proof.
  destruct (Z.le_gt_cases 0 P) as [H|H].
  - rewrite Z2Nat.id by assumption. reflexivity.
  - rewrite (deal_none ms name own P) by lia. apply deal_none. lia.
Qed.

(** ** One topic *)

Section OneTopic.

Variable id_cmp : string -> string -> Z.
Variable classify : string -> string -> Z.

(** The body of the topic loop on a topic the caller may pass: it never
    faults; it sorts the array, groups its first [member_cnt] slots, and
    gives partition [p] to the slot [owner g p]. *)
Lemma assign_topic_deal (ms : list rd_kafka_group_member_t)
    (t : rd_kafka_assignor_topic_t) (md : rd_kafka_metadata_topic_t) :
  metadata t = Some md ->
  (1 <= length (members t) <= length ms)%nat ->
  exists g dcl rl,
    group_members classify (qsort (rd_kafka_group_member_cmp id_cmp) ms)
      (rd_list_cnt (members t)) = Ok g /\
    grouping_ok (rd_list_cnt (members t)) g dcl rl /\
    group_sizes g = Ok (Some <$> diffs dcl) /\
    assign_topic id_cmp classify ms t
      = Ok (deal (qsort (rd_kafka_group_member_cmp id_cmp) ms) (topic md) (owner g)
              (partition_cnt md)).
Proof.
  intros Hmd Hn.
  set (sorted := qsort (rd_kafka_group_member_cmp id_cmp) ms).
  assert (length sorted = length ms) as Hlen by apply qsort_length.
  destruct (group_members_ok classify (rd_list_cnt (members t)) sorted)
    as (g & dcl & rl & Hg & Hok); [unfold rd_list_cnt; lia|].
  destruct (group_sizes_ok _ g dcl rl Hok) as [Hsz _].
  exists g, dcl, rl. split; [assumption|]. split; [assumption|]. split; [assumption|].
  unfold assign_topic. fold sorted. rewrite Hg. simpl. rewrite Hsz. simpl.
  rewrite Hmd. simpl.
  destruct (assign_loop_ok _ g dcl rl sorted t md Hok) as (d & cur & Hd & Hinv);
    [unfold rd_list_cnt; lia|assumption|].
  rewrite Hd. simpl. rewrite (di_members _ _ _ _ _ _ Hinv). f_equal. apply deal_clamp.
Qed.

End OneTopic.

(** ** Counting what a slot receives *)

Lemma count_below_ext (f f' : Z -> bool) (P : nat) :
  (forall p, 0 <= p < Z.of_nat P -> f p = f' p) -> count_below f P = count_below f' P.
Proof.
  induction P as [|P IH]; intros H; simpl; [reflexivity|].
  rewrite IH by (intros p Hp; apply H; lia). rewrite H by lia. reflexivity.
Qed.

(** Among the first [P] partitions, those that fall to place [k] of
    group [group_id]. *)
Lemma count_two_level (G S group_id k : Z) (P : nat) :
  0 < G -> 0 < S -> 0 <= group_id < G -> 0 <= k < S ->
  count_below (fun p => (p mod G =? group_id) && ((p / G) mod S =? k)) P
    = rr_share S (rr_share G (Z.of_nat P) group_id) k.
Proof.
  intros HG HS Hg Hk. induction P as [|P IH]; simpl count_below.
  - rewrite (rr_share_0 G) by lia. rewrite rr_share_0 by lia. reflexivity.
  - rewrite IH, Nat2Z.inj_succ, <- Z.add_1_r. rewrite (rr_share_step G) by lia.
    rewrite (Z.eqb_sym group_id).
    destruct (Z.eqb_spec (Z.of_nat P mod G) group_id) as [E|E]; simpl.
    + subst group_id. rewrite rr_share_turn by lia.
      rewrite rr_share_step by (try apply Z.div_pos; lia).
      rewrite (Z.eqb_sym k). reflexivity.
    + rewrite !Z.add_0_r. reflexivity.
Qed.

Lemma new_entries_length (name : string) (own : Z -> Z) (slot : Z) (P : nat) :
  Z.of_nat (length (new_entries name own (Z.of_nat P) slot))
    = count_below (fun p => own p =? slot) P.
Proof.
  induction P as [|P IH]; simpl count_below; [reflexivity|].
  rewrite Nat2Z.inj_succ, <- Z.add_1_r, new_entries_step by lia.
  rewrite length_app, Nat2Z.inj_add, IH. f_equal.
  destruct (decide (own (Z.of_nat P) = slot)) as [E|E], (Z.eqb_spec (own (Z.of_nat P)) slot);
    try contradiction; reflexivity.
Qed.

Lemma assigned_cnt_deal (ms : list rd_kafka_group_member_t) (name : string)
    (own : Z -> Z) (P slot : Z) :
  0 <= slot < Z.of_nat (length ms) ->
  assigned_cnt ms (deal ms name own P) slot
    = count_below (fun p => own p =? slot) (Z.to_nat P).
Proof.
  intros Hs. unfold assigned_cnt.
  destruct (lookup_lt_is_Some_2 ms (Z.to_nat slot)) as [m Hm]; [lia|].
  rewrite (arr_get_ok ms slot m) by (lia || assumption).
  rewrite (arr_get_ok _ slot (member_extend m (new_entries name own P slot))).
  2: lia.
  2:{ rewrite deal_lookup, Hm. simpl. rewrite Z2Nat.id by lia. reflexivity. }
  simpl. rewrite length_app, Nat2Z.inj_add.
  rewrite <- (new_entries_length name).
  destruct (Z.le_gt_cases 0 P) as [H|H].
  - rewrite Z2Nat.id by assumption. lia.
  - rewrite new_entries_neg by lia. replace (Z.to_nat P) with 0%nat by lia.
    rewrite new_entries_0. simpl. lia.
Qed.

Lemma sumZ_app (l1 l2 : list Z) : sumZ (l1 ++ l2) = sumZ l1 + sumZ l2.
Proof. unfold sumZ. induction l1 as [|x l1 IH]; simpl; [reflexivity|]. rewrite IH. lia. Qed.

Lemma sumZ_steps (a r : Z) (m : nat) :
  0 <= r ->
  sumZ ((fun k => a + (if k <? r then 1 else 0)) <$> seqZ 0 (Z.of_nat m))
    = Z.of_nat m * a + Z.min r (Z.of_nat m).
Proof.
  intros Hr. induction m as [|m IH]; [simpl; lia|].
  rewrite Nat2Z.inj_succ, <- Z.add_1_r, seqZ_app by lia.
  rewrite fmap_app, sumZ_app, IH. rewrite Z.add_0_l.
  rewrite (seqZ_cons _ 1) by lia. simpl.
  destruct (Z.ltb_spec (Z.of_nat m) r); lia.
Qed.

(** The shares of all places add up to the turns taken. *)
Lemma sumZ_rr_share (S c : Z) :
  0 < S -> 0 <= c -> sumZ (rr_share S c <$> seqZ 0 S) = c.
Proof.
  intros HS Hc.
  pose proof (Z.mod_pos_bound c S HS) as Hm.
  pose proof (sumZ_steps (c / S) (c mod S) (Z.to_nat S) ltac:(lia)) as H.
  rewrite Z2Nat.id in H by lia. unfold rr_share. rewrite H.
  rewrite Z.min_l by lia. pose proof (Z.div_mod c S ltac:(lia)). lia.
Qed.

Section Shares.

Variables (n : Z) (g : grouping) (dcl rl : list Z).
Hypothesis Hok : grouping_ok n g dcl rl.

(** The entries that reach place [k] of group [group_id]. *)
Lemma owner_count (group_id k : Z) (P : nat) :
  0 <= group_id < recount_member g ->
  0 <= k < group_size g group_id ->
  count_below (fun p => owner g p =? group_slot g group_id k) P
    = rr_share (group_size g group_id)
        (rr_share (recount_member g) (Z.of_nat P) group_id) k.
Proof.
  intros Hg Hk. pose proof (go_groups _ _ _ _ Hok) as HG.
  rewrite <- count_two_level by lia.
  apply count_below_ext. intros p Hp.
  assert (0 <= p mod recount_member g < recount_member g) as Hpg
    by (apply Z.mod_pos_bound; lia).
  pose proof (grouping_ok_size_pos n g dcl rl Hok _ Hpg) as HS.
  assert (0 <= (p / recount_member g) mod group_size g (p mod recount_member g)
          < group_size g (p mod recount_member g)) as Hpk
    by (apply Z.mod_pos_bound; lia).
  unfold owner. simpl.
  destruct (Z.eqb_spec (p mod recount_member g) group_id) as [E|E]; simpl.
  - rewrite E in *.
    destruct (Z.eqb_spec ((p / recount_member g) mod group_size g group_id) k) as [E'|E'].
    + rewrite E'. apply Z.eqb_refl.
    + apply Z.eqb_neq. intros Heq.
      apply (group_slot_inj n g dcl rl Hok) in Heq as [_ Heq]; try assumption. contradiction.
  - apply Z.eqb_neq. intros Heq.
    apply (group_slot_inj n g dcl rl Hok) in Heq as [Heq _]; try assumption. contradiction.
Qed.

Variables (ms : list rd_kafka_group_member_t) (name : string) (P : Z).
Hypothesis Hms : n <= Z.of_nat (length ms).

Lemma member_share (group_id k : Z) :
  0 <= group_id < recount_member g ->
  0 <= k < group_size g group_id ->
  assigned_cnt ms (deal ms name (owner g) P) (group_slot g group_id k)
    = rr_share (group_size g group_id)
        (rr_share (recount_member g) (Z.of_nat (Z.to_nat P)) group_id) k.
Proof.
  intros Hg Hk.
  destruct (grouping_ok_slot n g dcl rl Hok group_id k Hg Hk) as (slot & _ & _ & Hs & _ & E).
  rewrite assigned_cnt_deal by lia.
  apply owner_count; assumption.
Qed.

Lemma group_share (group_id : Z) :
  0 <= group_id < recount_member g ->
  group_assigned ms (deal ms name (owner g) P) g group_id
    = rr_share (recount_member g) (Z.of_nat (Z.to_nat P)) group_id.
Proof.
  intros Hg. pose proof (go_groups _ _ _ _ Hok) as HG.
  pose proof (grouping_ok_size_pos n g dcl rl Hok _ Hg) as HS.
  unfold group_assigned, group_slots. rewrite <- list_fmap_compose.
  rewrite <- (sumZ_rr_share (group_size g group_id)
                (rr_share (recount_member g) (Z.of_nat (Z.to_nat P)) group_id));
    [|lia|apply rr_share_nonneg; lia].
  f_equal. apply list_fmap_ext. intros i k Hik.
  apply lookup_seqZ in Hik as [-> Hi]. simpl.
  apply member_share; [assumption|lia].
Qed.

End Shares.

(** ** The distribution of one topic *)

Lemma new_entries_elem (name : string) (own : Z -> Z) (P slot p : Z) :
  (name, p) ∈ new_entries name own P slot <-> 0 <= p < P /\ slot = own p.
Proof.
  unfold new_entries. rewrite list_elem_of_fmap. split.
  - intros (q & [= <-] & Hq). apply list_elem_of_filter in Hq as [Hq Hs].
    apply elem_of_seqZ in Hs. split; [lia|congruence].
  - intros [Hp ->]. exists p. split; [reflexivity|].
    apply list_elem_of_filter. split; [reflexivity|]. apply elem_of_seqZ. lia.
Qed.

Lemma new_entries_NoDup (name : string) (own : Z -> Z) (P slot : Z) :
  NoDup (new_entries name own P slot).
Proof.
  unfold new_entries. apply NoDup_fmap_2.
  - intros p q [= ->]. reflexivity.
  - apply NoDup_filter, NoDup_seqZ.
Qed.

(** C1: on a topic with at least one eligible member the distribution
    loop runs through the partitions 0, 1, ..., P-1 in this order and
    appends (topic, p) to the assignment list of exactly one member, the
    one in slot [owner g p]; the lists of all members together gain every
    partition of the topic once and none twice, and nothing at all when
    P is 0 or less. *)
Theorem C1_every_partition_assigned_once
    (id_cmp classify : string -> string -> Z)
    (ms : list rd_kafka_group_member_t)
    (t : rd_kafka_assignor_topic_t) (md : rd_kafka_metadata_topic_t) :
  metadata t = Some md ->
  (1 <= length (members t) <= length ms)%nat ->
  exists g,
    group_members classify (qsort (rd_kafka_group_member_cmp id_cmp) ms)
      (rd_list_cnt (members t)) = Ok g /\
    assign_topic id_cmp classify ms t
      = Ok (imap (fun j m =>
                    member_extend m
                      ((fun p => (topic md, p)) <$>
                         filter (fun p => owner g p = Z.of_nat j)
                           (seqZ 0 (partition_cnt md))))
              (qsort (rd_kafka_group_member_cmp id_cmp) ms)) /\
    (forall p, 0 <= p < partition_cnt md ->
       0 <= owner g p < Z.of_nat (length ms)) /\
    (forall p slot,
       (topic md, p) ∈ new_entries (topic md) (owner g) (partition_cnt md) slot
       <-> 0 <= p < partition_cnt md /\ slot = owner g p) /\
    (forall slot, NoDup (new_entries (topic md) (owner g) (partition_cnt md) slot)) /\
    (partition_cnt md <= 0 ->
       assign_topic id_cmp classify ms t
         = Ok (qsort (rd_kafka_group_member_cmp id_cmp) ms)).
Proof.
  intros Hmd Hn.
  destruct (assign_topic_deal id_cmp classify ms t md Hmd Hn)
    as (g & dcl & rl & Hg & Hok & _ & Hassign).
  exists g. split; [exact Hg|]. split; [exact Hassign|]. split; [|split; [|split]].
  - intros p Hp.
    pose proof (owner_range _ g dcl rl Hok p ltac:(lia)) as Hr.
    unfold rd_list_cnt in Hr. lia.
  - intros p slot. apply new_entries_elem.
  - intros slot. apply new_entries_NoDup.
  - intros HP. rewrite Hassign. f_equal. apply deal_none. assumption.
Qed.

Lemma C1_every_partition_assigned_once_witness :
  exists g,
    group_members scenario_b_classify
      (qsort (rd_kafka_group_member_cmp str_cmp) scenario_b_members)
      (rd_list_cnt (members scenario_b_topic)) = Ok g /\
    assign_topic str_cmp scenario_b_classify scenario_b_members scenario_b_topic
      = Ok (imap (fun j m =>
                    member_extend m
                      ((fun p => (topic scenario_b_metadata, p)) <$>
                         filter (fun p => owner g p = Z.of_nat j)
                           (seqZ 0 (partition_cnt scenario_b_metadata))))
              (qsort (rd_kafka_group_member_cmp str_cmp) scenario_b_members)) /\
    (forall p, 0 <= p < partition_cnt scenario_b_metadata ->
       0 <= owner g p < Z.of_nat (length scenario_b_members)) /\
    (forall p slot,
       (topic scenario_b_metadata, p)
         ∈ new_entries (topic scenario_b_metadata) (owner g)
             (partition_cnt scenario_b_metadata) slot
       <-> 0 <= p < partition_cnt scenario_b_metadata /\ slot = owner g p) /\
    (forall slot, NoDup (new_entries (topic scenario_b_metadata) (owner g)
                           (partition_cnt scenario_b_metadata) slot)) /\
    (partition_cnt scenario_b_metadata <= 0 ->
       assign_topic str_cmp scenario_b_classify scenario_b_members scenario_b_topic
         = Ok (qsort (rd_kafka_group_member_cmp str_cmp) scenario_b_members)).
Proof.
  apply (C1_every_partition_assigned_once str_cmp scenario_b_classify
           scenario_b_members scenario_b_topic scenario_b_metadata).
  - reflexivity.
  - simpl. lia.
Defined.

(** C2: on a topic that is distributed over G >= 1 groups, the numbers
    of partitions that any two groups receive differ by at most 1: group
    [group_id] receives P / G of them, and one more when
    [group_id < P mod G].  No slot belongs to two groups or to two
    places of a group, so no entry is counted twice. *)
Theorem C2_groups_differ_by_at_most_one
    (id_cmp classify : string -> string -> Z)
    (ms : list rd_kafka_group_member_t)
    (t : rd_kafka_assignor_topic_t) (md : rd_kafka_metadata_topic_t) :
  metadata t = Some md ->
  (1 <= length (members t) <= length ms)%nat ->
  exists g ms',
    group_members classify (qsort (rd_kafka_group_member_cmp id_cmp) ms)
      (rd_list_cnt (members t)) = Ok g /\
    assign_topic id_cmp classify ms t = Ok ms' /\
    1 <= recount_member g /\
    (forall group_id, 0 <= group_id < recount_member g ->
       group_assigned (qsort (rd_kafka_group_member_cmp id_cmp) ms) ms' g group_id
         = rr_share (recount_member g) (Z.max 0 (partition_cnt md)) group_id) /\
    (forall g1 k1 g2 k2,
       0 <= g1 < recount_member g -> 0 <= k1 < group_size g g1 ->
       0 <= g2 < recount_member g -> 0 <= k2 < group_size g g2 ->
       group_slot g g1 k1 = group_slot g g2 k2 -> g1 = g2 /\ k1 = k2) /\
    (forall g1 g2,
       0 <= g1 < recount_member g -> 0 <= g2 < recount_member g ->
       Z.abs (group_assigned (qsort (rd_kafka_group_member_cmp id_cmp) ms) ms' g g1
              - group_assigned (qsort (rd_kafka_group_member_cmp id_cmp) ms) ms' g g2) <= 1).
Proof.
  intros Hmd Hn.
  destruct (assign_topic_deal id_cmp classify ms t md Hmd Hn)
    as (g & dcl & rl & Hg & Hok & _ & Hassign).
  set (sorted := qsort (rd_kafka_group_member_cmp id_cmp) ms) in *.
  assert (rd_list_cnt (members t) <= Z.of_nat (length sorted)) as Hlen.
  { unfold sorted. rewrite qsort_length. unfold rd_list_cnt. lia. }
  assert (forall group_id, 0 <= group_id < recount_member g ->
            group_assigned sorted (deal sorted (topic md) (owner g) (partition_cnt md)) g group_id
              = rr_share (recount_member g) (Z.max 0 (partition_cnt md)) group_id) as Hshare.
  { intros group_id Hgid.
    rewrite (group_share _ g dcl rl Hok sorted (topic md) (partition_cnt md) Hlen) by assumption.
    f_equal. lia. }
  eexists g, _. split; [exact Hg|]. split; [exact Hassign|].
  split; [apply (go_groups _ _ _ _ Hok)|]. split; [exact Hshare|].
  split; [apply (group_slot_inj _ g dcl rl Hok)|].
  intros g1 g2 Hg1 Hg2. rewrite !Hshare by assumption.
  pose proof (rr_share_fair (recount_member g) (Z.max 0 (partition_cnt md)) g1 g2).
  pose proof (rr_share_fair (recount_member g) (Z.max 0 (partition_cnt md)) g2 g1).
  lia.
Qed.

Lemma C2_groups_differ_by_at_most_one_witness :
  exists g ms',
    group_members scenario_b_classify
      (qsort (rd_kafka_group_member_cmp str_cmp) scenario_b_members)
      (rd_list_cnt (members scenario_b_topic)) = Ok g /\
    assign_topic str_cmp scenario_b_classify scenario_b_members scenario_b_topic = Ok ms' /\
    1 <= recount_member g /\
    (forall group_id, 0 <= group_id < recount_member g ->
       group_assigned (qsort (rd_kafka_group_member_cmp str_cmp) scenario_b_members)
         ms' g group_id
         = rr_share (recount_member g) (Z.max 0 (partition_cnt scenario_b_metadata)) group_id) /\
    (forall g1 k1 g2 k2,
       0 <= g1 < recount_member g -> 0 <= k1 < group_size g g1 ->
       0 <= g2 < recount_member g -> 0 <= k2 < group_size g g2 ->
       group_slot g g1 k1 = group_slot g g2 k2 -> g1 = g2 /\ k1 = k2) /\
    (forall g1 g2,
       0 <= g1 < recount_member g -> 0 <= g2 < recount_member g ->
       Z.abs (group_assigned (qsort (rd_kafka_group_member_cmp str_cmp) scenario_b_members)
                ms' g g1
              - group_assigned (qsort (rd_kafka_group_member_cmp str_cmp) scenario_b_members)
                  ms' g g2) <= 1).
Proof.
  apply (C2_groups_differ_by_at_most_one str_cmp scenario_b_classify
           scenario_b_members scenario_b_topic scenario_b_metadata).
  - reflexivity.
  - simpl. lia.
Defined.

(** C3: inside a group of size S that receives K partitions of the
    topic, the numbers of partitions that any two of its members receive
    differ by at most 1: the member at place [k] receives K / S of them,
    and one more when [k < K mod S]; different places of the group are
    different members. *)
Theorem C3_members_of_a_group_differ_by_at_most_one
    (id_cmp classify : string -> string -> Z)
    (ms : list rd_kafka_group_member_t)
    (t : rd_kafka_assignor_topic_t) (md : rd_kafka_metadata_topic_t) :
  metadata t = Some md ->
  (1 <= length (members t) <= length ms)%nat ->
  exists g ms',
    group_members classify (qsort (rd_kafka_group_member_cmp id_cmp) ms)
      (rd_list_cnt (members t)) = Ok g /\
    assign_topic id_cmp classify ms t = Ok ms' /\
    forall group_id, 0 <= group_id < recount_member g ->
      1 <= group_size g group_id /\
      (forall k, 0 <= k < group_size g group_id ->
         assigned_cnt (qsort (rd_kafka_group_member_cmp id_cmp) ms) ms'
           (group_slot g group_id k)
         = rr_share (group_size g group_id)
             (group_assigned (qsort (rd_kafka_group_member_cmp id_cmp) ms) ms' g group_id) k) /\
      (forall k1 k2,
         0 <= k1 < group_size g group_id -> 0 <= k2 < group_size g group_id ->
         group_slot g group_id k1 = group_slot g group_id k2 -> k1 = k2) /\
      (forall k1 k2,
         0 <= k1 < group_size g group_id -> 0 <= k2 < group_size g group_id ->
         Z.abs (assigned_cnt (qsort (rd_kafka_group_member_cmp id_cmp) ms) ms'
                  (group_slot g group_id k1)
                - assigned_cnt (qsort (rd_kafka_group_member_cmp id_cmp) ms) ms'
                    (group_slot g group_id k2)) <= 1).
Proof.
  intros Hmd Hn.
  destruct (assign_topic_deal id_cmp classify ms t md Hmd Hn)
    as (g & dcl & rl & Hg & Hok & _ & Hassign).
  set (sorted := qsort (rd_kafka_group_member_cmp id_cmp) ms) in *.
  assert (rd_list_cnt (members t) <= Z.of_nat (length sorted)) as Hlen.
  { unfold sorted. rewrite qsort_length. unfold rd_list_cnt. lia. }
  eexists g, _. split; [exact Hg|]. split; [exact Hassign|].
  intros group_id Hgid.
  assert (forall k, 0 <= k < group_size g group_id ->
            assigned_cnt sorted (deal sorted (topic md) (owner g) (partition_cnt md))
              (group_slot g group_id k)
            = rr_share (group_size g group_id)
                (group_assigned sorted (deal sorted (topic md) (owner g) (partition_cnt md))
                   g group_id) k) as Hshare.
  { intros k Hk.
    rewrite (group_share _ g dcl rl Hok sorted (topic md) (partition_cnt md) Hlen) by assumption.
    apply (member_share _ g dcl rl Hok sorted (topic md) (partition_cnt md) Hlen); assumption. }
  split; [apply (grouping_ok_size_pos _ g dcl rl Hok); assumption|].
  split; [exact Hshare|]. split.
  { intros k1 k2 Hk1 Hk2 Heq.
    apply (group_slot_inj _ g dcl rl Hok group_id k1 group_id k2); assumption. }
  intros k1 k2 Hk1 Hk2. rewrite !Hshare by assumption.
  set (K := group_assigned _ _ _ _).
  pose proof (rr_share_fair (group_size g group_id) K k1 k2).
  pose proof (rr_share_fair (group_size g group_id) K k2 k1).
  lia.
Qed.

Lemma C3_members_of_a_group_differ_by_at_most_one_witness :
  exists g ms',
    group_members scenario_b_classify
      (qsort (rd_kafka_group_member_cmp str_cmp) scenario_b_members)
      (rd_list_cnt (members scenario_b_topic)) = Ok g /\
    assign_topic str_cmp scenario_b_classify scenario_b_members scenario_b_topic = Ok ms' /\
    forall group_id, 0 <= group_id < recount_member g ->
      1 <= group_size g group_id /\
      (forall k, 0 <= k < group_size g group_id ->
         assigned_cnt (qsort (rd_kafka_group_member_cmp str_cmp) scenario_b_members) ms'
           (group_slot g group_id k)
         = rr_share (group_size g group_id)
             (group_assigned (qsort (rd_kafka_group_member_cmp str_cmp) scenario_b_members)
                ms' g group_id) k) /\
      (forall k1 k2,
         0 <= k1 < group_size g group_id -> 0 <= k2 < group_size g group_id ->
         group_slot g group_id k1 = group_slot g group_id k2 -> k1 = k2) /\
      (forall k1 k2,
         0 <= k1 < group_size g group_id -> 0 <= k2 < group_size g group_id ->
         Z.abs (assigned_cnt (qsort (rd_kafka_group_member_cmp str_cmp) scenario_b_members) ms'
                  (group_slot g group_id k1)
                - assigned_cnt (qsort (rd_kafka_group_member_cmp str_cmp) scenario_b_members) ms'
                    (group_slot g group_id k2)) <= 1).
Proof.
  apply (C3_members_of_a_group_differ_by_at_most_one str_cmp scenario_b_classify
           scenario_b_members scenario_b_topic scenario_b_metadata).
  - reflexivity.
  - simpl. lia.
Defined.

(** C10: for a topic with n >= 1 eligible members the boundary array
    [different_consumers] grows strictly over its cells 0 .. G and the
    last member n-1 is the last retained slot; so there is at least one
    group, every cell of [sizeof_member_group] is at least 1, every index
    into [resorted_member_lists] that the loop computes lies below the
    fill position, every retained slot is one of the first n slots of
    the member array, and the whole topic is processed without a zero
    modulus ([c_rem] would fault) or an access out of bounds. *)
Theorem C10_grouper_keeps_the_loop_in_bounds
    (id_cmp classify : string -> string -> Z)
    (ms : list rd_kafka_group_member_t)
    (t : rd_kafka_assignor_topic_t) (md : rd_kafka_metadata_topic_t) :
  metadata t = Some md ->
  (1 <= length (members t) <= length ms)%nat ->
  exists g sizeof_member_group ms',
    group_members classify (qsort (rd_kafka_group_member_cmp id_cmp) ms)
      (rd_list_cnt (members t)) = Ok g /\
    group_sizes g = Ok sizeof_member_group /\
    assign_topic id_cmp classify ms t = Ok ms' /\
    1 <= recount_member g /\
    (forall i j, 0 <= i < j -> j <= recount_member g ->
       exists a b, vla_read (different_consumers g) i = Ok a /\
                   vla_read (different_consumers g) j = Ok b /\ a < b) /\
    vla_read (resorted_member_lists g) (resorted_member_lists_pos g - 1)
      = Ok (rd_list_cnt (members t) - 1) /\
    (forall group_id, 0 <= group_id < recount_member g ->
       vla_read sizeof_member_group group_id = Ok (group_size g group_id) /\
       1 <= group_size g group_id) /\
    (forall group_id k,
       0 <= group_id < recount_member g -> 0 <= k < group_size g group_id ->
       exists lo slot,
         vla_read (different_consumers g) group_id = Ok lo /\
         0 <= lo + 1 + k < resorted_member_lists_pos g /\
         vla_read (resorted_member_lists g) (lo + 1 + k) = Ok slot /\
         0 <= slot < rd_list_cnt (members t)).
Proof.
  intros Hmd Hn.
  destruct (assign_topic_deal id_cmp classify ms t md Hmd Hn)
    as (g & dcl & rl & Hg & Hok & Hsz & Hassign).
  eexists g, _, _. split; [exact Hg|]. split; [exact Hsz|]. split; [exact Hassign|].
  pose proof (go_groups _ _ _ _ Hok) as HG.
  split; [lia|]. split; [|split; [|split]].
  - intros i j Hij Hj.
    destruct (grouping_ok_boundary _ g dcl rl Hok i) as (a & Ha & _ & Hra & _); [lia|].
    destruct (grouping_ok_boundary _ g dcl rl Hok j) as (b & Hb & _ & Hrb & _); [lia|].
    exists a, b. split; [assumption|]. split; [assumption|].
    apply (go_dcl_incr _ _ _ _ Hok (Z.to_nat i) (Z.to_nat j)); [lia|assumption|assumption].
  - rewrite (go_rml _ _ _ _ Hok), (go_pos _ _ _ _ Hok).
    pose proof (go_rl_len _ _ _ _ Hok).
    apply vla_read_of; [lia|].
    replace (Z.to_nat (Z.of_nat (length rl) - 1)) with (length rl - 1)%nat by lia.
    apply (go_rl_last _ _ _ _ Hok).
  - intros group_id Hgid.
    destruct (grouping_ok_size _ g dcl rl Hok group_id Hgid)
      as (lo & hi & _ & _ & Hlt & _ & Hs & Hd).
    split; [|lia]. rewrite Hs. apply vla_read_full; [lia|assumption].
  - intros group_id k Hgid Hk.
    destruct (grouping_ok_boundary _ g dcl rl Hok group_id) as (lo & _ & _ & Hr & Hv); [lia|].
    destruct (grouping_ok_slot _ g dcl rl Hok group_id k Hgid Hk)
      as (slot & _ & Hb & Hslot & Hrs & _).
    rewrite Hv in Hb, Hrs. rewrite (go_pos _ _ _ _ Hok).
    exists lo, slot. repeat split; try assumption; lia.
Qed.

Lemma C10_grouper_keeps_the_loop_in_bounds_witness :
  exists g sizeof_member_group ms',
    group_members scenario_b_classify
      (qsort (rd_kafka_group_member_cmp str_cmp) scenario_b_members)
      (rd_list_cnt (members scenario_b_topic)) = Ok g /\
    group_sizes g = Ok sizeof_member_group /\
    assign_topic str_cmp scenario_b_classify scenario_b_members scenario_b_topic = Ok ms' /\
    1 <= recount_member g /\
    (forall i j, 0 <= i < j -> j <= recount_member g ->
       exists a b, vla_read (different_consumers g) i = Ok a /\
                   vla_read (different_consumers g) j = Ok b /\ a < b) /\
    vla_read (resorted_member_lists g) (resorted_member_lists_pos g - 1)
      = Ok (rd_list_cnt (members scenario_b_topic) - 1) /\
    (forall group_id, 0 <= group_id < recount_member g ->
       vla_read sizeof_member_group group_id = Ok (group_size g group_id) /\
       1 <= group_size g group_id) /\
    (forall group_id k,
       0 <= group_id < recount_member g -> 0 <= k < group_size g group_id ->
       exists lo slot,
         vla_read (different_consumers g) group_id = Ok lo /\
         0 <= lo + 1 + k < resorted_member_lists_pos g /\
         vla_read (resorted_member_lists g) (lo + 1 + k) = Ok slot /\
         0 <= slot < rd_list_cnt (members scenario_b_topic)).
Proof.
  apply (C10_grouper_keeps_the_loop_in_bounds str_cmp scenario_b_classify
           scenario_b_members scenario_b_topic scenario_b_metadata).
  - reflexivity.
  - simpl. lia.
Defined.

(** ** The whole pass *)

Section WholePass.

Variable id_cmp : string -> string -> Z.
Variable classify : string -> string -> Z.

Hypothesis id_cmp_total : forall a b, 0 < id_cmp a b -> id_cmp b a <= 0.

Lemma assign_topic_extends (ms : list rd_kafka_group_member_t)
    (t : rd_kafka_assignor_topic_t) :
  topic_ok (length ms) t ->
  exists ms', assign_topic id_cmp classify ms t = Ok ms' /\
    extends (qsort (rd_kafka_group_member_cmp id_cmp) ms) ms'.
Proof.
  intros [[md Hmd] Hn].
  destruct (assign_topic_deal id_cmp classify ms t md Hmd Hn) as (g & _ & _ & _ & _ & _ & H).
  eexists. split; [exact H|]. apply extends_deal.
Qed.

Lemma assign_topics_sorted (topics : list rd_kafka_assignor_topic_t) :
  forall ms : list rd_kafka_group_member_t,
    ids_sorted id_cmp ms ->
    Forall (topic_ok (length ms)) topics ->
    exists ms', assign_topics id_cmp classify ms topics = Ok ms' /\ extends ms ms'.
Proof.
  induction topics as [|t rest IH]; intros ms Hs Hall; simpl.
  - exists ms. split; [reflexivity|apply extends_refl].
  - apply Forall_cons in Hall as [Ht Hrest].
    destruct (assign_topic_extends ms t Ht) as (ms1 & -> & Hext). simpl.
    rewrite qsort_sorted_id in Hext by assumption.
    destruct (IH ms1) as (ms' & H' & Hext').
    + eapply extends_sorted; eassumption.
    + rewrite (extends_length _ _ Hext). assumption.
    + exists ms'. split; [assumption|]. eapply extends_trans; eassumption.
Qed.

(** The pass never faults on topics the caller may pass; it leaves the
    array sorted (when there is a topic) with entries appended. *)
Lemma assign_topics_ok (ms : list rd_kafka_group_member_t)
    (topics : list rd_kafka_assignor_topic_t) :
  Forall (topic_ok (length ms)) topics ->
  exists ms', assign_topics id_cmp classify ms topics = Ok ms' /\
    extends (match topics with
             | [] => ms
             | _ :: _ => qsort (rd_kafka_group_member_cmp id_cmp) ms
             end) ms'.
Proof.
  destruct topics as [|t rest]; intros Hall; simpl.
  - exists ms. split; [reflexivity|apply extends_refl].
  - apply Forall_cons in Hall as [Ht Hrest].
    destruct (assign_topic_extends ms t Ht) as (ms1 & -> & Hext). simpl.
    destruct (assign_topics_sorted rest ms1) as (ms' & H' & Hext').
    + eapply extends_sorted; [eassumption|]. apply qsort_sorted. assumption.
    + rewrite (extends_length _ _ Hext), qsort_length. assumption.
    + exists ms'. split; [assumption|]. eapply extends_trans; eassumption.
Qed.

End WholePass.

(** The identifier comparison of the scenarios is total. *)
Lemma str_cmp_total (a b : string) : 0 < str_cmp a b -> str_cmp b a <= 0.
Proof.
  unfold str_cmp. rewrite (String.compare_antisym a b).
  destruct (String.compare b a); simpl; lia.
Qed.

(** ** Scenario B *)

(** C4: members sorted as A-1, A-2, B-1 with (A-1, A-2) SameGroup and
    (A-2, B-1) Distinct, one topic with 4 partitions: the grouper makes
    the groups {A-1, A-2} of size 2 and {B-1} of size 1, and partitions
    0, 1, 2, 3 go to A-1, B-1, A-2, B-1, so that A-1 = [p0], A-2 = [p2]
    and B-1 = [p1, p3]. *)
Theorem C4_scenario_b :
  qsort (rd_kafka_group_member_cmp str_cmp) scenario_b_members = scenario_b_members /\
  scenario_b_classify "A-1" "A-2" = 1 /\
  scenario_b_classify "A-2" "B-1" = 0 /\
  (exists g,
     group_members scenario_b_classify scenario_b_members 3 = Ok g /\
     recount_member g = 2 /\
     groups_of g = [[0; 1]; [2]] /\
     group_size g 0 = 2 /\ group_size g 1 = 1 /\
     owner g <$> [0; 1; 2; 3] = [0; 2; 1; 2]) /\
  rd_kafka_doubleroundrobin_assignor_assign_cb str_cmp scenario_b_classify
    scenario_b_members [scenario_b_topic] ""
  = Ok {| res_err := 0;
          res_members :=
            [ {| rkgm_member_id := "A-1"; rkgm_subscription := ["t"%string];
                 rkgm_assignment := [("t"%string, 0)] |};
              {| rkgm_member_id := "A-2"; rkgm_subscription := ["t"%string];
                 rkgm_assignment := [("t"%string, 2)] |};
              {| rkgm_member_id := "B-1"; rkgm_subscription := ["t"%string];
                 rkgm_assignment := [("t"%string, 1); ("t"%string, 3)] |} ];
          res_errstr := "" |}.
Proof.
  split; [reflexivity|]. split; [reflexivity|]. split; [reflexivity|]. split.
  - eexists. split; [reflexivity|]. repeat split.
  - reflexivity.
Qed.

(** ** Members outside the eligible list *)

(** C5, the code at the failing input: A subscribes to "u" only and B,
    in slot 1, is the one eligible member of "t"; the pass takes the
    count 1 from the eligible list and then works on slot 0 of the whole
    member array, so partition 0 of "t" is appended to A. *)
Theorem C5_partition_goes_to_a_member_that_is_not_eligible :
  members <$> two_subscriptions_topics = [[1%nat]] /\
  rkgm_subscription <$> two_subscriptions_members = [["u"%string]; ["t"%string]] /\
  rd_kafka_doubleroundrobin_assignor_assign_cb str_cmp classify_distinct
    two_subscriptions_members two_subscriptions_topics ""
  = Ok {| res_err := 0;
          res_members :=
            [ {| rkgm_member_id := "A"; rkgm_subscription := ["u"%string];
                 rkgm_assignment := [("t"%string, 0)] |};
              {| rkgm_member_id := "B"; rkgm_subscription := ["t"%string];
                 rkgm_assignment := [] |} ];
          res_errstr := "" |}.
Proof. repeat split. Qed.

(** ** A topic without eligible members *)

(** C6 as stated fails: for a topic with one partition and no eligible
    member the pass is not a no-op that returns success. *)
Lemma C6_counterexample :
  rd_kafka_doubleroundrobin_assignor_assign_cb str_cmp classify_distinct
    nobody_eligible_members nobody_eligible_topics ""
  = Fault OutOfBounds /\
  rd_kafka_doubleroundrobin_assignor_assign_cb str_cmp classify_distinct
    nobody_eligible_members nobody_eligible_topics ""
  <> Ok {| res_err := 0; res_members := nobody_eligible_members; res_errstr := "" |}.
Proof. split; [reflexivity|discriminate]. Qed.

(** C6, amended: the pass has no path for a topic with zero eligible
    members.  The grouper still closes a last group: with
    [recount_member] at 1 it stores the closing boundary into
    [different_consumers[1]], outside the one-cell array that
    [int different_consumers[member_cnt + 1]] declares, whatever the
    members, the metadata, the partition count and the topics that
    follow; the pass is never a no-op for such a topic. *)
Theorem C6_no_path_for_zero_eligible_members
    (id_cmp classify : string -> string -> Z)
    (ms : list rd_kafka_group_member_t)
    (md : option rd_kafka_metadata_topic_t)
    (rest : list rd_kafka_assignor_topic_t) (errstr : string) :
  for_loop (group_step classify (qsort (rd_kafka_group_member_cmp id_cmp) ms))
    (Z.to_nat (0 - 1)) 0
    {| different_consumers := [Some (-1)]; recount_member := 1;
       resorted_member_lists := vla_new (0 + 1); resorted_member_lists_pos := 0 |}
  = Ok {| different_consumers := [Some (-1)]; recount_member := 1;
          resorted_member_lists := [None]; resorted_member_lists_pos := 0 |} /\
  vla_write [Some (-1)] 1 0 = Fault OutOfBounds /\
  group_members classify (qsort (rd_kafka_group_member_cmp id_cmp) ms) 0
  = Fault OutOfBounds /\
  rd_kafka_doubleroundrobin_assignor_assign_cb id_cmp classify ms
    ({| metadata := md; members := [] |} :: rest) errstr
  = Fault OutOfBounds.
Proof. repeat split. Qed.

(** ** Errors *)

(** C7 as stated fails: a topic without metadata makes the pass
    dereference a null pointer after the first topic has been assigned,
    and a topic with a partition count of -1 is skipped in silence; in
    neither case is an error reported. *)
Lemma C7_counterexample :
  rd_kafka_doubleroundrobin_assignor_assign_cb str_cmp classify_distinct
    one_member topics_missing_metadata ""
  = Fault NullDeref /\
  rd_kafka_doubleroundrobin_assignor_assign_cb str_cmp classify_distinct
    one_member topics_malformed_metadata ""
  = Ok {| res_err := 0;
          res_members :=
            [ {| rkgm_member_id := "C0"; rkgm_subscription := ["t0"; "t1"]%string;
                 rkgm_assignment := [("t0"%string, 0)] |} ];
          res_errstr := "" |} /\
  ~ error_reported
      (rd_kafka_doubleroundrobin_assignor_assign_cb str_cmp classify_distinct
         one_member topics_missing_metadata "") one_member "" /\
  ~ error_reported
      (rd_kafka_doubleroundrobin_assignor_assign_cb str_cmp classify_distinct
         one_member topics_malformed_metadata "") one_member "".
Proof.
  split; [reflexivity|]. split; [reflexivity|]. split.
  - intros (r & H & _). discriminate H.
  - intros (r & H & Herr & _). injection H as <-. apply Herr. reflexivity.
Qed.

(** C7, amended: the entry point has no error path.  It does not check
    the metadata, never stores to [errstr], and whenever it returns it
    returns 0; on topics the caller may pass (metadata present, between
    one eligible member and as many as the array holds) it does return,
    whatever their partition counts. *)
Theorem C7_assign_returns_success_and_leaves_errstr
    (id_cmp classify : string -> string -> Z)
    (ms : list rd_kafka_group_member_t)
    (topics : list rd_kafka_assignor_topic_t) (errstr : string) :
  (forall a b, 0 < id_cmp a b -> id_cmp b a <= 0) ->
  Forall (topic_ok (length ms)) topics ->
  (exists ms',
     rd_kafka_doubleroundrobin_assignor_assign_cb id_cmp classify ms topics errstr
     = Ok {| res_err := 0; res_members := ms'; res_errstr := errstr |}) /\
  (forall ms0 topics0 errstr0 r,
     rd_kafka_doubleroundrobin_assignor_assign_cb id_cmp classify ms0 topics0 errstr0 = Ok r ->
     res_err r = 0 /\ res_errstr r = errstr0).
Proof.
  intros Htotal Hall. split.
  - destruct (assign_topics_ok id_cmp classify Htotal ms topics Hall) as (ms' & H & _).
    exists ms'. unfold rd_kafka_doubleroundrobin_assignor_assign_cb. rewrite H. reflexivity.
  - intros ms0 topics0 errstr0 r.
    unfold rd_kafka_doubleroundrobin_assignor_assign_cb.
    destruct (assign_topics id_cmp classify ms0 topics0); simpl; [|discriminate].
    intros [= <-]. split; reflexivity.
Qed.

Lemma C7_assign_returns_success_and_leaves_errstr_witness :
  (exists ms',
     rd_kafka_doubleroundrobin_assignor_assign_cb str_cmp classify_distinct
       one_member topics_malformed_metadata ""
     = Ok {| res_err := 0; res_members := ms'; res_errstr := "" |}) /\
  (forall ms0 topics0 errstr0 r,
     rd_kafka_doubleroundrobin_assignor_assign_cb str_cmp classify_distinct
       ms0 topics0 errstr0 = Ok r ->
     res_err r = 0 /\ res_errstr r = errstr0).
Proof.
  apply (C7_assign_returns_success_and_leaves_errstr str_cmp classify_distinct
           one_member topics_malformed_metadata "").
  - exact str_cmp_total.
  - repeat constructor; simpl; eauto.
Defined.

(** ** Frame *)

(** C8 as stated fails: the caller's array [B; A] comes back as [A; B]
    although no partition was assigned. *)
Lemma C8_counterexample :
  exists r,
    rd_kafka_doubleroundrobin_assignor_assign_cb str_cmp classify_distinct
      unsorted_members empty_topic "" = Ok r /\
    rkgm_member_id <$> unsorted_members = ["B"; "A"]%string /\
    rkgm_member_id <$> res_members r = ["A"; "B"]%string /\
    res_members r <> unsorted_members.
Proof.
  eexists. split; [reflexivity|]. split; [reflexivity|]. split; [reflexivity|].
  discriminate.
Qed.

(** C8, amended: one invocation sorts the caller's member array in place
    by member id as soon as there is one eligible topic, and appends
    entries to assignment lists; it has no other effect.  The array that
    comes back holds, slot by slot, the members of the sorted input (the
    input itself when there is no topic), each with its id and its
    subscription unchanged and its assignment list extended at the end;
    the sorted input is a permutation of the input; the error buffer is
    as it was. *)
Theorem C8_assign_sorts_and_appends_only
    (id_cmp classify : string -> string -> Z)
    (ms : list rd_kafka_group_member_t)
    (topics : list rd_kafka_assignor_topic_t) (errstr : string) :
  (forall a b, 0 < id_cmp a b -> id_cmp b a <= 0) ->
  Forall (topic_ok (length ms)) topics ->
  exists ms',
    rd_kafka_doubleroundrobin_assignor_assign_cb id_cmp classify ms topics errstr
    = Ok {| res_err := 0; res_members := ms'; res_errstr := errstr |} /\
    extends (match topics with
             | [] => ms
             | _ :: _ => qsort (rd_kafka_group_member_cmp id_cmp) ms
             end) ms' /\
    qsort (rd_kafka_group_member_cmp id_cmp) ms ≡ₚ ms /\
    ids_sorted id_cmp (qsort (rd_kafka_group_member_cmp id_cmp) ms).
Proof.
  intros Htotal Hall.
  destruct (assign_topics_ok id_cmp classify Htotal ms topics Hall) as (ms' & H & Hext).
  exists ms'. split; [|split; [exact Hext|split]].
  - unfold rd_kafka_doubleroundrobin_assignor_assign_cb. rewrite H. reflexivity.
  - apply qsort_perm.
  - apply qsort_sorted. exact Htotal.
Qed.

Lemma C8_assign_sorts_and_appends_only_witness :
  exists ms',
    rd_kafka_doubleroundrobin_assignor_assign_cb str_cmp classify_distinct
      unsorted_members three_partition_topic ""
    = Ok {| res_err := 0; res_members := ms'; res_errstr := "" |} /\
    extends (qsort (rd_kafka_group_member_cmp str_cmp) unsorted_members) ms' /\
    qsort (rd_kafka_group_member_cmp str_cmp) unsorted_members ≡ₚ unsorted_members /\
    ids_sorted str_cmp (qsort (rd_kafka_group_member_cmp str_cmp) unsorted_members).
Proof.
  apply (C8_assign_sorts_and_appends_only str_cmp classify_distinct
           unsorted_members three_partition_topic "").
  - exact str_cmp_total.
  - repeat constructor; simpl; eauto.
Defined.

(** ** Without replicas *)

Lemma seqZ_snoc (m n : Z) : 0 <= n -> seqZ m (n + 1) = seqZ m n ++ [m + n].
Proof.
  intros Hn. rewrite seqZ_app by lia. rewrite (seqZ_cons _ 1) by lia. reflexivity.
Qed.

Lemma alter_lookup_insert {A : Type} (f : A -> A) (l : list A) (i : nat) (x : A) :
  l !! i = Some x -> alter f i l = <[i := f x]> l.
Proof.
  revert i. induction l as [|y l IH]; intros [|i] H; simpl in *; try discriminate.
  - injection H as ->. reflexivity.
  - f_equal. apply IH. assumption.
Qed.

Lemma new_entries_ext (name : string) (own own' : Z -> Z) (slot : Z) (P : nat) :
  (forall p, 0 <= p < Z.of_nat P -> own p = own' p) ->
  new_entries name own (Z.of_nat P) slot = new_entries name own' (Z.of_nat P) slot.
Proof.
  induction P as [|P IH]; intros H; [reflexivity|].
  rewrite Nat2Z.inj_succ, <- Z.add_1_r, !new_entries_step by lia.
  rewrite IH by (intros p Hp; apply H; lia).
  rewrite (H (Z.of_nat P)) by lia. reflexivity.
Qed.

Lemma deal_ext (ms : list rd_kafka_group_member_t) (name : string)
    (own own' : Z -> Z) (P : Z) :
  (forall p, 0 <= p < P -> own p = own' p) ->
  deal ms name own P = deal ms name own' P.
Proof.
  intros H. rewrite <- (deal_clamp ms name own), <- (deal_clamp ms name own').
  apply list_eq. intros j. rewrite !deal_lookup.
  destruct (ms !! j); [|reflexivity]. simpl. do 2 f_equal.
  apply new_entries_ext. intros p Hp. apply H. lia.
Qed.

Section NoReplicas.

Variable classify : string -> string -> Z.

Lemma group_members_all_distinct (ms : list rd_kafka_group_member_t) (n : Z) :
  all_distinct classify (rkgm_member_id <$> ms) ->
  1 <= n <= Z.of_nat (length ms) ->
  group_members classify ms n = Ok (singleton_grouping n).
Proof.
  intros Hall Hn. unfold group_members.
  pose proof (vla_write_push (n + 1) [] (-1)) as H0.
  change (Z.of_nat (length (@nil Z))) with 0 in H0.
  rewrite vla_new_of, H0 by lia. clear H0. simpl.
  destruct (for_loop_inv
              (fun i g => g = {| different_consumers := vla_of (n + 1) (seqZ (-1) (i + 1));
                                 recount_member := i + 1;
                                 resorted_member_lists := vla_of (n + 1) (seqZ 0 i);
                                 resorted_member_lists_pos := i |})
              (group_step classify ms) (Z.to_nat (n - 1)) 0
              {| different_consumers := vla_of (n + 1) [-1];
                 recount_member := 1;
                 resorted_member_lists := vla_of (n + 1) [];
                 resorted_member_lists_pos := 0 |}) as (g & -> & Hg).
  - reflexivity.
  - intros i g0 Hi ->.
    destruct (lookup_lt_is_Some_2 ms (Z.to_nat i)) as [a Ha]; [lia|].
    destruct (lookup_lt_is_Some_2 ms (Z.to_nat (i + 1))) as [b Hb]; [lia|].
    eexists. unfold group_step.
    rewrite (arr_get_ok ms i a) by (lia || assumption). simpl.
    rewrite (arr_get_ok ms (i + 1) b) by (lia || assumption). simpl.
    rewrite (Hall (Z.to_nat i) (rkgm_member_id a) (rkgm_member_id b)).
    2:{ rewrite list_lookup_fmap, Ha. reflexivity. }
    2:{ replace (S (Z.to_nat i)) with (Z.to_nat (i + 1)) by lia.
        rewrite list_lookup_fmap, Hb. reflexivity. }
    rewrite (vla_write_at_fill _ (seqZ (-1) (i + 1)) (i + 1) i)
      by (rewrite ?length_seqZ; lia).
    simpl.
    rewrite (vla_write_at_fill _ (seqZ 0 i) i i) by (rewrite ?length_seqZ; lia).
    simpl.
    split; [reflexivity|].
    rewrite (seqZ_snoc (-1) (i + 1)), (seqZ_snoc 0 i) by lia.
    replace (-1 + (i + 1)) with i by lia. reflexivity.
  - subst g. replace (0 + Z.of_nat (Z.to_nat (n - 1))) with (n - 1) by lia. simpl.
    rewrite (vla_write_at_fill _ (seqZ (-1) (n - 1 + 1)) (n - 1 + 1) (n - 1))
      by (rewrite ?length_seqZ; lia).
    simpl.
    rewrite (vla_write_at_fill _ (seqZ 0 (n - 1)) (n - 1) (n - 1))
      by (rewrite ?length_seqZ; lia).
    simpl.
    pose proof (seqZ_snoc (-1) (n - 1 + 1) ltac:(lia)) as H1.
    pose proof (seqZ_snoc 0 (n - 1) ltac:(lia)) as H2.
    replace (-1 + (n - 1 + 1)) with (n - 1) in H1 by lia.
    replace (0 + (n - 1)) with (n - 1) in H2 by lia.
    rewrite <- H1, <- H2. unfold singleton_grouping.
    replace (n - 1 + 1 + 1) with (n + 1) by lia.
    replace (n - 1 + 1) with n by lia. reflexivity.
Qed.

(** With groups of size 1 the two-level rotation is the one-level one. *)
Lemma owner_singleton (n p : Z) : 1 <= n -> 0 <= p -> owner (singleton_grouping n) p = p mod n.
Proof.
  intros Hn Hp. unfold owner. simpl.
  assert (0 <= p mod n < n) as Hg by (apply Z.mod_pos_bound; lia).
  set (gid := p mod n) in *.
  assert (vla_val (vla_of (n + 1) (seqZ (-1) (n + 1))) gid = gid - 1) as Hlo.
  { apply vla_val_of; [lia|]. apply lookup_seqZ. lia. }
  assert (vla_val (vla_of (n + 1) (seqZ (-1) (n + 1))) (gid + 1) = gid) as Hhi.
  { apply vla_val_of; [lia|]. apply lookup_seqZ. lia. }
  unfold group_size, group_slot. simpl. rewrite Hlo, Hhi.
  replace (gid - (gid - 1)) with 1 by lia. rewrite Z.mod_1_r.
  apply vla_val_of; [lia|]. apply lookup_seqZ. lia.
Qed.

End NoReplicas.

Lemma plain_round_robin_partitions_deal (ms : list rd_kafka_group_member_t)
    (name : string) (n : Z) :
  1 <= n <= Z.of_nat (length ms) ->
  forall (c : nat) (p : Z), 0 <= p ->
    plain_round_robin_partitions name n c p (deal ms name (fun q => q mod n) p)
      = deal ms name (fun q => q mod n) (p + Z.of_nat c).
Proof.
  intros Hn. induction c as [|c IH]; intros p Hp; simpl.
  - rewrite Z.add_0_r. reflexivity.
  - assert (0 <= p mod n < n) as Hm by (apply Z.mod_pos_bound; lia).
    destruct (lookup_lt_is_Some_2 (deal ms name (fun q => q mod n) p) (Z.to_nat (p mod n)))
      as [rkgm Hr]; [rewrite deal_length; lia|].
    rewrite (alter_lookup_insert _ _ _ rkgm Hr).
    rewrite (deal_step ms name (fun q => q mod n) p rkgm) by (lia || assumption).
    rewrite IH by lia. f_equal. lia.
Qed.

(** ** Plain round robin and the eligible list *)

(** C9, the code at a failing input without replicas: A subscribes to
    "u" only and B, in slot 1, is the one eligible member of "t".  Plain
    round robin over the topic's sorted eligible members, which are B
    alone, gives partition 0 of "t" to B and nothing to A; the pass gives
    it to A and nothing to B.  The defect is the one of C5: the count is
    that of the eligible list, the slots are those of the whole array. *)
Theorem C9_plain_round_robin_differs_when_a_member_is_not_eligible :
  all_distinct classify_distinct
    (rkgm_member_id <$> qsort (rd_kafka_group_member_cmp str_cmp) two_subscriptions_members) /\
  sorted_eligible_ids str_cmp two_subscriptions_members (mk_topic "t" 1 [1%nat])
  = ["B"%string] /\
  plain_round_robin_assignment str_cmp two_subscriptions_members
    two_subscriptions_topics "A" = [] /\
  plain_round_robin_assignment str_cmp two_subscriptions_members
    two_subscriptions_topics "B" = [("t"%string, 0)] /\
  exists r,
    rd_kafka_doubleroundrobin_assignor_assign_cb str_cmp classify_distinct
      two_subscriptions_members two_subscriptions_topics "" = Ok r /\
    rkgm_member_id <$> res_members r = ["A"; "B"]%string /\
    rkgm_assignment <$> res_members r = [[("t"%string, 0)]; []] /\
    ~ is_plain_round_robin str_cmp two_subscriptions_members two_subscriptions_topics r.
Proof.
  split; [intros i a b _ _; reflexivity|].
  split; [reflexivity|]. split; [reflexivity|]. split; [reflexivity|].
  eexists. split; [reflexivity|]. split; [reflexivity|]. split; [reflexivity|].
  unfold is_plain_round_robin. intros Hperm.
  assert ({| rkgm_member_id := "A"; rkgm_subscription := ["u"%string];
             rkgm_assignment := [("t"%string, 0)] |}
          ∈ (fun m =>
               {| rkgm_member_id := rkgm_member_id m;
                  rkgm_subscription := rkgm_subscription m;
                  rkgm_assignment :=
                    rkgm_assignment m
                      ++ plain_round_robin_assignment str_cmp two_subscriptions_members
                           two_subscriptions_topics (rkgm_member_id m) |})
              <$> two_subscriptions_members) as Hin.
  { rewrite <- Hperm. left. }
  apply list_elem_of_fmap in Hin as (m & Hm & Hin).
  apply elem_of_cons in Hin as [->|Hin]; [discriminate Hm|].
  apply list_elem_of_singleton in Hin as ->. discriminate Hm.
Qed.

(** ** The grouper in closed form *)

Lemma vla_of_lookup (cap : Z) (l : list Z) (i : nat) (x : Z) :
  (vla_of cap l : list (option Z)) !! i = Some (Some x) <-> l !! i = Some x.
Proof.
  unfold vla_of. destruct (decide (i < length l)%nat) as [Hi|Hi].
  - rewrite lookup_app_l by (rewrite length_fmap; lia).
    rewrite list_lookup_fmap. destruct (l !! i); simpl; split; congruence.
  - rewrite lookup_app_r by (rewrite length_fmap; lia).
    rewrite (lookup_ge_None_2 l i) by lia. split; [|discriminate].
    intros H. apply lookup_replicate in H as [H _]. discriminate.
Qed.

Lemma vla_of_inj (cap : Z) (l1 l2 : list Z) : vla_of cap l1 = vla_of cap l2 -> l1 = l2.
Proof.
  intros H. apply list_eq. intros i.
  destruct (l1 !! i) as [x|] eqn:E1.
  - apply (vla_of_lookup cap) in E1. rewrite H in E1. apply vla_of_lookup in E1. congruence.
  - destruct (l2 !! i) as [y|] eqn:E2; [|reflexivity].
    apply (vla_of_lookup cap) in E2. rewrite <- H in E2. apply vla_of_lookup in E2. congruence.
Qed.

Section GrouperClosedForm.

Variable classify : string -> string -> Z.
Variable ms : list rd_kafka_group_member_t.

Lemma retained_before_length (i : nat) :
  (length (retained_before classify ms i) <= i)%nat.
Proof.
  induction i as [|i IH]; simpl; [lia|].
  rewrite length_app. destruct (status_retains _); simpl; lia.
Qed.

Lemma boundaries_before_length (i : nat) :
  (1 <= length (boundaries_before classify ms i) <= i + 1)%nat.
Proof.
  induction i as [|i IH]; simpl; [lia|].
  rewrite length_app. destruct (_ =? 0); simpl; lia.
Qed.

Lemma retained_before_elem (i : nat) (x : Z) :
  x ∈ retained_before classify ms i <->
  exists j : nat, (j < i)%nat /\ x = Z.of_nat j /\
                  status_retains (pair_status classify ms j) = true.
Proof.
  induction i as [|i IH]; simpl.
  - split; [intros H; inversion H|intros (j & Hj & _); lia].
  - rewrite elem_of_app, IH. split.
    + intros [(j & Hj & Hx & Hs)|H].
      * exists j. repeat split; [lia|assumption|assumption].
      * destruct (status_retains (pair_status classify ms i)) eqn:E; [|inversion H].
        apply list_elem_of_singleton in H. exists i. repeat split; [lia|assumption|assumption].
    + intros (j & Hj & Hx & Hs).
      destruct (decide (j = i)) as [->|Hne].
      * right. rewrite Hs. apply list_elem_of_singleton. assumption.
      * left. exists j. repeat split; [lia|assumption|assumption].
Qed.

Lemma boundaries_before_count (i : nat) :
  length (boundaries_before classify ms i)
  = S (length (filter (fun j => pair_status classify ms j = 0) (seq 0 i))).
Proof.
  induction i as [|i IH]; [reflexivity|].
  simpl boundaries_before. rewrite seq_S, filter_app, !length_app, IH. simpl.
  rewrite filter_cons, filter_nil.
  destruct (Z.eqb_spec (pair_status classify ms i) 0) as [E|E];
    destruct (decide (pair_status classify ms i = 0)); try contradiction; simpl; lia.
Qed.

Lemma retained_before_count (i : nat) :
  length (retained_before classify ms i)
  = length (filter (fun j => status_retains (pair_status classify ms j) = true) (seq 0 i)).
Proof.
  induction i as [|i IH]; [reflexivity|].
  simpl retained_before. rewrite seq_S, filter_app, !length_app, IH. simpl.
  rewrite filter_cons, filter_nil.
  destruct (status_retains (pair_status classify ms i)) eqn:E;
    destruct (decide (_ = true)) as [D|D]; congruence || reflexivity.
Qed.

Lemma group_step_exact (n i : Z) :
  0 <= i -> i + 1 < Z.of_nat (length ms) -> i + 1 < n ->
  group_step classify ms i (grouping_before classify ms n (Z.to_nat i))
  = Ok (grouping_before classify ms n (Z.to_nat (i + 1))).
Proof.
  intros Hi Hlen Hn.
  destruct (lookup_lt_is_Some_2 ms (Z.to_nat i)) as [a Ha]; [lia|].
  destruct (lookup_lt_is_Some_2 ms (S (Z.to_nat i))) as [b Hb]; [lia|].
  pose proof (retained_before_length (Z.to_nat i)) as Hr.
  pose proof (boundaries_before_length (Z.to_nat i)) as Hb'.
  replace (Z.to_nat (i + 1)) with (S (Z.to_nat i)) by lia.
  unfold group_step.
  rewrite (arr_get_ok ms i a) by (lia || assumption). simpl obind.
  rewrite (arr_get_ok ms (i + 1) b)
    by (try lia; replace (Z.to_nat (i + 1)) with (S (Z.to_nat i)) by lia; assumption).
  simpl obind.
  assert (pair_status classify ms (Z.to_nat i)
          = classify (rkgm_member_id a) (rkgm_member_id b)) as Hst
    by (unfold pair_status; rewrite Ha, Hb; reflexivity).
  unfold grouping_before.
  cbn [retained_before boundaries_before different_consumers recount_member
       resorted_member_lists resorted_member_lists_pos].
  rewrite Hst.
  rewrite (vla_write_at_fill _ (retained_before classify ms (Z.to_nat i)) _ i) by lia.
  rewrite (vla_write_at_fill _ (boundaries_before classify ms (Z.to_nat i)) _ _) by lia.
  rewrite Z2Nat.id by lia.
  destruct (classify (rkgm_member_id a) (rkgm_member_id b)) as [|[q|q|]|q]; simpl;
    rewrite ?app_nil_r, ?length_app; simpl; repeat f_equal; lia.
Qed.

(** Lines 78-103 compute [grouping_of]. *)
Lemma group_members_exact (n : Z) :
  1 <= n <= Z.of_nat (length ms) ->
  group_members classify ms n = Ok (grouping_of classify ms n).
Proof.
  intros Hn. unfold group_members.
  pose proof (vla_write_push (n + 1) [] (-1)) as H0.
  change (Z.of_nat (length (@nil Z))) with 0 in H0.
  rewrite vla_new_of, H0 by lia. clear H0. simpl obind.
  destruct (for_loop_inv
              (fun i g => g = grouping_before classify ms n (Z.to_nat i))
              (group_step classify ms) (Z.to_nat (n - 1)) 0
              {| different_consumers := vla_of (n + 1) [-1];
                 recount_member := 1;
                 resorted_member_lists := vla_of (n + 1) [];
                 resorted_member_lists_pos := 0 |}) as (g & -> & Hg).
  - reflexivity.
  - intros i g0 Hi ->. eexists. split; [apply group_step_exact; lia|reflexivity].
  - subst g. replace (Z.to_nat (0 + Z.of_nat (Z.to_nat (n - 1)))) with (Z.to_nat (n - 1)) by lia.
    pose proof (retained_before_length (Z.to_nat (n - 1))) as Hr.
    pose proof (boundaries_before_length (Z.to_nat (n - 1))) as Hb.
    unfold grouping_before. simpl.
    rewrite (vla_write_at_fill _ (boundaries_before classify ms (Z.to_nat (n - 1))) _ _) by lia.
    simpl obind.
    rewrite (vla_write_at_fill _ (retained_before classify ms (Z.to_nat (n - 1))) _ _) by lia.
    reflexivity.
Qed.

(** The boundaries and retained slots of [grouping_of] are those of a
    well-formed grouping. *)
Lemma grouping_of_ok (n : Z) :
  1 <= n <= Z.of_nat (length ms) ->
  grouping_ok n (grouping_of classify ms n)
    (boundaries_before classify ms (Z.to_nat (n - 1))
       ++ [Z.of_nat (length (retained_before classify ms (Z.to_nat (n - 1))))])
    (retained_before classify ms (Z.to_nat (n - 1)) ++ [n - 1]).
Proof.
  intros Hn.
  destruct (group_members_ok classify n ms Hn) as (g & dcl & rl & Hg & Hok).
  rewrite group_members_exact in Hg by assumption. injection Hg as <-.
  pose proof (go_dc _ _ _ _ Hok) as Hdc. pose proof (go_rml _ _ _ _ Hok) as Hrml.
  simpl in Hdc, Hrml. apply vla_of_inj in Hdc. apply vla_of_inj in Hrml.
  rewrite Hdc, Hrml. exact Hok.
Qed.

End GrouperClosedForm.

Lemma sumZ_diffs (l : list Z) (a b : Z) :
  l !! 0%nat = Some a -> l !! (length l - 1)%nat = Some b -> sumZ (diffs l) = b - a.
Proof.
  revert a. induction l as [|x [|y l] IH]; intros a Ha Hb; [discriminate| |].
  - simpl in *. injection Ha as ->. injection Hb as ->. lia.
  - change (diffs (x :: y :: l)) with ((y - x) :: diffs (y :: l)).
    simpl in Ha. injection Ha as ->.
    change (sumZ ((y - a) :: diffs (y :: l))) with ((y - a) + sumZ (diffs (y :: l))).
    rewrite (IH y); [lia|reflexivity|].
    replace (length (a :: y :: l) - 1)%nat with (S (length (y :: l) - 1)) in Hb
      by (simpl; lia).
    exact Hb.
Qed.

Section GroupingCover.

Variables (n : Z) (g : grouping) (dcl rl : list Z).
Hypothesis Hok : grouping_ok n g dcl rl.

Lemma group_sizes_list :
  group_size g <$> seqZ 0 (recount_member g) = diffs dcl.
Proof.
  pose proof (go_groups _ _ _ _ Hok) as HG.
  pose proof (go_recount _ _ _ _ Hok) as HR.
  apply list_eq. intros j.
  destruct (decide (Z.of_nat j < recount_member g)) as [Hj|Hj].
  - destruct (grouping_ok_size n g dcl rl Hok (Z.of_nat j) ltac:(lia))
      as (lo & hi & _ & _ & _ & _ & Hs & Hd).
    rewrite Nat2Z.id in Hd. rewrite Hd, list_lookup_fmap.
    rewrite (proj2 (lookup_seqZ 0 (recount_member g) j (Z.of_nat j))) by lia.
    simpl. rewrite Hs. reflexivity.
  - rewrite !lookup_ge_None_2; [reflexivity| |].
    + rewrite diffs_length. lia.
    + rewrite length_fmap, length_seqZ. lia.
Qed.

(** The sizes of the groups add up to the number of retained slots. *)
Lemma group_sizes_sum :
  sumZ (group_size g <$> seqZ 0 (recount_member g)) = resorted_member_lists_pos g.
Proof.
  rewrite group_sizes_list.
  pose proof (go_recount _ _ _ _ Hok) as HR. pose proof (go_groups _ _ _ _ Hok) as HG.
  rewrite (sumZ_diffs dcl (-1) (Z.of_nat (length rl) - 1)).
  - rewrite (go_pos _ _ _ _ Hok). lia.
  - apply (go_dcl_head _ _ _ _ Hok).
  - replace (length dcl - 1)%nat with (Z.to_nat (recount_member g)) by lia.
    apply (go_dcl_last _ _ _ _ Hok).
Qed.

(** Every cell below the fill position belongs to a place of a group. *)
Lemma grouping_ok_cover (x : Z) :
  0 <= x < Z.of_nat (length rl) ->
  exists group_id k,
    0 <= group_id < recount_member g /\ 0 <= k < group_size g group_id /\
    vla_val (different_consumers g) group_id + 1 + k = x.
Proof.
  intros Hx. pose proof (go_groups _ _ _ _ Hok) as HG.
  assert (forall m : nat, Z.of_nat m <= recount_member g ->
            forall hi, dcl !! m = Some hi -> x <= hi ->
            exists group_id k,
              0 <= group_id < Z.of_nat m /\ 0 <= k < group_size g group_id /\
              vla_val (different_consumers g) group_id + 1 + k = x) as Hind.
  { induction m as [|m IH]; intros Hm hi Hhi Hle.
    - rewrite (go_dcl_head _ _ _ _ Hok) in Hhi. injection Hhi as <-. lia.
    - destruct (grouping_ok_size n g dcl rl Hok (Z.of_nat m) ltac:(lia))
        as (lo & hi' & Hlo & Hhi' & Hlt & _ & Hs & _).
      replace (Z.to_nat (Z.of_nat m + 1)) with (S m) in Hhi' by lia.
      rewrite Nat2Z.id in Hlo. assert (hi' = hi) as -> by congruence.
      destruct (grouping_ok_boundary n g dcl rl Hok (Z.of_nat m) ltac:(lia))
        as (lo' & Hlo' & _ & _ & Hv).
      rewrite Nat2Z.id in Hlo'. assert (lo' = lo) as -> by congruence.
      destruct (Z.le_gt_cases x lo) as [Hxl|Hxl].
      + destruct (IH ltac:(lia) lo Hlo Hxl) as (gid & k & Hg & Hk & E).
        exists gid, k. repeat split; try lia.
      + exists (Z.of_nat m), (x - lo - 1). rewrite Hs, Hv. repeat split; lia. }
  destruct (Hind (Z.to_nat (recount_member g)) ltac:(lia) _ (go_dcl_last _ _ _ _ Hok) ltac:(lia))
    as (gid & k & Hg & Hk & E).
  exists gid, k. repeat split; try lia.
Qed.

(** The slots at the places of the groups are the retained slots. *)
Lemma group_slot_retained (slot : Z) :
  (exists group_id k,
     0 <= group_id < recount_member g /\ 0 <= k < group_size g group_id /\
     group_slot g group_id k = slot) <-> slot ∈ rl.
Proof.
  split.
  - intros (gid & k & Hg & Hk & <-).
    destruct (grouping_ok_slot n g dcl rl Hok gid k Hg Hk) as (s & Hs & _ & _ & _ & ->).
    eapply list_elem_of_lookup_2. exact Hs.
  - intros Hin. apply list_elem_of_lookup_1 in Hin as [i Hi].
    destruct (grouping_ok_cover (Z.of_nat i)) as (gid & k & Hg & Hk & E).
    { apply lookup_lt_Some in Hi. lia. }
    exists gid, k. split; [assumption|]. split; [assumption|].
    destruct (grouping_ok_slot n g dcl rl Hok gid k Hg Hk) as (s & Hs & _ & _ & _ & ->).
    rewrite E, Nat2Z.id in Hs. congruence.
Qed.

(** Every partition goes to a retained slot. *)
Lemma owner_retained (p : Z) : 0 <= p -> owner g p ∈ rl.
Proof.
  intros Hp. pose proof (go_groups _ _ _ _ Hok) as HG.
  apply group_slot_retained.
  assert (0 <= p mod recount_member g < recount_member g) as Hg
    by (apply Z.mod_pos_bound; lia).
  pose proof (grouping_ok_size_pos n g dcl rl Hok _ Hg) as HS.
  eexists _, _. split; [exact Hg|]. split; [|reflexivity].
  apply Z.mod_pos_bound. lia.
Qed.

End GroupingCover.

Lemma count_below_none (f : Z -> bool) (P : nat) :
  (forall p, 0 <= p < Z.of_nat P -> f p = false) -> count_below f P = 0.
Proof.
  induction P as [|P IH]; intros H; simpl; [reflexivity|].
  rewrite IH by (intros p Hp; apply H; lia). rewrite H by lia. reflexivity.
Qed.

(** ** Properties of the grouper *)

(** X1: the grouper makes one group more than there are pairs of
    neighbours, among the first n members of the array, that are
    classified 0 (Distinct); pairs classified otherwise never open a
    group. *)
Theorem X1_one_group_per_distinct_pair
    (classify : string -> string -> Z) (ms : list rd_kafka_group_member_t) (n : Z) :
  1 <= n <= Z.of_nat (length ms) ->
  exists g,
    group_members classify ms n = Ok g /\
    recount_member g
    = 1 + Z.of_nat (length (filter (fun i => pair_status classify ms i = 0)
                              (seq 0 (Z.to_nat (n - 1))))).
Proof.
  intros Hn. exists (grouping_of classify ms n).
  split; [apply group_members_exact; assumption|].
  simpl. rewrite boundaries_before_count. lia.
Qed.

Lemma X1_one_group_per_distinct_pair_witness :
  exists g,
    group_members scenario_b_classify scenario_b_members 3 = Ok g /\
    recount_member g
    = 1 + Z.of_nat (length (filter (fun i => pair_status scenario_b_classify
                                               scenario_b_members i = 0)
                              (seq 0 (Z.to_nat (3 - 1))))).
Proof.
  apply (X1_one_group_per_distinct_pair scenario_b_classify scenario_b_members 3).
  simpl. lia.
Defined.

(** X2: a slot holds a place in some group exactly when it is the last
    of the n slots, or an earlier one whose classification against its
    successor is 0 or 1; a slot classified 2, or any value the switch has
    no case for, is in no group. *)
Theorem X2_slots_in_groups
    (classify : string -> string -> Z) (ms : list rd_kafka_group_member_t) (n : Z) :
  1 <= n <= Z.of_nat (length ms) ->
  exists g,
    group_members classify ms n = Ok g /\
    forall slot,
      (exists group_id k,
         0 <= group_id < recount_member g /\ 0 <= k < group_size g group_id /\
         group_slot g group_id k = slot)
      <-> (slot = n - 1 \/
           (0 <= slot < n - 1 /\
            (pair_status classify ms (Z.to_nat slot) = 0 \/
             pair_status classify ms (Z.to_nat slot) = 1))).
Proof.
  intros Hn. exists (grouping_of classify ms n).
  split; [apply group_members_exact; assumption|].
  intros slot.
  rewrite (group_slot_retained n _ _ _ (grouping_of_ok classify ms n Hn)).
  rewrite elem_of_app, list_elem_of_singleton, retained_before_elem.
  unfold status_retains. split.
  - intros [(j & Hj & -> & Hs) | ->]; [right|left; reflexivity].
    rewrite Nat2Z.id. split; [lia|].
    apply orb_true_iff in Hs as [Hs|Hs]; apply Z.eqb_eq in Hs; auto.
  - intros [-> | (Hs & Hst)]; [right; reflexivity|left].
    exists (Z.to_nat slot). split; [lia|]. split; [lia|].
    apply orb_true_iff. destruct Hst as [E|E]; rewrite E; auto.
Qed.

Lemma X2_slots_in_groups_witness :
  exists g,
    group_members scenario_b_classify scenario_b_members 3 = Ok g /\
    forall slot,
      (exists group_id k,
         0 <= group_id < recount_member g /\ 0 <= k < group_size g group_id /\
         group_slot g group_id k = slot)
      <-> (slot = 3 - 1 \/
           (0 <= slot < 3 - 1 /\
            (pair_status scenario_b_classify scenario_b_members (Z.to_nat slot) = 0 \/
             pair_status scenario_b_classify scenario_b_members (Z.to_nat slot) = 1))).
Proof.
  apply (X2_slots_in_groups scenario_b_classify scenario_b_members 3).
  simpl. lia.
Defined.

(** X3: the sizes of the groups add up to the number of retained slots,
    which is one more than the number of pairs classified 0 or 1 and at
    most n. *)
Theorem X3_group_sizes_add_up
    (classify : string -> string -> Z) (ms : list rd_kafka_group_member_t) (n : Z) :
  1 <= n <= Z.of_nat (length ms) ->
  exists g,
    group_members classify ms n = Ok g /\
    sumZ (group_size g <$> seqZ 0 (recount_member g)) = resorted_member_lists_pos g /\
    resorted_member_lists_pos g
    = 1 + Z.of_nat (length (filter
                              (fun i => status_retains (pair_status classify ms i) = true)
                              (seq 0 (Z.to_nat (n - 1))))) /\
    resorted_member_lists_pos g <= n.
Proof.
  intros Hn. exists (grouping_of classify ms n).
  split; [apply group_members_exact; assumption|].
  split; [apply (group_sizes_sum n _ _ _ (grouping_of_ok classify ms n Hn))|].
  simpl. split.
  - rewrite retained_before_count. lia.
  - pose proof (retained_before_length classify ms (Z.to_nat (n - 1))). lia.
Qed.

Lemma X3_group_sizes_add_up_witness :
  exists g,
    group_members scenario_b_classify scenario_b_members 3 = Ok g /\
    sumZ (group_size g <$> seqZ 0 (recount_member g)) = resorted_member_lists_pos g /\
    resorted_member_lists_pos g
    = 1 + Z.of_nat (length (filter
                              (fun i => status_retains
                                          (pair_status scenario_b_classify
                                             scenario_b_members i) = true)
                              (seq 0 (Z.to_nat (3 - 1))))) /\
    resorted_member_lists_pos g <= 3.
Proof.
  apply (X3_group_sizes_add_up scenario_b_classify scenario_b_members 3).
  simpl. lia.
Defined.

(** ** Who gets nothing, and what the groups get together *)

Lemma new_entries_nil (name : string) (own : Z -> Z) (P slot : Z) :
  (forall p, 0 <= p < P -> own p <> slot) -> new_entries name own P slot = [].
Proof.
  intros H. destruct (new_entries name own P slot) as [|[nm p] l] eqn:E; [reflexivity|].
  assert ((nm, p) ∈ new_entries name own P slot) as Hin by (rewrite E; left).
  unfold new_entries in Hin. apply list_elem_of_fmap in Hin as (q & [= -> ->] & Hq).
  apply list_elem_of_filter in Hq as [Hq Hs]. apply elem_of_seqZ in Hs.
  exfalso. apply (H q); [lia|assumption].
Qed.

(** X4: a slot that the grouper does not retain gets no partition of the
    topic, and the member in it is left exactly as it was: this holds for
    every slot from n on, and for every earlier slot (but the last of the
    n) whose classification against its successor is neither 0 nor 1, so
    a member classified Duplicate of its successor receives nothing. *)
Theorem X4_slots_not_retained_get_nothing
    (id_cmp classify : string -> string -> Z)
    (ms : list rd_kafka_group_member_t)
    (t : rd_kafka_assignor_topic_t) (md : rd_kafka_metadata_topic_t) :
  metadata t = Some md ->
  (1 <= length (members t) <= length ms)%nat ->
  exists ms',
    assign_topic id_cmp classify ms t = Ok ms' /\
    forall slot : nat,
      (rd_list_cnt (members t) <= Z.of_nat slot \/
       (Z.of_nat slot < rd_list_cnt (members t) - 1 /\
        pair_status classify (qsort (rd_kafka_group_member_cmp id_cmp) ms) slot <> 0 /\
        pair_status classify (qsort (rd_kafka_group_member_cmp id_cmp) ms) slot <> 1)) ->
      ms' !! slot = qsort (rd_kafka_group_member_cmp id_cmp) ms !! slot.
Proof.
  intros Hmd Hn.
  destruct (assign_topic_deal id_cmp classify ms t md Hmd Hn)
    as (g & dcl & rl & Hg & Hok & _ & Hassign).
  set (sorted := qsort (rd_kafka_group_member_cmp id_cmp) ms) in *.
  set (n := rd_list_cnt (members t)) in *.
  assert (1 <= n <= Z.of_nat (length sorted)) as Hn'.
  { unfold sorted, n, rd_list_cnt. rewrite qsort_length. lia. }
  rewrite group_members_exact in Hg by assumption. injection Hg as <-.
  pose proof (grouping_of_ok classify sorted n Hn') as Hok'.
  eexists. split; [exact Hassign|].
  intros slot Hslot. rewrite deal_lookup.
  destruct (sorted !! slot) as [m|]; [|reflexivity]. simpl. f_equal.
  rewrite new_entries_nil; [apply member_extend_nil|].
  intros p Hp Hown.
  pose proof (owner_retained n _ _ _ Hok' p ltac:(lia)) as Hin.
  rewrite Hown in Hin.
  apply elem_of_app in Hin as [Hin|Hin].
  - apply retained_before_elem in Hin as (j & Hj & Hx & Hs).
    apply Nat2Z.inj in Hx. subst j.
    unfold status_retains in Hs. apply orb_true_iff in Hs.
    destruct Hs as [Hs|Hs]; apply Z.eqb_eq in Hs; lia.
  - apply list_elem_of_singleton in Hin. lia.
Qed.

Lemma X4_slots_not_retained_get_nothing_witness :
  exists ms',
    assign_topic str_cmp classify_distinct two_subscriptions_members
      (mk_topic "t" 1 [1%nat]) = Ok ms' /\
    forall slot : nat,
      (rd_list_cnt (members (mk_topic "t" 1 [1%nat])) <= Z.of_nat slot \/
       (Z.of_nat slot < rd_list_cnt (members (mk_topic "t" 1 [1%nat])) - 1 /\
        pair_status classify_distinct
          (qsort (rd_kafka_group_member_cmp str_cmp) two_subscriptions_members) slot <> 0 /\
        pair_status classify_distinct
          (qsort (rd_kafka_group_member_cmp str_cmp) two_subscriptions_members) slot <> 1)) ->
      ms' !! slot
      = qsort (rd_kafka_group_member_cmp str_cmp) two_subscriptions_members !! slot.
Proof.
  apply (X4_slots_not_retained_get_nothing str_cmp classify_distinct
           two_subscriptions_members (mk_topic "t" 1 [1%nat])
           {| topic := "t"; partition_cnt := 1 |}).
  - reflexivity.
  - simpl. lia.
Defined.

(** X5: the groups of a topic receive its partitions between them: the
    numbers of entries that the groups gain add up to the partition
    count (to 0 when the count is negative). *)
Theorem X5_groups_share_all_partitions
    (id_cmp classify : string -> string -> Z)
    (ms : list rd_kafka_group_member_t)
    (t : rd_kafka_assignor_topic_t) (md : rd_kafka_metadata_topic_t) :
  metadata t = Some md ->
  (1 <= length (members t) <= length ms)%nat ->
  exists g ms',
    group_members classify (qsort (rd_kafka_group_member_cmp id_cmp) ms)
      (rd_list_cnt (members t)) = Ok g /\
    assign_topic id_cmp classify ms t = Ok ms' /\
    sumZ (group_assigned (qsort (rd_kafka_group_member_cmp id_cmp) ms) ms' g
            <$> seqZ 0 (recount_member g))
    = Z.max 0 (partition_cnt md).
Proof.
  intros Hmd Hn.
  destruct (assign_topic_deal id_cmp classify ms t md Hmd Hn)
    as (g & dcl & rl & Hg & Hok & _ & Hassign).
  set (sorted := qsort (rd_kafka_group_member_cmp id_cmp) ms) in *.
  assert (rd_list_cnt (members t) <= Z.of_nat (length sorted)) as Hlen.
  { unfold sorted. rewrite qsort_length. unfold rd_list_cnt. lia. }
  pose proof (go_groups _ _ _ _ Hok) as HG.
  eexists g, _. split; [exact Hg|]. split; [exact Hassign|].
  rewrite <- (sumZ_rr_share (recount_member g) (Z.max 0 (partition_cnt md))) by lia.
  f_equal. apply list_fmap_ext. intros i gid Hi.
  apply lookup_seqZ in Hi as [-> Hi].
  rewrite (group_share _ g dcl rl Hok sorted (topic md) (partition_cnt md) Hlen) by lia.
  f_equal. lia.
Qed.

Lemma X5_groups_share_all_partitions_witness :
  exists g ms',
    group_members scenario_b_classify
      (qsort (rd_kafka_group_member_cmp str_cmp) scenario_b_members)
      (rd_list_cnt (members scenario_b_topic)) = Ok g /\
    assign_topic str_cmp scenario_b_classify scenario_b_members scenario_b_topic = Ok ms' /\
    sumZ (group_assigned (qsort (rd_kafka_group_member_cmp str_cmp) scenario_b_members) ms' g
            <$> seqZ 0 (recount_member g))
    = Z.max 0 (partition_cnt scenario_b_metadata).
Proof.
  apply (X5_groups_share_all_partitions str_cmp scenario_b_classify
           scenario_b_members scenario_b_topic scenario_b_metadata).
  - reflexivity.
  - simpl. lia.
Defined.

(** ** The whole pass in closed form *)

Lemma for_loop_ext {S : Type} (body body' : Z -> S -> outcome S) :
  (forall i s, body i s = body' i s) ->
  forall (count : nat) (a : Z) (s : S), for_loop body count a s = for_loop body' count a s.
Proof.
  intros H. induction count as [|c IH]; intros a s; simpl; [reflexivity|].
  rewrite H. destruct (body' a s); simpl; [apply IH|reflexivity].
Qed.

Lemma member_extend_extend (m : rd_kafka_group_member_t)
    (l1 l2 : list rd_kafka_topic_partition_t) :
  member_extend (member_extend m l1) l2 = member_extend m (l1 ++ l2).
Proof. unfold member_extend. simpl. rewrite app_assoc. reflexivity. Qed.

Section IdsOnly.

Variable classify : string -> string -> Z.

Lemma group_step_ids (a b : list rd_kafka_group_member_t) (i : Z) (g : grouping) :
  rkgm_member_id <$> a = rkgm_member_id <$> b ->
  group_step classify a i g = group_step classify b i g.
Proof.
  intros Hids.
  assert (forall k, rkgm_member_id <$> (a !! k) = rkgm_member_id <$> (b !! k)) as Hk.
  { intros k. rewrite <- !list_lookup_fmap, Hids. reflexivity. }
  unfold group_step, arr_get.
  pose proof (Hk (Z.to_nat i)) as H1. pose proof (Hk (Z.to_nat (i + 1))) as H2.
  destruct (i <? 0); [reflexivity|].
  destruct (a !! Z.to_nat i) as [x|], (b !! Z.to_nat i) as [x'|];
    simpl in H1; try discriminate; [|reflexivity].
  simpl obind. destruct (i + 1 <? 0); [reflexivity|].
  destruct (a !! Z.to_nat (i + 1)) as [y|], (b !! Z.to_nat (i + 1)) as [y'|];
    simpl in H2; try discriminate; [|reflexivity].
  simpl obind. injection H1 as ->. injection H2 as ->. reflexivity.
Qed.

(** The grouper looks at the ids of the members and at nothing else. *)
Lemma group_members_ids (a b : list rd_kafka_group_member_t) (n : Z) :
  rkgm_member_id <$> a = rkgm_member_id <$> b ->
  group_members classify a n = group_members classify b n.
Proof.
  intros Hids. unfold group_members.
  destruct (vla_write (vla_new (n + 1)) 0 (-1)); simpl; [|reflexivity].
  rewrite (for_loop_ext (group_step classify a) (group_step classify b)
             (fun i g => group_step_ids a b i g Hids)).
  reflexivity.
Qed.

Lemma pass_entries_ids (a b : list rd_kafka_group_member_t)
    (topics : list rd_kafka_assignor_topic_t) (slot : Z) :
  rkgm_member_id <$> a = rkgm_member_id <$> b ->
  pass_entries classify a topics slot = pass_entries classify b topics slot.
Proof.
  intros Hids. unfold pass_entries, topic_entries, topic_owner.
  induction topics as [|t rest IH]; simpl; [reflexivity|].
  rewrite IH, (group_members_ids a b _ Hids). reflexivity.
Qed.

Lemma deal_pass_length (grouped base : list rd_kafka_group_member_t)
    (topics : list rd_kafka_assignor_topic_t) :
  length (deal_pass classify grouped base topics) = length base.
Proof. unfold deal_pass. apply length_imap. Qed.

Lemma deal_pass_lookup (grouped base : list rd_kafka_group_member_t)
    (topics : list rd_kafka_assignor_topic_t) (j : nat) :
  deal_pass classify grouped base topics !! j
  = (fun m => member_extend m (pass_entries classify grouped topics (Z.of_nat j)))
      <$> base !! j.
Proof. unfold deal_pass. apply list_lookup_imap. Qed.

Lemma extends_deal_pass (grouped base : list rd_kafka_group_member_t)
    (topics : list rd_kafka_assignor_topic_t) :
  extends base (deal_pass classify grouped base topics).
Proof.
  unfold extends. apply Forall2_same_length_lookup.
  split; [symmetry; apply deal_pass_length|].
  intros i m m' H1 H2. rewrite deal_pass_lookup, H1 in H2. simpl in H2. injection H2 as <-.
  simpl. repeat split. eexists. reflexivity.
Qed.

Variable id_cmp : string -> string -> Z.

Lemma assign_topics_closed (grouped : list rd_kafka_group_member_t)
    (topics : list rd_kafka_assignor_topic_t) :
  forall base : list rd_kafka_group_member_t,
    ids_sorted id_cmp base ->
    rkgm_member_id <$> base = rkgm_member_id <$> grouped ->
    Forall (topic_ok (length base)) topics ->
    assign_topics id_cmp classify base topics
    = Ok (deal_pass classify grouped base topics).
Proof.
  induction topics as [|t rest IH]; intros base Hs Hids Hall; simpl.
  - f_equal. apply list_eq. intros j. rewrite deal_pass_lookup.
    destruct (base !! j); [|reflexivity]. simpl. rewrite member_extend_nil. reflexivity.
  - apply Forall_cons in Hall as [[[md Hmd] Hn] Hrest].
    destruct (assign_topic_deal id_cmp classify base t md Hmd Hn)
      as (g & _ & _ & Hg & _ & _ & Hassign).
    rewrite (qsort_sorted_id id_cmp base Hs) in Hg, Hassign.
    rewrite Hassign. simpl obind.
    pose proof (extends_deal base (topic md) (owner g) (partition_cnt md)) as Hext.
    rewrite (IH (deal base (topic md) (owner g) (partition_cnt md))).
    + f_equal. apply list_eq. intros j.
      rewrite !deal_pass_lookup, deal_lookup.
      destruct (base !! j) as [m|]; [|reflexivity]. simpl.
      rewrite member_extend_extend. do 2 f_equal.
      unfold pass_entries at 2. simpl. f_equal.
      unfold topic_entries, topic_name, topic_partitions, topic_owner.
      rewrite Hmd, <- (group_members_ids base grouped _ Hids), Hg. reflexivity.
    + eapply extends_sorted; eassumption.
    + rewrite (extends_ids _ _ Hext). assumption.
    + rewrite (extends_length _ _ Hext). assumption.
Qed.

End IdsOnly.

(** The entry point on topics the caller may pass. *)
Lemma assign_cb_deal_pass
    (id_cmp classify : string -> string -> Z)
    (ms : list rd_kafka_group_member_t)
    (topics : list rd_kafka_assignor_topic_t) (errstr : string) :
  (forall a b, 0 < id_cmp a b -> id_cmp b a <= 0) ->
  Forall (topic_ok (length ms)) topics ->
  rd_kafka_doubleroundrobin_assignor_assign_cb id_cmp classify ms topics errstr
  = Ok {| res_err := 0;
          res_members :=
            deal_pass classify (qsort (rd_kafka_group_member_cmp id_cmp) ms)
              (match topics with
               | [] => ms
               | _ :: _ => qsort (rd_kafka_group_member_cmp id_cmp) ms
               end) topics;
          res_errstr := errstr |}.
Proof.
  intros Htotal Hall. unfold rd_kafka_doubleroundrobin_assignor_assign_cb.
  destruct topics as [|t rest].
  - simpl. do 2 f_equal. apply list_eq. intros j. rewrite deal_pass_lookup.
    destruct (ms !! j); [|reflexivity]. simpl. rewrite member_extend_nil. reflexivity.
  - assert (assign_topics id_cmp classify ms (t :: rest)
            = assign_topics id_cmp classify (qsort (rd_kafka_group_member_cmp id_cmp) ms)
                (t :: rest)) as ->.
    { simpl. unfold assign_topic.
      rewrite (qsort_sorted_id id_cmp (qsort (rd_kafka_group_member_cmp id_cmp) ms))
        by (apply qsort_sorted; assumption).
      reflexivity. }
    rewrite (assign_topics_closed classify id_cmp
               (qsort (rd_kafka_group_member_cmp id_cmp) ms)); [reflexivity| | |].
    + apply qsort_sorted. assumption.
    + reflexivity.
    + rewrite qsort_length. assumption.
Qed.

(** X6: the pass in closed form.  When it returns, slot j of the sorted
    member array holds the member it held, its assignment list extended
    by its entries of the first topic, then of the second, and so on in
    the order of [eligible_topics]; inside a topic the entries are in
    increasing partition order, and the groups that decide them are
    those of the sorted input alone: nothing that an earlier topic
    assigned changes what a later topic assigns. *)
Theorem X6_pass_appends_topic_after_topic
    (id_cmp classify : string -> string -> Z)
    (ms : list rd_kafka_group_member_t)
    (topics : list rd_kafka_assignor_topic_t) (errstr : string) :
  (forall a b, 0 < id_cmp a b -> id_cmp b a <= 0) ->
  Forall (topic_ok (length ms)) topics ->
  rd_kafka_doubleroundrobin_assignor_assign_cb id_cmp classify ms topics errstr
  = Ok {| res_err := 0;
          res_members :=
            imap (fun j m =>
                    member_extend m
                      (flat_map
                         (fun t =>
                            (fun p => (topic_name t, p)) <$>
                              filter (fun p =>
                                        topic_owner classify
                                          (qsort (rd_kafka_group_member_cmp id_cmp) ms) t p
                                        = Z.of_nat j)
                                (seqZ 0 (topic_partitions t)))
                         topics))
              (match topics with
               | [] => ms
               | _ :: _ => qsort (rd_kafka_group_member_cmp id_cmp) ms
               end);
          res_errstr := errstr |}.
Proof.
  intros Htotal Hall. rewrite assign_cb_deal_pass by assumption. reflexivity.
Qed.

Lemma X6_pass_appends_topic_after_topic_witness :
  rd_kafka_doubleroundrobin_assignor_assign_cb str_cmp classify_distinct
    scenario_a_members scenario_a_topics ""
  = Ok {| res_err := 0;
          res_members :=
            imap (fun j m =>
                    member_extend m
                      (flat_map
                         (fun t =>
                            (fun p => (topic_name t, p)) <$>
                              filter (fun p =>
                                        topic_owner classify_distinct
                                          (qsort (rd_kafka_group_member_cmp str_cmp)
                                             scenario_a_members) t p
                                        = Z.of_nat j)
                                (seqZ 0 (topic_partitions t)))
                         scenario_a_topics))
              (qsort (rd_kafka_group_member_cmp str_cmp) scenario_a_members);
          res_errstr := "" |}.
Proof.
  apply (X6_pass_appends_topic_after_topic str_cmp classify_distinct
           scenario_a_members scenario_a_topics "").
  - exact str_cmp_total.
  - repeat constructor; simpl; eauto.
Defined.

(** ** Calling the pass again *)

(** X7: the pass never clears an assignment list and never looks for an
    entry that is already there: called again on the array it returned,
    with the same topics, it appends to every slot the same entries a
    second time. *)
Theorem X7_second_call_appends_again
    (id_cmp classify : string -> string -> Z)
    (ms : list rd_kafka_group_member_t)
    (topics : list rd_kafka_assignor_topic_t) (errstr : string) :
  (forall a b, 0 < id_cmp a b -> id_cmp b a <= 0) ->
  Forall (topic_ok (length ms)) topics ->
  exists r,
    rd_kafka_doubleroundrobin_assignor_assign_cb id_cmp classify ms topics errstr = Ok r /\
    rd_kafka_doubleroundrobin_assignor_assign_cb id_cmp classify (res_members r) topics errstr
    = Ok {| res_err := 0;
            res_members :=
              imap (fun j m =>
                      member_extend m
                        (pass_entries classify (qsort (rd_kafka_group_member_cmp id_cmp) ms)
                           topics (Z.of_nat j)
                         ++ pass_entries classify (qsort (rd_kafka_group_member_cmp id_cmp) ms)
                              topics (Z.of_nat j)))
                (match topics with
                 | [] => ms
                 | _ :: _ => qsort (rd_kafka_group_member_cmp id_cmp) ms
                 end);
            res_errstr := errstr |}.
Proof.
  intros Htotal Hall. eexists. split; [apply assign_cb_deal_pass; assumption|].
  cbn [res_members].
  set (sorted := qsort (rd_kafka_group_member_cmp id_cmp) ms).
  set (base := match topics with [] => ms | _ :: _ => sorted end).
  set (first := deal_pass classify sorted base topics).
  assert (length base = length ms) as Hbase.
  { unfold base, sorted. destruct topics; [reflexivity|apply qsort_length]. }
  pose proof (extends_deal_pass classify sorted base topics) as Hext. fold first in Hext.
  rewrite assign_cb_deal_pass;
    [|assumption|rewrite (extends_length _ _ Hext), Hbase; assumption].
  do 2 f_equal.
  assert (match topics with
          | [] => first
          | _ :: _ => qsort (rd_kafka_group_member_cmp id_cmp) first
          end = first) as ->.
  { destruct topics; [reflexivity|]. apply qsort_sorted_id.
    eapply extends_sorted; [exact Hext|]. apply qsort_sorted. assumption. }
  apply list_eq. intros j. rewrite deal_pass_lookup. unfold first.
  rewrite deal_pass_lookup, list_lookup_imap.
  destruct (base !! j) as [m|]; [|reflexivity]. simpl.
  rewrite member_extend_extend. do 3 f_equal.
  destruct topics as [|t rest]; [reflexivity|].
  apply pass_entries_ids.
  rewrite (qsort_sorted_id id_cmp (deal_pass classify sorted base (t :: rest))).
  - apply (extends_ids _ _ Hext).
  - eapply extends_sorted; [exact Hext|]. apply qsort_sorted. assumption.
Qed.

Lemma X7_second_call_appends_again_witness :
  exists r,
    rd_kafka_doubleroundrobin_assignor_assign_cb str_cmp classify_distinct
      scenario_a_members scenario_a_topics "" = Ok r /\
    rd_kafka_doubleroundrobin_assignor_assign_cb str_cmp classify_distinct
      (res_members r) scenario_a_topics ""
    = Ok {| res_err := 0;
            res_members :=
              imap (fun j m =>
                      member_extend m
                        (pass_entries classify_distinct
                           (qsort (rd_kafka_group_member_cmp str_cmp) scenario_a_members)
                           scenario_a_topics (Z.of_nat j)
                         ++ pass_entries classify_distinct
                              (qsort (rd_kafka_group_member_cmp str_cmp) scenario_a_members)
                              scenario_a_topics (Z.of_nat j)))
                (qsort (rd_kafka_group_member_cmp str_cmp) scenario_a_members);
            res_errstr := "" |}.
Proof.
  apply (X7_second_call_appends_again str_cmp classify_distinct
           scenario_a_members scenario_a_topics "").
  - exact str_cmp_total.
  - repeat constructor; simpl; eauto.
Defined.

(** ** A topic without metadata *)

Lemma assign_topics_app (id_cmp classify : string -> string -> Z)
    (pre rest : list rd_kafka_assignor_topic_t) :
  forall ms : list rd_kafka_group_member_t,
    assign_topics id_cmp classify ms (pre ++ rest)
    = obind (assign_topics id_cmp classify ms pre)
        (fun ms1 => assign_topics id_cmp classify ms1 rest).
Proof.
  induction pre as [|t pre IH]; intros ms; simpl; [reflexivity|].
  destruct (assign_topic id_cmp classify ms t); simpl; [apply IH|reflexivity].
Qed.

Lemma assign_topic_null (id_cmp classify : string -> string -> Z)
    (ms : list rd_kafka_group_member_t) (t : rd_kafka_assignor_topic_t) :
  metadata t = None ->
  (1 <= length (members t) <= length ms)%nat ->
  assign_topic id_cmp classify ms t = Fault NullDeref.
Proof.
  intros Hmd Hn. unfold assign_topic.
  destruct (group_members_ok classify (rd_list_cnt (members t))
              (qsort (rd_kafka_group_member_cmp id_cmp) ms))
    as (g & dcl & rl & -> & Hok).
  { rewrite qsort_length. unfold rd_list_cnt. lia. }
  simpl. destruct (group_sizes_ok _ g dcl rl Hok) as [-> _]. simpl.
  rewrite Hmd. reflexivity.
Qed.

Lemma assign_topics_deal_pass
    (id_cmp classify : string -> string -> Z)
    (ms : list rd_kafka_group_member_t) (topics : list rd_kafka_assignor_topic_t) :
  (forall a b, 0 < id_cmp a b -> id_cmp b a <= 0) ->
  Forall (topic_ok (length ms)) topics ->
  assign_topics id_cmp classify ms topics
  = Ok (deal_pass classify (qsort (rd_kafka_group_member_cmp id_cmp) ms)
          (match topics with
           | [] => ms
           | _ :: _ => qsort (rd_kafka_group_member_cmp id_cmp) ms
           end) topics).
Proof.
  intros Htotal Hall.
  pose proof (assign_cb_deal_pass id_cmp classify ms topics "" Htotal Hall) as H.
  unfold rd_kafka_doubleroundrobin_assignor_assign_cb in H.
  destruct (assign_topics id_cmp classify ms topics); simpl in H; [|discriminate].
  injection H as ->. reflexivity.
Qed.

(** X8: when the first topic without metadata comes after topics the
    caller may pass, those earlier topics are dealt first: the array
    then holds, slot by slot, the sorted members with their entries of
    the earlier topics appended.  On that array the grouper and the
    group sizes of the topic without metadata are computed without a
    fault, and the pass then dereferences the null pointer at the loop
    condition of line 125; it reports no error and returns nothing,
    whatever the topics that follow. *)
Theorem X8_null_metadata_is_dereferenced
    (id_cmp classify : string -> string -> Z)
    (ms : list rd_kafka_group_member_t)
    (pre post : list rd_kafka_assignor_topic_t) (t : rd_kafka_assignor_topic_t)
    (errstr : string) :
  (forall a b, 0 < id_cmp a b -> id_cmp b a <= 0) ->
  Forall (topic_ok (length ms)) pre ->
  metadata t = None ->
  (1 <= length (members t) <= length ms)%nat ->
  exists ms1 g sizeof_member_group,
    assign_topics id_cmp classify ms pre = Ok ms1 /\
    ms1 = imap (fun j m =>
                  member_extend m
                    (pass_entries classify (qsort (rd_kafka_group_member_cmp id_cmp) ms)
                       pre (Z.of_nat j)))
            (match pre with
             | [] => ms
             | _ :: _ => qsort (rd_kafka_group_member_cmp id_cmp) ms
             end) /\
    group_members classify (qsort (rd_kafka_group_member_cmp id_cmp) ms1)
      (rd_list_cnt (members t)) = Ok g /\
    group_sizes g = Ok sizeof_member_group /\
    assign_topic id_cmp classify ms1 t = Fault NullDeref /\
    rd_kafka_doubleroundrobin_assignor_assign_cb id_cmp classify ms (pre ++ t :: post) errstr
    = Fault NullDeref.
Proof.
  intros Htotal Hpre Hmd Hn.
  pose proof (assign_topics_deal_pass id_cmp classify ms pre Htotal Hpre) as Hms1.
  set (ms1 := deal_pass classify (qsort (rd_kafka_group_member_cmp id_cmp) ms)
                (match pre with
                 | [] => ms
                 | _ :: _ => qsort (rd_kafka_group_member_cmp id_cmp) ms
                 end) pre) in *.
  assert (length ms1 = length ms) as Hl.
  { unfold ms1. rewrite deal_pass_length. destruct pre; [reflexivity|apply qsort_length]. }
  destruct (group_members_ok classify (rd_list_cnt (members t))
              (qsort (rd_kafka_group_member_cmp id_cmp) ms1))
    as (g & dcl & rl & Hg & Hok).
  { rewrite qsort_length, Hl. unfold rd_list_cnt. lia. }
  destruct (group_sizes_ok _ g dcl rl Hok) as [Hsz _].
  assert (assign_topic id_cmp classify ms1 t = Fault NullDeref) as Hnull
    by (apply assign_topic_null; [assumption|rewrite Hl; assumption]).
  exists ms1, g, (Some <$> diffs dcl).
  split; [exact Hms1|]. split; [reflexivity|]. split; [exact Hg|]. split; [exact Hsz|].
  split; [exact Hnull|].
  unfold rd_kafka_doubleroundrobin_assignor_assign_cb.
  rewrite assign_topics_app, Hms1. simpl. rewrite Hnull. reflexivity.
Qed.

Lemma X8_null_metadata_is_dereferenced_witness :
  exists ms1 g sizeof_member_group,
    assign_topics str_cmp classify_distinct one_member [mk_topic "t0" 1 [0%nat]] = Ok ms1 /\
    ms1 = imap (fun j m =>
                  member_extend m
                    (pass_entries classify_distinct
                       (qsort (rd_kafka_group_member_cmp str_cmp) one_member)
                       [mk_topic "t0" 1 [0%nat]] (Z.of_nat j)))
            (qsort (rd_kafka_group_member_cmp str_cmp) one_member) /\
    group_members classify_distinct (qsort (rd_kafka_group_member_cmp str_cmp) ms1)
      (rd_list_cnt (members {| metadata := None; members := [0%nat] |})) = Ok g /\
    group_sizes g = Ok sizeof_member_group /\
    assign_topic str_cmp classify_distinct ms1 {| metadata := None; members := [0%nat] |}
    = Fault NullDeref /\
    rd_kafka_doubleroundrobin_assignor_assign_cb str_cmp classify_distinct one_member
      ([mk_topic "t0" 1 [0%nat]] ++ {| metadata := None; members := [0%nat] |} :: []) ""
    = Fault NullDeref.
Proof.
  apply (X8_null_metadata_is_dereferenced str_cmp classify_distinct one_member
           [mk_topic "t0" 1 [0%nat]] [] {| metadata := None; members := [0%nat] |} "").
  - exact str_cmp_total.
  - repeat constructor; simpl; eauto.
  - reflexivity.
  - simpl. lia.
Defined.

(** ** One group for all *)

Section SingleGroup.

Variable classify : string -> string -> Z.
Variable ms : list rd_kafka_group_member_t.
Hypothesis Hsame : all_same_group classify (rkgm_member_id <$> ms).

Lemma pair_status_same (j : nat) : (S j < length ms)%nat -> pair_status classify ms j = 1.
Proof.
  intros Hj. unfold pair_status.
  destruct (lookup_lt_is_Some_2 ms j) as [a Ha]; [lia|].
  destruct (lookup_lt_is_Some_2 ms (S j)) as [b Hb]; [lia|].
  rewrite Ha, Hb. apply (Hsame j); rewrite list_lookup_fmap; [rewrite Ha|rewrite Hb]; reflexivity.
Qed.

Lemma retained_before_same (i : nat) :
  (i < length ms)%nat -> retained_before classify ms i = seqZ 0 (Z.of_nat i).
Proof.
  induction i as [|i IH]; intros Hi; [reflexivity|].
  simpl. rewrite IH by lia. rewrite pair_status_same by lia. simpl.
  rewrite Nat2Z.inj_succ, <- Z.add_1_r, seqZ_snoc by lia. reflexivity.
Qed.

Lemma boundaries_before_same (i : nat) :
  (i < length ms)%nat -> boundaries_before classify ms i = [-1].
Proof.
  induction i as [|i IH]; intros Hi; [reflexivity|].
  simpl. rewrite IH by lia. rewrite pair_status_same by lia. reflexivity.
Qed.

Lemma grouping_of_same (n : Z) :
  1 <= n <= Z.of_nat (length ms) ->
  grouping_of classify ms n = single_group_grouping n.
Proof.
  intros Hn. unfold grouping_of, single_group_grouping.
  rewrite boundaries_before_same, retained_before_same by lia.
  rewrite length_seqZ. simpl length.
  replace (Z.of_nat (Z.to_nat (Z.of_nat (Z.to_nat (n - 1))))) with (n - 1) by lia.
  pose proof (seqZ_snoc 0 (n - 1) ltac:(lia)) as H.
  replace (n - 1 + 1) with n in H by lia. rewrite Z.add_0_l in H.
  rewrite Z2Nat.id by lia. rewrite <- H.
  f_equal. lia.
Qed.

End SingleGroup.

(** With one group the rotation inside the group is the whole rotation. *)
Lemma owner_single_group (n p : Z) :
  1 <= n -> 0 <= p -> owner (single_group_grouping n) p = p mod n.
Proof.
  intros Hn Hp. unfold owner. simpl. rewrite Z.mod_1_r, Z.div_1_r.
  unfold group_size, group_slot. simpl.
  rewrite (vla_val_of (n + 1) [-1; n - 1] 0 (-1)) by (lia || reflexivity).
  rewrite (vla_val_of (n + 1) [-1; n - 1] (0 + 1) (n - 1)) by (lia || reflexivity).
  replace (n - 1 - -1) with n by lia.
  assert (0 <= p mod n < n) as Hm by (apply Z.mod_pos_bound; lia).
  apply vla_val_of; [lia|]. apply lookup_seqZ. lia.
Qed.



(** ** Totals without replicas *)

Lemma count_one_level (G group_id : Z) (P : nat) :
  0 < G -> 0 <= group_id < G ->
  count_below (fun p => p mod G =? group_id) P = rr_share G (Z.of_nat P) group_id.
Proof.
  intros HG Hg. induction P as [|P IH]; simpl count_below.
  - rewrite rr_share_0 by lia. reflexivity.
  - rewrite IH, Nat2Z.inj_succ, <- Z.add_1_r, rr_share_step by lia.
    rewrite (Z.eqb_sym group_id). reflexivity.
Qed.

Lemma new_entries_clamp (name : string) (own : Z -> Z) (P slot : Z) :
  new_entries name own (Z.of_nat (Z.to_nat P)) slot = new_entries name own P slot.
Proof.
  destruct (Z.le_gt_cases 0 P) as [H|H].
  - rewrite Z2Nat.id by assumption. reflexivity.
  - rewrite (new_entries_neg name own P) by lia. apply new_entries_neg. lia.
Qed.

Lemma pass_entries_length (classify : string -> string -> Z)
    (ms : list rd_kafka_group_member_t) (topics : list rd_kafka_assignor_topic_t)
    (slot : Z) :
  Z.of_nat (length (pass_entries classify ms topics slot))
  = sumZ ((fun t => Z.of_nat (length (topic_entries classify ms t slot))) <$> topics).
Proof.
  unfold pass_entries. induction topics as [|t rest IH]; [reflexivity|].
  cbn [flat_map]. rewrite length_app, Nat2Z.inj_add, IH. reflexivity.
Qed.

Lemma assigned_cnt_deal_pass (classify : string -> string -> Z)
    (grouped base : list rd_kafka_group_member_t)
    (topics : list rd_kafka_assignor_topic_t) (slot : Z) :
  0 <= slot < Z.of_nat (length base) ->
  assigned_cnt base (deal_pass classify grouped base topics) slot
  = Z.of_nat (length (pass_entries classify grouped topics slot)).
Proof.
  intros Hs. unfold assigned_cnt.
  destruct (lookup_lt_is_Some_2 base (Z.to_nat slot)) as [m Hm]; [lia|].
  rewrite (arr_get_ok base slot m) by (lia || assumption).
  rewrite (arr_get_ok _ slot (member_extend m (pass_entries classify grouped topics slot))).
  2: lia.
  2:{ rewrite deal_pass_lookup, Hm. simpl. rewrite Z2Nat.id by lia. reflexivity. }
  simpl. rewrite length_app. lia.
Qed.

Lemma topic_entries_plain (classify : string -> string -> Z)
    (ms : list rd_kafka_group_member_t) (t : rd_kafka_assignor_topic_t) (slot : Z) :
  all_distinct classify (rkgm_member_id <$> ms) ->
  topic_ok (length ms) t ->
  0 <= slot ->
  Z.of_nat (length (topic_entries classify ms t slot)) = plain_share t slot.
Proof.
  intros Hall [_ Hn] Hs. unfold topic_entries, plain_share.
  set (n := rd_list_cnt (members t)).
  assert (1 <= n <= Z.of_nat (length ms)) as Hn' by (unfold n, rd_list_cnt; lia).
  rewrite <- new_entries_clamp, new_entries_length.
  rewrite (count_below_ext _ (fun p => p mod n =? slot)).
  2:{ intros p Hp. unfold topic_owner. fold n.
      rewrite (group_members_all_distinct classify ms n Hall Hn').
      rewrite owner_singleton by lia. reflexivity. }
  destruct (Z.ltb_spec slot n) as [Hlt|Hge].
  - rewrite count_one_level by lia. f_equal. lia.
  - apply count_below_none. intros p Hp. apply Z.eqb_neq.
    pose proof (Z.mod_pos_bound p n ltac:(lia)). lia.
Qed.

(** X10: without replicas the rotation starts again at slot 0 with every
    topic.  Over the whole pass slot j gains, of each topic with at
    least j+1 eligible members, P / n partitions and one more when
    j < P mod n (n the topic's eligible count, P its partition count),
    and the gains of the topics add up: the low slots collect the
    surplus of every topic. *)
Theorem X10_totals_without_replicas
    (id_cmp classify : string -> string -> Z)
    (ms : list rd_kafka_group_member_t)
    (topics : list rd_kafka_assignor_topic_t) (errstr : string) :
  (forall a b, 0 < id_cmp a b -> id_cmp b a <= 0) ->
  all_distinct classify
    (rkgm_member_id <$> qsort (rd_kafka_group_member_cmp id_cmp) ms) ->
  Forall (topic_ok (length ms)) topics ->
  exists r,
    rd_kafka_doubleroundrobin_assignor_assign_cb id_cmp classify ms topics errstr = Ok r /\
    forall slot,
      0 <= slot < Z.of_nat (length ms) ->
      assigned_cnt (match topics with
                    | [] => ms
                    | _ :: _ => qsort (rd_kafka_group_member_cmp id_cmp) ms
                    end) (res_members r) slot
      = sumZ ((fun t => plain_share t slot) <$> topics).
Proof.
  intros Htotal Hall Hok. eexists. split; [apply assign_cb_deal_pass; assumption|].
  cbn [res_members]. intros slot Hs.
  rewrite assigned_cnt_deal_pass.
  2:{ destruct topics; [assumption|]. rewrite qsort_length. assumption. }
  rewrite pass_entries_length. f_equal.
  apply list_fmap_ext. intros i t Hi.
  apply topic_entries_plain; [assumption| |lia].
  rewrite qsort_length.
  eapply Forall_lookup_1; eassumption.
Qed.

Lemma X10_totals_without_replicas_witness :
  exists r,
    rd_kafka_doubleroundrobin_assignor_assign_cb str_cmp classify_distinct
      scenario_a_members scenario_a_topics "" = Ok r /\
    forall slot,
      0 <= slot < Z.of_nat (length scenario_a_members) ->
      assigned_cnt (qsort (rd_kafka_group_member_cmp str_cmp) scenario_a_members)
        (res_members r) slot
      = sumZ ((fun t => plain_share t slot) <$> scenario_a_topics).
Proof.
  apply (X10_totals_without_replicas str_cmp classify_distinct
           scenario_a_members scenario_a_topics "").
  - exact str_cmp_total.
  - intros i a b _ _. reflexivity.
  - repeat constructor; simpl; eauto.
Defined.

(** ** More eligible members than the array holds *)

Lemma for_loop_fault {S : Type} (body : Z -> S -> outcome S) (f : fault) :
  forall (k count : nat) (a : Z) (st : nat -> S),
    (k < count)%nat ->
    (forall j, (j < k)%nat -> body (a + Z.of_nat j) (st j) = Ok (st (Datatypes.S j))) ->
    body (a + Z.of_nat k) (st k) = Fault f ->
    for_loop body count a (st 0%nat) = Fault f.
Proof.
  induction k as [|k IH]; intros count a st Hk Hsteps Hfault;
    (destruct count as [|c]; [lia|]); simpl.
  - replace (a + Z.of_nat 0) with a in Hfault by lia. rewrite Hfault. reflexivity.
  - pose proof (Hsteps 0%nat ltac:(lia)) as H0.
    replace (a + Z.of_nat 0) with a in H0 by lia. rewrite H0. simpl.
    apply (IH c (a + 1) (fun j => st (Datatypes.S j))); [lia| |].
    + intros j Hj. replace (a + 1 + Z.of_nat j) with (a + Z.of_nat (Datatypes.S j)) by lia.
      apply Hsteps. lia.
    + replace (a + 1 + Z.of_nat k) with (a + Z.of_nat (Datatypes.S k)) by lia. assumption.
Qed.

Lemma group_members_short_array (classify : string -> string -> Z)
    (ms : list rd_kafka_group_member_t) (n : Z) :
  Z.of_nat (length ms) < n -> 2 <= n ->
  group_members classify ms n = Fault OutOfBounds.
Proof.
  intros Hlen Hn. unfold group_members.
  pose proof (vla_write_push (n + 1) [] (-1)) as H0.
  change (Z.of_nat (length (@nil Z))) with 0 in H0.
  rewrite vla_new_of, H0 by lia. clear H0. simpl obind.
  assert (for_loop (group_step classify ms) (Z.to_nat (n - 1)) 0
            (grouping_before classify ms n 0) = Fault OutOfBounds) as Hloop;
    [|unfold grouping_before in Hloop; simpl in Hloop;
      change (Z.of_nat 1) with 1 in Hloop; change (Z.of_nat 0) with 0 in Hloop;
      rewrite Hloop; reflexivity].
  apply (for_loop_fault (group_step classify ms) OutOfBounds
           (length ms - 1) (Z.to_nat (n - 1)) 0
           (fun j => grouping_before classify ms n j)); [lia| |].
  - intros j Hj.
    pose proof (group_step_exact classify ms n (Z.of_nat j) ltac:(lia) ltac:(lia) ltac:(lia))
      as Hstep.
    rewrite Nat2Z.id in Hstep. replace (Z.to_nat (Z.of_nat j + 1)) with (S j) in Hstep by lia.
    rewrite Z.add_0_l. exact Hstep.
  - rewrite Z.add_0_l. unfold group_step, arr_get.
    destruct (Z.ltb_spec (Z.of_nat (length ms - 1)) 0); [lia|].
    rewrite Nat2Z.id.
    destruct (ms !! (length ms - 1)%nat) as [a|] eqn:Ea; [|reflexivity].
    simpl obind.
    destruct (Z.ltb_spec (Z.of_nat (length ms - 1) + 1) 0); [lia|].
    rewrite (lookup_ge_None_2 ms (Z.to_nat (Z.of_nat (length ms - 1) + 1))); [reflexivity|].
    apply lookup_lt_Some in Ea. lia.
Qed.

Lemma group_loop_prefix (classify : string -> string -> Z)
    (ms : list rd_kafka_group_member_t) (n : Z) (i0 : nat) :
  (i0 <= length ms - 1)%nat -> Z.of_nat i0 <= n - 1 ->
  for_loop (group_step classify ms) i0 0 (grouping_before classify ms n 0)
  = Ok (grouping_before classify ms n i0).
Proof.
  intros Hi Hn.
  destruct (for_loop_inv
              (fun i g => g = grouping_before classify ms n (Z.to_nat i))
              (group_step classify ms) i0 0 (grouping_before classify ms n 0))
    as (g & -> & Hg).
  - reflexivity.
  - intros i g0 Hi0 ->. eexists. split; [apply group_step_exact; lia|reflexivity].
  - subst g. f_equal. f_equal. lia.
Qed.

Lemma arr_get_past_the_end {A : Type} (a : list A) :
  arr_get a (Z.of_nat (length a)) = Fault OutOfBounds.
Proof.
  unfold arr_get. destruct (Z.ltb_spec (Z.of_nat (length a)) 0); [reflexivity|].
  rewrite Nat2Z.id, (lookup_ge_None_2 a (length a)) by lia. reflexivity.
Qed.

Lemma group_step_past_the_end (classify : string -> string -> Z)
    (ms : list rd_kafka_group_member_t) (g : grouping) :
  group_step classify ms (Z.of_nat (length ms - 1)) g = Fault OutOfBounds.
Proof.
  unfold group_step, arr_get.
  destruct (Z.ltb_spec (Z.of_nat (length ms - 1)) 0); [lia|].
  rewrite Nat2Z.id.
  destruct (ms !! (length ms - 1)%nat) as [a|] eqn:Ea; [|reflexivity].
  simpl obind.
  destruct (Z.ltb_spec (Z.of_nat (length ms - 1) + 1) 0); [lia|].
  rewrite (lookup_ge_None_2 ms (Z.to_nat (Z.of_nat (length ms - 1) + 1))); [reflexivity|].
  apply lookup_lt_Some in Ea. lia.
Qed.

(** X11: the eligible count is used as a bound on the member array
    without a check.  When a topic lists more eligible members than the
    array holds (and at least two), the earlier topics are dealt first;
    on the array they leave, the boundary store of line 80 and the
    iterations of the grouping loop below the last slot run without a
    fault, and at the iteration for the last slot the loop reads the
    member one past the end of the array (line 88): the pass returns
    nothing. *)
Theorem X11_eligible_count_beyond_the_array
    (id_cmp classify : string -> string -> Z)
    (ms : list rd_kafka_group_member_t)
    (pre post : list rd_kafka_assignor_topic_t) (t : rd_kafka_assignor_topic_t)
    (errstr : string) :
  (forall a b, 0 < id_cmp a b -> id_cmp b a <= 0) ->
  Forall (topic_ok (length ms)) pre ->
  (length ms < length (members t))%nat ->
  (2 <= length (members t))%nat ->
  exists ms1,
    assign_topics id_cmp classify ms pre = Ok ms1 /\
    ms1 = imap (fun j m =>
                  member_extend m
                    (pass_entries classify (qsort (rd_kafka_group_member_cmp id_cmp) ms)
                       pre (Z.of_nat j)))
            (match pre with
             | [] => ms
             | _ :: _ => qsort (rd_kafka_group_member_cmp id_cmp) ms
             end) /\
    length (qsort (rd_kafka_group_member_cmp id_cmp) ms1) = length ms /\
    vla_write (vla_new (rd_list_cnt (members t) + 1)) 0 (-1)
    = Ok (different_consumers
            (grouping_before classify (qsort (rd_kafka_group_member_cmp id_cmp) ms1)
               (rd_list_cnt (members t)) 0)) /\
    for_loop (group_step classify (qsort (rd_kafka_group_member_cmp id_cmp) ms1))
      (length ms - 1) 0
      (grouping_before classify (qsort (rd_kafka_group_member_cmp id_cmp) ms1)
         (rd_list_cnt (members t)) 0)
    = Ok (grouping_before classify (qsort (rd_kafka_group_member_cmp id_cmp) ms1)
            (rd_list_cnt (members t)) (length ms - 1)) /\
    arr_get (qsort (rd_kafka_group_member_cmp id_cmp) ms1) (Z.of_nat (length ms))
    = Fault OutOfBounds /\
    group_step classify (qsort (rd_kafka_group_member_cmp id_cmp) ms1)
      (Z.of_nat (length ms - 1))
      (grouping_before classify (qsort (rd_kafka_group_member_cmp id_cmp) ms1)
         (rd_list_cnt (members t)) (length ms - 1))
    = Fault OutOfBounds /\
    assign_topic id_cmp classify ms1 t = Fault OutOfBounds /\
    rd_kafka_doubleroundrobin_assignor_assign_cb id_cmp classify ms (pre ++ t :: post) errstr
    = Fault OutOfBounds.
Proof.
  intros Htotal Hpre Hlen Hn.
  pose proof (assign_topics_deal_pass id_cmp classify ms pre Htotal Hpre) as Hms1.
  set (ms1 := deal_pass classify (qsort (rd_kafka_group_member_cmp id_cmp) ms)
                (match pre with
                 | [] => ms
                 | _ :: _ => qsort (rd_kafka_group_member_cmp id_cmp) ms
                 end) pre) in *.
  assert (length ms1 = length ms) as Hl.
  { unfold ms1. rewrite deal_pass_length. destruct pre; [reflexivity|apply qsort_length]. }
  set (sorted := qsort (rd_kafka_group_member_cmp id_cmp) ms1).
  assert (length sorted = length ms) as Hls by (unfold sorted; rewrite qsort_length; exact Hl).
  assert (assign_topic id_cmp classify ms1 t = Fault OutOfBounds) as Hfault.
  { unfold assign_topic. fold sorted.
    rewrite group_members_short_array; [reflexivity| |]; unfold rd_list_cnt; lia. }
  exists ms1. split; [exact Hms1|]. split; [reflexivity|]. split; [exact Hls|].
  split; [|split; [|split; [|split; [|split]]]].
  - rewrite vla_new_of.
    apply (vla_write_at_fill (rd_list_cnt (members t) + 1) [] 0 (-1)); [reflexivity|].
    unfold rd_list_cnt. lia.
  - subst sorted. rewrite <- Hls. apply group_loop_prefix; [lia|]. unfold rd_list_cnt. lia.
  - subst sorted. rewrite <- Hls. apply arr_get_past_the_end.
  - subst sorted. rewrite <- Hls. apply group_step_past_the_end.
  - exact Hfault.
  - unfold rd_kafka_doubleroundrobin_assignor_assign_cb.
    rewrite assign_topics_app, Hms1. simpl. rewrite Hfault. reflexivity.
Qed.

Lemma X11_eligible_count_beyond_the_array_witness :
  exists ms1,
    assign_topics str_cmp classify_distinct one_member [mk_topic "t0" 1 [0%nat]] = Ok ms1 /\
    ms1 = imap (fun j m =>
                  member_extend m
                    (pass_entries classify_distinct
                       (qsort (rd_kafka_group_member_cmp str_cmp) one_member)
                       [mk_topic "t0" 1 [0%nat]] (Z.of_nat j)))
            (qsort (rd_kafka_group_member_cmp str_cmp) one_member) /\
    length (qsort (rd_kafka_group_member_cmp str_cmp) ms1) = length one_member /\
    vla_write (vla_new (rd_list_cnt (members (mk_topic "t1" 1 [0; 0]%nat)) + 1)) 0 (-1)
    = Ok (different_consumers
            (grouping_before classify_distinct
               (qsort (rd_kafka_group_member_cmp str_cmp) ms1)
               (rd_list_cnt (members (mk_topic "t1" 1 [0; 0]%nat))) 0)) /\
    for_loop (group_step classify_distinct (qsort (rd_kafka_group_member_cmp str_cmp) ms1))
      (length one_member - 1) 0
      (grouping_before classify_distinct (qsort (rd_kafka_group_member_cmp str_cmp) ms1)
         (rd_list_cnt (members (mk_topic "t1" 1 [0; 0]%nat))) 0)
    = Ok (grouping_before classify_distinct (qsort (rd_kafka_group_member_cmp str_cmp) ms1)
            (rd_list_cnt (members (mk_topic "t1" 1 [0; 0]%nat))) (length one_member - 1)) /\
    arr_get (qsort (rd_kafka_group_member_cmp str_cmp) ms1) (Z.of_nat (length one_member))
    = Fault OutOfBounds /\
    group_step classify_distinct (qsort (rd_kafka_group_member_cmp str_cmp) ms1)
      (Z.of_nat (length one_member - 1))
      (grouping_before classify_distinct (qsort (rd_kafka_group_member_cmp str_cmp) ms1)
         (rd_list_cnt (members (mk_topic "t1" 1 [0; 0]%nat))) (length one_member - 1))
    = Fault OutOfBounds /\
    assign_topic str_cmp classify_distinct ms1 (mk_topic "t1" 1 [0; 0]%nat)
    = Fault OutOfBounds /\
    rd_kafka_doubleroundrobin_assignor_assign_cb str_cmp classify_distinct one_member
      ([mk_topic "t0" 1 [0%nat]] ++ mk_topic "t1" 1 [0; 0]%nat :: []) ""
    = Fault OutOfBounds.
Proof.
  apply (X11_eligible_count_beyond_the_array str_cmp classify_distinct one_member
           [mk_topic "t0" 1 [0%nat]] [] (mk_topic "t1" 1 [0; 0]%nat) "").
  - exact str_cmp_total.
  - repeat constructor; simpl; eauto.
  - simpl. lia.
  - simpl. lia.
Defined.

(** ** The order of the topics *)

(** X12: the order of [eligible_topics] decides the order of the entries
    inside the assignment lists and nothing else: for two orders of the
    same topics the arrays that come back hold the same members slot by
    slot, and the two assignment lists of a slot hold the same entries,
    each as often in the one as in the other. *)
Theorem X12_topic_order_only_orders_entries
    (id_cmp classify : string -> string -> Z)
    (ms : list rd_kafka_group_member_t)
    (topics topics' : list rd_kafka_assignor_topic_t) (errstr : string) :
  (forall a b, 0 < id_cmp a b -> id_cmp b a <= 0) ->
  topics ≡ₚ topics' ->
  Forall (topic_ok (length ms)) topics ->
  exists r r',
    rd_kafka_doubleroundrobin_assignor_assign_cb id_cmp classify ms topics errstr = Ok r /\
    rd_kafka_doubleroundrobin_assignor_assign_cb id_cmp classify ms topics' errstr = Ok r' /\
    Forall2 (fun m m' =>
               rkgm_member_id m = rkgm_member_id m' /\
               rkgm_subscription m = rkgm_subscription m' /\
               rkgm_assignment m ≡ₚ rkgm_assignment m')
      (res_members r) (res_members r').
Proof.
  intros Htotal Hperm Hall.
  assert (Forall (topic_ok (length ms)) topics') as Hall' by (rewrite <- Hperm; assumption).
  eexists _, _.
  split; [apply assign_cb_deal_pass; assumption|].
  split; [apply assign_cb_deal_pass; assumption|].
  cbn [res_members].
  set (sorted := qsort (rd_kafka_group_member_cmp id_cmp) ms).
  assert (match topics' with [] => ms | _ :: _ => sorted end
          = match topics with [] => ms | _ :: _ => sorted end) as ->.
  { apply Permutation_length in Hperm. destruct topics, topics'; simpl in Hperm;
      try discriminate; reflexivity. }
  set (base := match topics with [] => ms | _ :: _ => sorted end).
  apply Forall2_same_length_lookup. split; [rewrite !deal_pass_length; reflexivity|].
  intros j m m' H1 H2. rewrite deal_pass_lookup in H1, H2.
  destruct (base !! j) as [m0|]; [|discriminate].
  simpl in H1, H2. injection H1 as <-. injection H2 as <-. simpl.
  split; [reflexivity|]. split; [reflexivity|].
  apply Permutation_app_head. unfold pass_entries.
  apply Permutation_flat_map. assumption.
Qed.

Lemma X12_topic_order_only_orders_entries_witness :
  exists r r',
    rd_kafka_doubleroundrobin_assignor_assign_cb str_cmp classify_distinct
      scenario_a_members scenario_a_topics "" = Ok r /\
    rd_kafka_doubleroundrobin_assignor_assign_cb str_cmp classify_distinct
      scenario_a_members (rev scenario_a_topics) "" = Ok r' /\
    Forall2 (fun m m' =>
               rkgm_member_id m = rkgm_member_id m' /\
               rkgm_subscription m = rkgm_subscription m' /\
               rkgm_assignment m ≡ₚ rkgm_assignment m')
      (res_members r) (res_members r').
Proof.
  apply (X12_topic_order_only_orders_entries str_cmp classify_distinct
           scenario_a_members scenario_a_topics (rev scenario_a_topics) "").
  - exact str_cmp_total.
  - simpl. apply Permutation_swap.
  - repeat constructor; simpl; eauto.
Defined.

(** ** Groups are runs of the sorted order *)

Section GroupOrder.

Variables (n : Z) (g : grouping) (dcl rl : list Z).
Hypothesis Hok : grouping_ok n g dcl rl.

Lemma group_cell_lt (g1 k1 g2 k2 : Z) :
  0 <= g1 < recount_member g -> 0 <= k1 < group_size g g1 ->
  0 <= g2 < recount_member g -> 0 <= k2 < group_size g g2 ->
  g1 < g2 \/ (g1 = g2 /\ k1 < k2) ->
  vla_val (different_consumers g) g1 + 1 + k1 < vla_val (different_consumers g) g2 + 1 + k2.
Proof.
  intros Hg1 Hk1 Hg2 Hk2 Hlex.
  destruct (grouping_ok_size n g dcl rl Hok g1 Hg1) as (lo1 & hi1 & Hlo1 & Hhi1 & Hlt1 & _ & Hsz1 & _).
  destruct (grouping_ok_size n g dcl rl Hok g2 Hg2) as (lo2 & hi2 & Hlo2 & Hhi2 & Hlt2 & _ & Hsz2 & _).
  destruct (grouping_ok_boundary n g dcl rl Hok g1) as (l1 & Hl1 & _ & _ & Hv1); [lia|].
  destruct (grouping_ok_boundary n g dcl rl Hok g2) as (l2 & Hl2 & _ & _ & Hv2); [lia|].
  assert (l1 = lo1) as -> by congruence. assert (l2 = lo2) as -> by congruence.
  rewrite Hv1, Hv2. rewrite Hsz1 in Hk1. rewrite Hsz2 in Hk2.
  destruct Hlex as [Hlt|[-> Hlt]].
  - assert (hi1 <= lo2); [|lia].
    destruct (decide (g1 + 1 = g2)) as [E|E].
    + rewrite E in Hhi1. assert (hi1 = lo2) by congruence. lia.
    + pose proof (go_dcl_incr _ _ _ _ Hok (Z.to_nat (g1 + 1)) (Z.to_nat g2)
                    hi1 lo2 ltac:(lia) Hhi1 Hlo2). lia.
  - assert (lo1 = lo2) by congruence. lia.
Qed.

Lemma group_slot_lt (g1 k1 g2 k2 : Z) :
  0 <= g1 < recount_member g -> 0 <= k1 < group_size g g1 ->
  0 <= g2 < recount_member g -> 0 <= k2 < group_size g g2 ->
  g1 < g2 \/ (g1 = g2 /\ k1 < k2) ->
  group_slot g g1 k1 < group_slot g g2 k2.
Proof.
  intros Hg1 Hk1 Hg2 Hk2 Hlex.
  pose proof (group_cell_lt g1 k1 g2 k2 Hg1 Hk1 Hg2 Hk2 Hlex) as Hcell.
  destruct (grouping_ok_slot n g dcl rl Hok g1 k1 Hg1 Hk1) as (s1 & Hs1 & Hb1 & _ & _ & ->).
  destruct (grouping_ok_slot n g dcl rl Hok g2 k2 Hg2 Hk2) as (s2 & Hs2 & Hb2 & _ & _ & ->).
  apply (go_rl_incr _ _ _ _ Hok
           (Z.to_nat (vla_val (different_consumers g) g1 + 1 + k1))
           (Z.to_nat (vla_val (different_consumers g) g2 + 1 + k2)) s1 s2);
    [lia|assumption|assumption].
Qed.

End GroupOrder.

(** X13: the groups are runs of the sorted member array, in its order:
    the slot at place k1 of group g1 comes before the slot at place k2
    of group g2 exactly when g1 is the earlier group, or they are the
    same group and k1 the earlier place. *)
Theorem X13_groups_are_runs_in_sorted_order
    (classify : string -> string -> Z) (ms : list rd_kafka_group_member_t) (n : Z) :
  1 <= n <= Z.of_nat (length ms) ->
  exists g,
    group_members classify ms n = Ok g /\
    forall g1 k1 g2 k2,
      0 <= g1 < recount_member g -> 0 <= k1 < group_size g g1 ->
      0 <= g2 < recount_member g -> 0 <= k2 < group_size g g2 ->
      (group_slot g g1 k1 < group_slot g g2 k2 <-> g1 < g2 \/ (g1 = g2 /\ k1 < k2)).
Proof.
  intros Hn.
  destruct (group_members_ok classify n ms Hn) as (g & dcl & rl & Hg & Hok).
  exists g. split; [exact Hg|].
  intros g1 k1 g2 k2 Hg1 Hk1 Hg2 Hk2. split.
  - intros Hlt.
    destruct (Z.lt_trichotomy g1 g2) as [H|[H|H]]; [left; assumption| |].
    + subst g2. right. split; [reflexivity|].
      destruct (Z.lt_trichotomy k1 k2) as [H|[H|H]]; [assumption| |].
      * subst k2. lia.
      * pose proof (group_slot_lt n g dcl rl Hok g1 k2 g1 k1 Hg2 Hk2 Hg1 Hk1
                      ltac:(right; split; [reflexivity|assumption])). lia.
    + pose proof (group_slot_lt n g dcl rl Hok g2 k2 g1 k1 Hg2 Hk2 Hg1 Hk1
                    ltac:(left; assumption)). lia.
  - apply (group_slot_lt n g dcl rl Hok); assumption.
Qed.

Lemma X13_groups_are_runs_in_sorted_order_witness :
  exists g,
    group_members scenario_b_classify scenario_b_members 3 = Ok g /\
    forall g1 k1 g2 k2,
      0 <= g1 < recount_member g -> 0 <= k1 < group_size g g1 ->
      0 <= g2 < recount_member g -> 0 <= k2 < group_size g g2 ->
      (group_slot g g1 k1 < group_slot g g2 k2 <-> g1 < g2 \/ (g1 = g2 /\ k1 < k2)).
Proof.
  apply (X13_groups_are_runs_in_sorted_order scenario_b_classify scenario_b_members 3).
  simpl. lia.
Defined.

(** ** What a classification does to the open group *)

Section OpenGroup.

Variable classify : string -> string -> Z.
Variable ms : list rd_kafka_group_member_t.

Lemma retained_before_mono (j k : nat) :
  (j <= k)%nat ->
  (length (retained_before classify ms j) <= length (retained_before classify ms k))%nat.
Proof.
  induction k as [|k IH]; intros Hj.
  - replace j with 0%nat by lia. lia.
  - destruct (decide (j = S k)) as [->|Hne]; [lia|].
    simpl. rewrite length_app. specialize (IH ltac:(lia)). lia.
Qed.

Lemma retained_before_strict (j k : nat) :
  (j < k)%nat -> status_retains (pair_status classify ms j) = true ->
  (length (retained_before classify ms j) < length (retained_before classify ms k))%nat.
Proof.
  intros Hj Hs. pose proof (retained_before_mono (S j) k ltac:(lia)) as H.
  simpl in H. rewrite Hs, length_app in H. simpl in H. lia.
Qed.

(** A retained slot sits at the fill position of its iteration. *)
Lemma retained_before_position (j k : nat) :
  (j < k)%nat -> status_retains (pair_status classify ms j) = true ->
  retained_before classify ms k !! length (retained_before classify ms j)
  = Some (Z.of_nat j).
Proof.
  induction k as [|k IH]; intros Hj Hs; [lia|].
  simpl. destruct (decide (j = k)) as [->|Hne].
  - rewrite Hs. rewrite lookup_app_r by lia. rewrite Nat.sub_diag. reflexivity.
  - rewrite lookup_app_l by (apply retained_before_strict; [lia|assumption]).
    apply IH; [lia|assumption].
Qed.

Lemma boundaries_before_elem (k : nat) (x : Z) :
  x ∈ boundaries_before classify ms k <->
  x = -1 \/ exists j : nat, (j < k)%nat /\ pair_status classify ms j = 0 /\
                            x = Z.of_nat (length (retained_before classify ms j)).
Proof.
  induction k as [|k IH]; simpl.
  - rewrite list_elem_of_singleton. split; [auto|].
    intros [H|(j & Hj & _)]; [assumption|lia].
  - rewrite elem_of_app, IH. split.
    + intros [[H|(j & Hj & Hs & Hx)]|H]; [left; assumption| |].
      * right. exists j. repeat split; [lia|assumption|assumption].
      * destruct (Z.eqb_spec (pair_status classify ms k) 0) as [E|E]; [|inversion H].
        apply list_elem_of_singleton in H. right. exists k. repeat split; [lia|assumption|assumption].
    + intros [H|(j & Hj & Hs & Hx)]; [left; left; assumption|].
      destruct (decide (j = k)) as [->|Hne].
      * right. rewrite Hs. simpl. apply list_elem_of_singleton. assumption.
      * left. right. exists j. repeat split; [lia|assumption|assumption].
Qed.

Variable n : Z.
Hypothesis Hn : 1 <= n <= Z.of_nat (length ms).

Lemma slot_closes_group (i : nat) :
  Z.of_nat i < n - 1 -> pair_status classify ms i = 0 ->
  exists group_id,
    0 <= group_id < recount_member (grouping_of classify ms n) - 1 /\
    group_slot (grouping_of classify ms n) group_id
      (group_size (grouping_of classify ms n) group_id - 1) = Z.of_nat i.
Proof.
  intros Hi Hst.
  pose proof (grouping_of_ok classify ms n Hn) as Hok.
  set (g := grouping_of classify ms n) in *.
  set (k := Z.to_nat (n - 1)) in *.
  set (R := retained_before classify ms k) in *.
  set (dcl := boundaries_before classify ms k ++ [Z.of_nat (length R)]) in *.
  set (x := length (retained_before classify ms i)).
  assert (status_retains (pair_status classify ms i) = true) as Hret
    by (rewrite Hst; reflexivity).
  assert (x < length R)%nat as Hx by (apply retained_before_strict; [lia|assumption]).
  assert (Z.of_nat x ∈ dcl) as Hin.
  { unfold dcl. apply elem_of_app. left. apply boundaries_before_elem.
    right. exists i. repeat split; [lia|assumption]. }
  apply list_elem_of_lookup_1 in Hin as [m Hm].
  pose proof (go_groups _ _ _ _ Hok) as HG. pose proof (go_recount _ _ _ _ Hok) as HR.
  assert (m < length dcl)%nat as Hml by (eapply lookup_lt_Some; exact Hm).
  assert (m <> 0%nat) as Hm0.
  { intros ->. rewrite (go_dcl_head _ _ _ _ Hok) in Hm. injection Hm. lia. }
  assert (Z.of_nat m <> recount_member g) as HmG.
  { intros E. pose proof (go_dcl_last _ _ _ _ Hok) as Hlast.
    rewrite <- E, Nat2Z.id, Hm in Hlast. injection Hlast.
    rewrite length_app. simpl. lia. }
  exists (Z.of_nat m - 1). split; [lia|].
  destruct (grouping_ok_size n g _ _ Hok (Z.of_nat m - 1) ltac:(lia))
    as (lo & hi & Hlo & Hhi & Hlt & _ & Hsz & _).
  replace (Z.to_nat (Z.of_nat m - 1 + 1)) with m in Hhi by lia.
  assert (hi = Z.of_nat x) as -> by congruence.
  destruct (grouping_ok_boundary n g _ _ Hok (Z.of_nat m - 1) ltac:(lia))
    as (lo' & Hlo' & _ & _ & Hv).
  assert (lo' = lo) as -> by congruence.
  destruct (grouping_ok_slot n g _ _ Hok (Z.of_nat m - 1)
              (group_size g (Z.of_nat m - 1) - 1) ltac:(lia) ltac:(lia))
    as (s & Hs & _ & _ & _ & ->).
  rewrite Hv, Hsz in Hs.
  replace (Z.to_nat (lo + 1 + (Z.of_nat x - lo - 1))) with x in Hs by lia.
  rewrite lookup_app_l in Hs by assumption.
  unfold x, R in Hs. rewrite retained_before_position in Hs by (lia || assumption).
  congruence.
Qed.

Lemma slot_keeps_group_open (i : nat) :
  Z.of_nat i < n - 1 -> pair_status classify ms i = 1 ->
  exists group_id k,
    0 <= group_id < recount_member (grouping_of classify ms n) /\
    0 <= k /\ k + 1 < group_size (grouping_of classify ms n) group_id /\
    group_slot (grouping_of classify ms n) group_id k = Z.of_nat i.
Proof.
  intros Hi Hst.
  pose proof (grouping_of_ok classify ms n Hn) as Hok.
  set (g := grouping_of classify ms n) in *.
  set (k := Z.to_nat (n - 1)) in *.
  set (R := retained_before classify ms k) in *.
  set (dcl := boundaries_before classify ms k ++ [Z.of_nat (length R)]) in *.
  set (x := length (retained_before classify ms i)).
  assert (status_retains (pair_status classify ms i) = true) as Hret
    by (rewrite Hst; reflexivity).
  assert (x < length R)%nat as Hx by (apply retained_before_strict; [lia|assumption]).
  destruct (grouping_ok_cover n g _ _ Hok (Z.of_nat x)) as (gid & p & Hg & Hp & E).
  { rewrite length_app. simpl. lia. }
  destruct (grouping_ok_slot n g _ _ Hok gid p Hg Hp) as (s & Hs & _ & _ & _ & Hslot).
  rewrite E, Nat2Z.id in Hs. rewrite lookup_app_l in Hs by assumption.
  unfold x, R in Hs. rewrite retained_before_position in Hs by (lia || assumption).
  injection Hs as <-.
  exists gid, p. split; [assumption|]. split; [lia|]. split; [|assumption].
  destruct (grouping_ok_size n g _ _ Hok gid Hg) as (lo & hi & Hlo & Hhi & Hlt & _ & Hsz & _).
  destruct (grouping_ok_boundary n g _ _ Hok gid ltac:(lia)) as (lo' & Hlo' & _ & _ & Hv).
  assert (lo' = lo) as -> by congruence.
  rewrite Hv in E. rewrite Hsz in Hp |- *.
  assert (Z.of_nat x <> hi); [|lia].
  intros <-.
  apply list_elem_of_lookup_2 in Hhi. unfold dcl in Hhi.
  apply elem_of_app in Hhi as [Hb|Hl].
  - apply boundaries_before_elem in Hb as [Hb|(j & Hj & Hsj & Hxj)]; [lia|].
    assert (status_retains (pair_status classify ms j) = true) as Hretj
      by (rewrite Hsj; reflexivity).
    destruct (Nat.lt_trichotomy i j) as [H|[H|H]].
    + pose proof (retained_before_strict i j H Hret). unfold x in Hxj. lia.
    + subst j. congruence.
    + pose proof (retained_before_strict j i H Hretj). unfold x in Hxj. lia.
  - apply list_elem_of_singleton in Hl. lia.
Qed.

Lemma last_slot_closes_last_group :
  group_slot (grouping_of classify ms n) (recount_member (grouping_of classify ms n) - 1)
    (group_size (grouping_of classify ms n)
       (recount_member (grouping_of classify ms n) - 1) - 1) = n - 1.
Proof.
  pose proof (grouping_of_ok classify ms n Hn) as Hok.
  set (g := grouping_of classify ms n) in *.
  pose proof (go_groups _ _ _ _ Hok) as HG.
  destruct (grouping_ok_size n g _ _ Hok (recount_member g - 1) ltac:(lia))
    as (lo & hi & Hlo & Hhi & Hlt & _ & Hsz & _).
  replace (recount_member g - 1 + 1) with (recount_member g) in Hhi by lia.
  rewrite (go_dcl_last _ _ _ _ Hok) in Hhi. injection Hhi as <-.
  destruct (grouping_ok_boundary n g _ _ Hok (recount_member g - 1) ltac:(lia))
    as (lo' & Hlo' & _ & _ & Hv).
  assert (lo' = lo) as -> by congruence.
  destruct (grouping_ok_slot n g _ _ Hok (recount_member g - 1)
              (group_size g (recount_member g - 1) - 1) ltac:(lia) ltac:(lia))
    as (s & Hs & _ & _ & _ & ->).
  rewrite Hv, Hsz in Hs.
  pose proof (go_rl_last _ _ _ _ Hok) as Hlast.
  pose proof (go_rl_len _ _ _ _ Hok) as Hlen.
  match type of Hs with ?l !! ?a = _ =>
    match type of Hlast with _ !! ?b = _ => replace a with b in Hs by lia end end.
  congruence.
Qed.

End OpenGroup.

(** X14: what the classification of slot i against its successor does
    to the group that is open at i.  Classified 0, slot i is the last
    member of its group, and that group is not the last one; classified
    1, slot i is a member of its group but not the last one, so the
    group goes on with the next retained slot; and the last of the n
    slots is the last member of the last group. *)
Theorem X14_distinct_closes_the_group_same_group_keeps_it_open
    (classify : string -> string -> Z) (ms : list rd_kafka_group_member_t) (n : Z) :
  1 <= n <= Z.of_nat (length ms) ->
  exists g,
    group_members classify ms n = Ok g /\
    (forall i : nat,
       Z.of_nat i < n - 1 -> pair_status classify ms i = 0 ->
       exists group_id,
         0 <= group_id < recount_member g - 1 /\
         group_slot g group_id (group_size g group_id - 1) = Z.of_nat i) /\
    (forall i : nat,
       Z.of_nat i < n - 1 -> pair_status classify ms i = 1 ->
       exists group_id k,
         0 <= group_id < recount_member g /\
         0 <= k /\ k + 1 < group_size g group_id /\
         group_slot g group_id k = Z.of_nat i) /\
    group_slot g (recount_member g - 1) (group_size g (recount_member g - 1) - 1) = n - 1.
Proof.
  intros Hn. exists (grouping_of classify ms n).
  split; [apply group_members_exact; assumption|].
  split; [|split].
  - intros i. apply slot_closes_group. assumption.
  - intros i. apply slot_keeps_group_open. assumption.
  - apply last_slot_closes_last_group. assumption.
Qed.

Lemma X14_distinct_closes_the_group_same_group_keeps_it_open_witness :
  exists g,
    group_members scenario_b_classify scenario_b_members 3 = Ok g /\
    (forall i : nat,
       Z.of_nat i < 3 - 1 -> pair_status scenario_b_classify scenario_b_members i = 0 ->
       exists group_id,
         0 <= group_id < recount_member g - 1 /\
         group_slot g group_id (group_size g group_id - 1) = Z.of_nat i) /\
    (forall i : nat,
       Z.of_nat i < 3 - 1 -> pair_status scenario_b_classify scenario_b_members i = 1 ->
       exists group_id k,
         0 <= group_id < recount_member g /\
         0 <= k /\ k + 1 < group_size g group_id /\
         group_slot g group_id k = Z.of_nat i) /\
    group_slot g (recount_member g - 1) (group_size g (recount_member g - 1) - 1) = 3 - 1.
Proof.
  apply (X14_distinct_closes_the_group_same_group_keeps_it_open
           scenario_b_classify scenario_b_members 3).
  simpl. lia.
Defined.

(** ** Plain round robin when every member is eligible *)

Lemma filter_ext_elem {A : Type} (P Q : A -> Prop)
    `{forall x, Decision (P x)} `{forall x, Decision (Q x)} (l : list A) :
  (forall x, x ∈ l -> P x <-> Q x) -> filter P l = filter Q l.
Proof.
  induction l as [|x l IH]; intros Hext; [reflexivity|].
  rewrite !filter_cons.
  assert (P x <-> Q x) as Hx by (apply Hext; left).
  rewrite IH by (intros y Hy; apply Hext; right; exact Hy).
  destruct (decide (P x)), (decide (Q x)); tauto || reflexivity.
Qed.

Lemma eligible_ids_everyone (ms : list rd_kafka_group_member_t)
    (t : rd_kafka_assignor_topic_t) :
  members t ≡ₚ seq 0 (length ms) ->
  eligible_ids ms t ≡ₚ rkgm_member_id <$> ms.
Proof.
  intros Hperm. unfold eligible_ids. rewrite Hperm.
  replace ((fun i => match ms !! i with
                     | Some m => rkgm_member_id m
                     | None => ""%string
                     end) <$> seq 0 (length ms))
    with (rkgm_member_id <$> ms); [reflexivity|].
  apply list_eq. intros i. rewrite !list_lookup_fmap.
  destruct (decide (i < length ms)%nat) as [Hi|Hi].
  - rewrite lookup_seq_lt by assumption. simpl.
    destruct (ms !! i) eqn:E; [reflexivity|].
    apply lookup_ge_None in E. lia.
  - rewrite (lookup_ge_None_2 ms i) by lia.
    rewrite (lookup_ge_None_2 (seq 0 (length ms)) i) by (rewrite length_seq; lia).
    reflexivity.
Qed.

Section EveryoneEligible.

Variable id_cmp : string -> string -> Z.
Variable classify : string -> string -> Z.

Hypothesis id_cmp_total : forall a b, 0 < id_cmp a b -> id_cmp b a <= 0.
Hypothesis id_cmp_trans :
  forall a b c, id_cmp a b <= 0 -> id_cmp b c <= 0 -> id_cmp a c <= 0.
Hypothesis id_cmp_antisym : forall a b, id_cmp a b <= 0 -> id_cmp b a <= 0 -> a = b.

Variable ms : list rd_kafka_group_member_t.

Hypothesis ids_unique : NoDup (rkgm_member_id <$> ms).
Hypothesis all_classified_distinct :
  all_distinct classify
    (rkgm_member_id <$> qsort (rd_kafka_group_member_cmp id_cmp) ms).

(** The two orders agree: the merge sort of the ids is the list of ids
    of the array that the code has sorted. *)
Lemma sorted_eligible_ids_everyone (t : rd_kafka_assignor_topic_t) :
  members t ≡ₚ seq 0 (length ms) ->
  sorted_eligible_ids id_cmp ms t
  = rkgm_member_id <$> qsort (rd_kafka_group_member_cmp id_cmp) ms.
Proof.
  intros Hperm.
  assert (Transitive (fun a b : string => id_cmp a b <= 0)) as HT
    by (intros a b c; apply id_cmp_trans).
  assert (Total (fun a b : string => id_cmp a b <= 0)) as Htot.
  { intros a b. destruct (Z.le_gt_cases (id_cmp a b) 0) as [H|H]; [left; exact H|].
    right. apply id_cmp_total. lia. }
  apply (Sorted_unique_strong (fun a b : string => id_cmp a b <= 0)).
  - intros x1 x2 _ _. apply id_cmp_antisym.
  - unfold sorted_eligible_ids. apply Sorted_merge_sort. exact Htot.
  - apply (qsort_sorted id_cmp id_cmp_total).
  - unfold sorted_eligible_ids. rewrite merge_sort_Permutation.
    rewrite (eligible_ids_everyone ms t Hperm).
    apply fmap_Permutation. symmetry. apply qsort_perm.
Qed.

Lemma topic_entries_everyone (t : rd_kafka_assignor_topic_t) (j : nat)
    (m : rd_kafka_group_member_t) :
  (1 <= length ms)%nat ->
  all_eligible ms t ->
  qsort (rd_kafka_group_member_cmp id_cmp) ms !! j = Some m ->
  topic_entries classify (qsort (rd_kafka_group_member_cmp id_cmp) ms) t (Z.of_nat j)
  = plain_round_robin_entries id_cmp ms t (rkgm_member_id m).
Proof.
  intros Hne [[md Hmd] Hperm] Hj.
  set (sorted := qsort (rd_kafka_group_member_cmp id_cmp) ms) in *.
  assert (length (members t) = length ms) as Hn.
  { rewrite (Permutation_length Hperm), length_seq. reflexivity. }
  assert (length sorted = length ms) as Hls by apply qsort_length.
  assert (NoDup (rkgm_member_id <$> sorted)) as Hnd.
  { unfold sorted. rewrite qsort_perm. exact ids_unique. }
  unfold topic_entries, plain_round_robin_entries, topic_name, topic_partitions, new_entries.
  rewrite Hmd. f_equal.
  rewrite (sorted_eligible_ids_everyone t Hperm). fold sorted.
  unfold eligible_ids. rewrite length_fmap, Hn.
  apply filter_ext_elem. intros p Hp. apply elem_of_seqZ in Hp.
  assert (topic_owner classify sorted t p = p mod Z.of_nat (length ms)) as ->.
  { unfold topic_owner, rd_list_cnt. rewrite Hn.
    rewrite (group_members_all_distinct classify sorted _ all_classified_distinct) by lia.
    apply owner_singleton; lia. }
  pose proof (Z.mod_pos_bound p (Z.of_nat (length ms)) ltac:(lia)) as Hm.
  split.
  - intros ->. rewrite Nat2Z.id, list_lookup_fmap, Hj. reflexivity.
  - intros Hlook.
    assert ((rkgm_member_id <$> sorted) !! j = Some (rkgm_member_id m)) as Hjl
      by (rewrite list_lookup_fmap, Hj; reflexivity).
    pose proof (NoDup_lookup _ _ _ _ Hnd Hlook Hjl). lia.
Qed.

Lemma pass_entries_everyone (topics : list rd_kafka_assignor_topic_t) (j : nat)
    (m : rd_kafka_group_member_t) :
  (1 <= length ms)%nat ->
  Forall (all_eligible ms) topics ->
  qsort (rd_kafka_group_member_cmp id_cmp) ms !! j = Some m ->
  pass_entries classify (qsort (rd_kafka_group_member_cmp id_cmp) ms) topics (Z.of_nat j)
  = plain_round_robin_assignment id_cmp ms topics (rkgm_member_id m).
Proof.
  intros Hne Hall Hj. unfold pass_entries, plain_round_robin_assignment.
  induction Hall as [|t rest Ht Hrest IH]; [reflexivity|].
  cbn [flat_map]. rewrite IH, (topic_entries_everyone t j m Hne Ht Hj). reflexivity.
Qed.

End EveryoneEligible.

(** X15: when every member is eligible for every topic and no two
    members are replicas, the pass is plain lexicographic round robin
    over the members: for each topic the members are laid out in the
    order of their ids and partition p goes to the one at position
    p mod n.  The array that comes back holds the caller's members,
    each with exactly these entries appended to its list, and is in the
    order of the ids as soon as there is a topic. *)
Theorem X15_plain_round_robin_when_everyone_is_eligible
    (id_cmp classify : string -> string -> Z)
    (ms : list rd_kafka_group_member_t)
    (topics : list rd_kafka_assignor_topic_t) (errstr : string) :
  (forall a b, 0 < id_cmp a b -> id_cmp b a <= 0) ->
  (forall a b c, id_cmp a b <= 0 -> id_cmp b c <= 0 -> id_cmp a c <= 0) ->
  (forall a b, id_cmp a b <= 0 -> id_cmp b a <= 0 -> a = b) ->
  NoDup (rkgm_member_id <$> ms) ->
  (1 <= length ms)%nat ->
  all_distinct classify
    (rkgm_member_id <$> qsort (rd_kafka_group_member_cmp id_cmp) ms) ->
  Forall (all_eligible ms) topics ->
  exists r,
    rd_kafka_doubleroundrobin_assignor_assign_cb id_cmp classify ms topics errstr = Ok r /\
    res_err r = 0 /\
    res_errstr r = errstr /\
    is_plain_round_robin id_cmp ms topics r /\
    (topics <> [] -> ids_sorted id_cmp (res_members r)).
Proof.
  intros Htotal Htrans Hanti Hnd Hne Hdist Hall.
  assert (Forall (topic_ok (length ms)) topics) as Hok.
  { eapply Forall_impl; [exact Hall|]. intros t [Hmd Hperm]. split; [exact Hmd|].
    rewrite (Permutation_length Hperm), length_seq. lia. }
  eexists. split; [apply assign_cb_deal_pass; assumption|].
  split; [reflexivity|]. split; [reflexivity|].
  cbn [res_members].
  set (sorted := qsort (rd_kafka_group_member_cmp id_cmp) ms).
  set (base := match topics with [] => ms | _ :: _ => sorted end).
  split.
  - unfold is_plain_round_robin. cbn [res_members].
    transitivity
      ((fun m =>
          {| rkgm_member_id := rkgm_member_id m;
             rkgm_subscription := rkgm_subscription m;
             rkgm_assignment :=
               rkgm_assignment m
                 ++ plain_round_robin_assignment id_cmp ms topics (rkgm_member_id m) |})
         <$> base).
    + replace (deal_pass classify sorted base topics)
        with ((fun m =>
                 {| rkgm_member_id := rkgm_member_id m;
                    rkgm_subscription := rkgm_subscription m;
                    rkgm_assignment :=
                      rkgm_assignment m
                        ++ plain_round_robin_assignment id_cmp ms topics
                             (rkgm_member_id m) |})
                <$> base); [reflexivity|].
      apply list_eq. intros j. rewrite deal_pass_lookup, list_lookup_fmap.
      destruct (base !! j) as [m|] eqn:Ej; [|reflexivity]. simpl. f_equal.
      unfold member_extend. f_equal. f_equal.
      destruct topics as [|t rest]; [reflexivity|].
      symmetry.
      apply (pass_entries_everyone id_cmp classify Htotal Htrans Hanti ms Hnd Hdist);
        assumption.
    + apply fmap_Permutation. unfold base.
      destruct topics; [reflexivity|apply qsort_perm].
  - intros Hnil.
    eapply extends_sorted; [apply extends_deal_pass|].
    unfold base. destruct topics; [contradiction|].
    apply qsort_sorted. assumption.
Qed.

(** The identifier comparison of the scenarios is a linear order. *)
Lemma string_compare_not_gt_trans (a b c : string) :
  String.compare a b <> Gt -> String.compare b c <> Gt -> String.compare a c <> Gt.
Proof.
  revert b c. induction a as [|x a IH]; intros [|y b] [|z c]; simpl;
    try congruence.
  unfold Ascii.compare.
  destruct (N.compare_spec (Ascii.N_of_ascii x) (Ascii.N_of_ascii y)) as [Exy|Exy|Exy];
    destruct (N.compare_spec (Ascii.N_of_ascii y) (Ascii.N_of_ascii z)) as [Eyz|Eyz|Eyz];
    try congruence.
  - rewrite Exy, Eyz, N.compare_refl. apply IH.
  - intros _ _. rewrite Exy. rewrite (proj2 (N.compare_lt_iff _ _) Eyz). discriminate.
  - intros _ _. rewrite <- Eyz. rewrite (proj2 (N.compare_lt_iff _ _) Exy). discriminate.
  - intros _ _. rewrite (proj2 (N.compare_lt_iff _ _) (N.lt_trans _ _ _ Exy Eyz)).
    discriminate.
Qed.

Lemma str_cmp_le (a b : string) : str_cmp a b <= 0 <-> String.compare a b <> Gt.
Proof. unfold str_cmp. destruct (String.compare a b); split; (lia || congruence). Qed.

Lemma str_cmp_trans (a b c : string) :
  str_cmp a b <= 0 -> str_cmp b c <= 0 -> str_cmp a c <= 0.
Proof. rewrite !str_cmp_le. apply string_compare_not_gt_trans. Qed.

Lemma str_cmp_antisym (a b : string) : str_cmp a b <= 0 -> str_cmp b a <= 0 -> a = b.
Proof.
  rewrite !str_cmp_le, (String.compare_antisym a b).
  destruct (String.compare b a) eqn:E; simpl; try congruence.
  intros _ _. symmetry. apply String.compare_eq_iff. exact E.
Qed.

Lemma X15_plain_round_robin_when_everyone_is_eligible_witness :
  exists r,
    rd_kafka_doubleroundrobin_assignor_assign_cb str_cmp classify_distinct
      scenario_a_members scenario_a_topics "" = Ok r /\
    res_err r = 0 /\
    res_errstr r = ""%string /\
    is_plain_round_robin str_cmp scenario_a_members scenario_a_topics r /\
    (scenario_a_topics <> [] -> ids_sorted str_cmp (res_members r)).
Proof.
  apply (X15_plain_round_robin_when_everyone_is_eligible str_cmp classify_distinct
           scenario_a_members scenario_a_topics "").
  - exact str_cmp_total.
  - exact str_cmp_trans.
  - exact str_cmp_antisym.
  - apply (bool_decide_unpack (NoDup (rkgm_member_id <$> scenario_a_members))).
    vm_compute. exact I.
  - simpl. lia.
  - intros i a b _ _. reflexivity.
  - repeat constructor; simpl; eauto.
Defined.
